(** * Herbie Runner: the caravan, terrain and obstacle core, embedded in Rocq

    A shallow embedding of the simulation core of the game
    (js/terrain.js, js/hikers.js, js/obstacles.js), of the game loop and the
    state machine of js/game.js, of the tap handling of js/input.js and of
    the flow feedback of js/palette.js and js/audio.js, and the proofs of
    its specified properties.

    Modelling conventions.
    - A JavaScript number is an exact rational [Q]: the arithmetic of the
      source is read over the rationals, rounding of IEEE doubles is not
      modelled.  An equation in a statement relates a field to the
      expression the source assigns to it; a value that a running game
      reaches through many rounded steps (the spacing of the caravan, the
      flow multiplier and the gain derived from it) is bounded with a
      margin wider than the rounding instead.  Where the source can divide
      zero by zero
      ([getFlowMultiplier]) the result type is [JS.number], which adds NaN
      and the two infinities to the rationals.
    - Objects that the source shares by reference (terrain segments, which a
      gap obstacle points to, and obstacles, which the caller of
      [clearObstacle] holds) live in a store, a list indexed by reference;
      the arrays of the source hold references into it.
    - A call that would raise a TypeError in the source (a field read on
      [undefined]) returns [None].
    - [Math.random()] and [performance.now()] are explicit arguments.
    - Of the page only the pause overlay is modelled; the other elements
      the interface writes to are taken to exist.  Drawing, sound output and
      the texts of the HUD are left out.
    - Fields that only feed the renderer through [Math.sin] or [Math.random]
      (walk and sway phases, bob and sway offsets, the decorative parallax
      layers) are left out; nothing modelled here reads them. *)

From Stdlib Require Import QArith Qabs Qminmax Qround Lqa Lia.
From stdpp Require Import base option list.

Local Open Scope Q_scope.

(** ** JavaScript numbers *)

Module JS.

(** Comparison operators of the source, as boolean tests on rationals. *)
Definition lt (a b : Q) : bool := negb (Qle_bool b a).
Definition gt (a b : Q) : bool := lt b a.
Definition ge (a b : Q) : bool := Qle_bool b a.
Definition le (a b : Q) : bool := Qle_bool a b.
(** [a !== b] on numbers. *)
Definition neq (a b : Q) : bool := negb (Qeq_bool a b).

(** The values a division can produce. *)
Inductive number : Type :=
| Fin (q : Q)
| PosInf
| NegInf
| NaN.

(** [a / b] on finite operands: 0/0 is NaN, a nonzero numerator over
    zero is an infinity of the numerator's sign (the divisors of the
    source are never the negative zero). *)
Definition div (a b : Q) : number :=
  if Qeq_bool b 0 then
    (if Qeq_bool a 0 then NaN else if lt 0 a then PosInf else NegInf)
  else Fin (a / b).

(** [n - c] for a finite [c]. *)
Definition sub_fin (n : number) (c : Q) : number :=
  match n with
  | Fin q => Fin (q - c)
  | other => other
  end.

(** [c - n] for a finite [c]. *)
Definition fin_sub (c : Q) (n : number) : number :=
  match n with
  | Fin q => Fin (c - q)
  | PosInf => NegInf
  | NegInf => PosInf
  | NaN => NaN
  end.

(** [n / c] for a finite [c]. *)
Definition div_fin (n : number) (c : Q) : number :=
  match n with
  | Fin q => div q c
  | NaN => NaN
  | PosInf => if lt c 0 then NegInf else PosInf
  | NegInf => if lt c 0 then PosInf else NegInf
  end.

Definition Math_abs (n : number) : number :=
  match n with
  | Fin q => Fin (Qabs q)
  | PosInf | NegInf => PosInf
  | NaN => NaN
  end.

(** [Math.max(c, n)] and [Math.min(c, n)] for a finite [c]: NaN wins. *)
Definition Math_max (c : Q) (n : number) : number :=
  match n with
  | Fin q => Fin (Qmax c q)
  | PosInf => PosInf
  | NegInf => Fin c
  | NaN => NaN
  end.

Definition Math_min (c : Q) (n : number) : number :=
  match n with
  | Fin q => Fin (Qmin c q)
  | PosInf => Fin c
  | NegInf => NegInf
  | NaN => NaN
  end.

(** [n * c] for a finite positive [c]. *)
Definition mul_pos (n : number) (c : Q) : number :=
  match n with
  | Fin q => Fin (q * c)
  | other => other
  end.

(** [n > c] and [n < c] for a finite [c]: false on NaN. *)
Definition num_gt (n : number) (c : Q) : bool :=
  match n with
  | Fin q => gt q c
  | PosInf => true
  | NegInf | NaN => false
  end.

Definition num_lt (n : number) (c : Q) : bool :=
  match n with
  | Fin q => lt q c
  | NegInf => true
  | PosInf | NaN => false
  end.

End JS.

(** ** Terrain (js/terrain.js) *)

Module Segment.
Record t : Type := mk {
  x : Q;
  y : Q;
  width : Q;
  height : Q;
  hasGap : bool
}.

Definition set_hasGap (b : bool) (seg : t) : t :=
  mk (x seg) (y seg) (width seg) (height seg) b.

(** The store of segment objects; a reference is an index into it. *)
Abbreviation store := (list t).
End Segment.

Module Terrain.

Record t : Type := mk {
  cameraX : Q;
  scrollSpeed : Q;
  segments : list nat;
  segmentWidth : Q;
  baseY : Q;
  nextSegmentX : Q;
  canvasWidth : Q;
  canvasHeight : Q
}.

(** [constructor()] *)
Definition new : t :=
  {| cameraX := 0; scrollSpeed := 80; segments := [];
     segmentWidth := 150; baseY := 0.7; nextSegmentX := 0;
     canvasWidth := 800; canvasHeight := 600 |}.

(** [generateSegment()]: allocate the segment object, push its reference,
    advance the generation edge. *)
Definition generateSegment (σ : Segment.store) (this : t)
  : Segment.store * t :=
  let segment :=
    {| Segment.x := nextSegmentX this;
       Segment.y := baseY this;
       Segment.width := segmentWidth this;
       Segment.height := 20;
       Segment.hasGap := false |} in
  (σ ++ [segment],
   {| cameraX := cameraX this; scrollSpeed := scrollSpeed this;
      segments := segments this ++ [length σ];
      segmentWidth := segmentWidth this; baseY := baseY this;
      nextSegmentX := nextSegmentX this + segmentWidth this;
      canvasWidth := canvasWidth this;
      canvasHeight := canvasHeight this |}).

(** [for (let i = 0; i < n; i++) this.generateSegment()] *)
Fixpoint generateSegments (n : nat) (σ : Segment.store) (this : t)
  : Segment.store * t :=
  match n with
  | O => (σ, this)
  | S n' =>
      let '(σ1, this1) := generateSegment σ this in
      generateSegments n' σ1 this1
  end.

(** [init(canvasWidth, canvasHeight)] *)
Definition init (σ : Segment.store) (this : t) (canvasWidth' canvasHeight' : Q)
  : Segment.store * t :=
  generateSegments 10 σ
    {| cameraX := 0; scrollSpeed := scrollSpeed this; segments := [];
       segmentWidth := segmentWidth this;
       baseY := canvasHeight' * 0.7;
       nextSegmentX := 0;
       canvasWidth := canvasWidth'; canvasHeight := canvasHeight' |}.

(** [while (this.nextSegmentX < rightEdge) this.generateSegment()], with
    an explicit bound on the number of iterations. *)
Fixpoint generateWhile (fuel : nat) (rightEdge : Q)
    (σ : Segment.store) (this : t) : Segment.store * t :=
  match fuel with
  | O => (σ, this)
  | S fuel' =>
      if JS.lt (nextSegmentX this) rightEdge then
        let '(σ1, this1) := generateSegment σ this in
        generateWhile fuel' rightEdge σ1 this1
      else (σ, this)
  end.

(** The number of iterations the loop makes when the width is positive. *)
Definition segmentsNeeded (this : t) (rightEdge : Q) : nat :=
  Z.to_nat (Qceiling ((rightEdge - nextSegmentX this) / segmentWidth this)).

(** The predicate of the [filter] that recycles segments. *)
Definition inView (σ : Segment.store) (cam : Q) (r : nat) : bool :=
  match σ !! r with
  | Some seg => JS.gt (Segment.x seg + Segment.width seg) (cam - 100)
  | None => false
  end.

(** [update(deltaTime, distance, herbieX = null)] *)
Definition update (σ : Segment.store) (this : t)
    (deltaTime distance : Q) (herbieX : option Q) : Segment.store * t :=
  let cameraX' :=
    match herbieX with
    | Some hx =>
        let targetX := Qmax 0 (hx - canvasWidth this * 0.3) in
        cameraX this + (targetX - cameraX this) * Qmin 1 (deltaTime * 4)
    | None => cameraX this + scrollSpeed this * deltaTime
    end in
  let rightEdge := cameraX' + canvasWidth this + 200 in
  let this1 :=
    {| cameraX := cameraX'; scrollSpeed := scrollSpeed this;
       segments := segments this; segmentWidth := segmentWidth this;
       baseY := baseY this; nextSegmentX := nextSegmentX this;
       canvasWidth := canvasWidth this;
       canvasHeight := canvasHeight this |} in
  let '(σ2, this2) :=
    generateWhile (segmentsNeeded this1 rightEdge) rightEdge σ this1 in
  (σ2,
   {| cameraX := cameraX this2; scrollSpeed := scrollSpeed this2;
      segments := List.filter (inView σ2 (cameraX this2)) (segments this2);
      segmentWidth := segmentWidth this2; baseY := baseY this2;
      nextSegmentX := nextSegmentX this2;
      canvasWidth := canvasWidth this2;
      canvasHeight := canvasHeight this2 |}).

(** The predicate [x >= seg.x && x < seg.x + seg.width] shared by
    [getYAtX], [isOnGround] and the obstacle spawner. *)
Definition covers (px : Q) (seg : Segment.t) : bool :=
  JS.ge px (Segment.x seg) && JS.lt px (Segment.x seg + Segment.width seg).

(** [this.segments.find(seg => x >= seg.x && x < seg.x + seg.width)],
    giving the reference of the segment found. *)
Fixpoint findSegment (σ : Segment.store) (refs : list nat) (px : Q)
  : option nat :=
  match refs with
  | [] => None
  | r :: rest =>
      match σ !! r with
      | Some seg => if covers px seg then Some r else findSegment σ rest px
      | None => findSegment σ rest px
      end
  end.

(** [getYAtX(x)]: [None] is the source's [null]. *)
Definition getYAtX (σ : Segment.store) (this : t) (px : Q) : option Q :=
  match findSegment σ (segments this) px with
  | Some r =>
      match σ !! r with
      | Some segment =>
          if negb (Segment.hasGap segment) then Some (Segment.y segment)
          else None
      | None => None
      end
  | None => None
  end.

(** [isOnGround(x, y)] *)
Definition isOnGround (σ : Segment.store) (this : t) (px py : Q) : bool :=
  match findSegment σ (segments this) px with
  | Some r =>
      match σ !! r with
      | Some segment =>
          if Segment.hasGap segment then false
          else JS.lt (Qabs (py - Segment.y segment)) 5
      | None => false
      end
  | None => false
  end.

End Terrain.

(** ** The caravan (js/hikers.js) *)

Module Hiker.
Record t : Type := mk {
  index : nat;
  baseSpeed : Q;
  currentSpeed : Q;
  x : Q;
  y : Q;
  targetY : Q;
  vx : Q;
  vy : Q;
  size : Q;
  glowRadius : Q;
  isWaiting : bool;
  offloadBoost : Q;
  pulseTime : Q
}.

Definition set_offloadBoost (b : Q) (h : t) : t :=
  mk (index h) (baseSpeed h) (currentSpeed h) (x h) (y h) (targetY h)
     (vx h) (vy h) (size h) (glowRadius h) (isWaiting h) b (pulseTime h).

Definition set_pulseTime (p : Q) (h : t) : t :=
  mk (index h) (baseSpeed h) (currentSpeed h) (x h) (y h) (targetY h)
     (vx h) (vy h) (size h) (glowRadius h) (isWaiting h) (offloadBoost h) p.
End Hiker.

Module HikerSystem.

Record t : Type := mk {
  hikers : list Hiker.t;
  herbieIndex : nat;
  spacing : Q;
  maxStretch : Q;
  herbieLabelTime : Q
}.

Definition set_hikers (hs : list Hiker.t) (this : t) : t :=
  mk hs (herbieIndex this) (spacing this) (maxStretch this)
     (herbieLabelTime this).

(** [constructor()] *)
Definition new : t :=
  {| hikers := []; herbieIndex := 0; spacing := 60; maxStretch := 220;
     herbieLabelTime := 0 |}.

Definition baseSpeeds : list Q := [1.0; 1.15; 1.3; 1.45; 1.6].

(** [init(startX, startY)] *)
Definition init (this : t) (startX startY : Q) : t :=
  set_hikers
    (imap (fun index baseSpeed =>
       {| Hiker.index := index;
          Hiker.baseSpeed := baseSpeed;
          Hiker.currentSpeed := baseSpeed;
          Hiker.x := startX - inject_Z (Z.of_nat index) * spacing this;
          Hiker.y := startY;
          Hiker.targetY := startY;
          Hiker.vx := 0;
          Hiker.vy := 0;
          Hiker.size := 16;
          Hiker.glowRadius := if Nat.eqb index 0 then 16 else 10;
          Hiker.isWaiting := false;
          Hiker.offloadBoost := 0;
          Hiker.pulseTime := 0 |}) baseSpeeds)
    this.

(** The speed rule of one [forEach] iteration (lines 47 to 71): the new
    [isWaiting] and [currentSpeed] of [hiker], where [ahead] is
    [this.hikers[index - 1]] as the array holds it at that moment, and
    [None] for the hiker at index 0. *)
Definition pace (this : t) (herbieSpeed : Q) (ahead : option Hiker.t)
    (hiker : Hiker.t) : bool * Q :=
  let targetSpeed :=
    Qmin (Hiker.baseSpeed hiker + Hiker.offloadBoost hiker) herbieSpeed in
  match ahead with
  | Some hikerAhead =>
      let distance := Hiker.x hikerAhead - Hiker.x hiker in
      if JS.lt distance (spacing this * 0.8) then
        (true, Qmax 0 (targetSpeed * (distance / spacing this)))
      else if JS.gt distance (spacing this * 1.5) then
        (false, Hiker.baseSpeed hiker * 1.2)
      else
        (false, targetSpeed)
  | None => (false, herbieSpeed)
  end.

(** Lines 102 to 109: decay of the offload boost. *)
Definition decay (deltaTime : Q) (offloadBoost : Q) : Q :=
  if JS.neq offloadBoost 0 then
    let direction := if JS.gt offloadBoost 0 then -1 else 1 in
    let offloadBoost1 := offloadBoost + direction * deltaTime * 0.5 in
    if JS.lt (Qabs offloadBoost1) 0.01 then 0 else offloadBoost1
  else offloadBoost.

(** The body of the [forEach] callback for one hiker. *)
Definition stepHiker (this : t) (deltaTime : Q)
    (σ : Segment.store) (terrain : Terrain.t) (herbieSpeed : Q)
    (ahead : option Hiker.t) (hiker : Hiker.t) : Hiker.t :=
  let '(isWaiting1, currentSpeed1) := pace this herbieSpeed ahead hiker in
  let x1 := Hiker.x hiker + currentSpeed1 * 100 * deltaTime in
  let groundY := Terrain.getYAtX σ terrain x1 in
  let targetY1 :=
    match groundY with
    | Some g => g
    | None => Hiker.targetY hiker
    end in
  let yDiff := targetY1 - Hiker.y hiker in
  let y1 := Hiker.y hiker + yDiff * 5 * deltaTime in
  let offloadBoost1 := decay deltaTime (Hiker.offloadBoost hiker) in
  let pulseTime1 :=
    if JS.gt (Hiker.pulseTime hiker) 0
    then Qmax 0 (Hiker.pulseTime hiker - deltaTime)
    else Hiker.pulseTime hiker in
  {| Hiker.index := Hiker.index hiker;
     Hiker.baseSpeed := Hiker.baseSpeed hiker;
     Hiker.currentSpeed := currentSpeed1;
     Hiker.x := x1;
     Hiker.y := y1;
     Hiker.targetY := targetY1;
     Hiker.vx := Hiker.vx hiker;
     Hiker.vy := Hiker.vy hiker;
     Hiker.size := Hiker.size hiker;
     Hiker.glowRadius := Hiker.glowRadius hiker;
     Hiker.isWaiting := isWaiting1;
     Hiker.offloadBoost := offloadBoost1;
     Hiker.pulseTime := pulseTime1 |}.

(** One iteration of [this.hikers.forEach((hiker, index) => ...)] on the
    array [hs], mutated in place: the hiker ahead is read from the array,
    so it has already been moved in this tick. *)
Definition forEachBody (this : t) (deltaTime : Q)
    (σ : Segment.store) (terrain : Terrain.t) (herbieSpeed : Q)
    (hs : list Hiker.t) (index : nat) : option (list Hiker.t) :=
  hiker ← hs !! index;
  if (0 <? index)%nat then
    hikerAhead ← hs !! (index - 1)%nat;
    Some (<[index := stepHiker this deltaTime σ terrain herbieSpeed
                       (Some hikerAhead) hiker]> hs)
  else
    Some (<[index := stepHiker this deltaTime σ terrain herbieSpeed
                       None hiker]> hs).

Fixpoint forEach (body : list Hiker.t -> nat -> option (list Hiker.t))
    (indices : list nat) (hs : list Hiker.t) : option (list Hiker.t) :=
  match indices with
  | [] => Some hs
  | index :: rest => hs1 ← body hs index; forEach body rest hs1
  end.

(** [update(deltaTime, terrain)]; [None] when [this.hikers] is empty
    (reading [herbie.baseSpeed] of [undefined]). *)
Definition update (this : t) (deltaTime : Q)
    (σ : Segment.store) (terrain : Terrain.t) : option t :=
  herbie ← hikers this !! herbieIndex this;
  let herbieLabelTime1 := Qmax 0 (herbieLabelTime this - deltaTime) in
  let herbieSpeed := Hiker.baseSpeed herbie + Hiker.offloadBoost herbie in
  hs1 ← forEach (forEachBody this deltaTime σ terrain herbieSpeed)
                (seq 0 (length (hikers this))) (hikers this);
  Some {| hikers := hs1; herbieIndex := herbieIndex this;
          spacing := spacing this; maxStretch := maxStretch this;
          herbieLabelTime := herbieLabelTime1 |}.

(** [triggerPulse()] *)
Definition triggerPulse (this : t) : t :=
  set_hikers (map (Hiker.set_pulseTime 0.8) (hikers this)) this.

(** [setHerbieLabel(seconds)] *)
Definition setHerbieLabel (this : t) (seconds : Q) : t :=
  mk (hikers this) (herbieIndex this) (spacing this) (maxStretch this)
     seconds.

(** [offloadHiker(hikerIndex)]; [None] when [hikerIndex] is outside the
    array (writing [hiker.offloadBoost] of [undefined]). *)
Definition offloadHiker (this : t) (hikerIndex : nat) : option t :=
  if Nat.eqb hikerIndex (herbieIndex this) then Some this
  else
    hiker ← hikers this !! hikerIndex;
    let hs1 :=
      <[hikerIndex := Hiker.set_offloadBoost (-0.2) hiker]> (hikers this) in
    herbie ← hs1 !! herbieIndex this;
    let hs2 :=
      <[herbieIndex this :=
          Hiker.set_offloadBoost (Qmax (Hiker.offloadBoost herbie) 0.4)
                                 herbie]> hs1 in
    Some (triggerPulse (set_hikers hs2 this)).

(** The [for (let i = 1; i < this.hikers.length; i++)] loops: the indices
    visited. *)
Definition pairIndices (this : t) : list nat :=
  seq 1 (length (hikers this) - 1).

(** Body of the loop of [getFlowMultiplier] on the pair
    [(totalSpacing, count)]. *)
Definition flowLoopBody (hs : list Hiker.t) (acc : option (Q * Q))
    (i : nat) : option (Q * Q) :=
  '(totalSpacing, count) ← acc;
  ahead ← hs !! (i - 1)%nat;
  hiker ← hs !! i;
  let distance := Hiker.x ahead - Hiker.x hiker in
  Some (totalSpacing + distance, count + 1).

(** [getFlowMultiplier()], over exact numbers: the source rounds the sum
    of the gaps and the quotients, so on an evenly spaced caravan a
    running game computes a value next to the one computed here (just
    below 3 where this gives 3). *)
Definition getFlowMultiplier (this : t) : option JS.number :=
  '(totalSpacing, count) ←
    foldl (flowLoopBody (hikers this)) (Some (0, 0)) (pairIndices this);
  let avgSpacing := JS.div totalSpacing count in
  let idealSpacing := spacing this in
  let deviation := JS.Math_abs (JS.sub_fin avgSpacing idealSpacing) in
  let multiplier :=
    JS.Math_max 1.0 (JS.fin_sub 3.0 (JS.div_fin deviation idealSpacing)) in
  Some (JS.Math_min 3.0 multiplier).

(** [isTooStretched()] *)
Fixpoint anyStretched (maxStretch : Q) (hs : list Hiker.t) (indices : list nat)
  : bool :=
  match indices with
  | [] => false
  | i :: rest =>
      match hs !! (i - 1)%nat, hs !! i with
      | Some ahead, Some hiker =>
          if JS.gt (Hiker.x ahead - Hiker.x hiker) maxStretch then true
          else anyStretched maxStretch hs rest
      | _, _ => anyStretched maxStretch hs rest
      end
  end.

Definition isTooStretched (this : t) : bool :=
  anyStretched (maxStretch this) (hikers this) (pairIndices this).

(** [isHerbieOnGround(terrain)] *)
Definition isHerbieOnGround (this : t) (σ : Segment.store)
    (terrain : Terrain.t) : option bool :=
  herbie ← hikers this !! herbieIndex this;
  Some (Terrain.isOnGround σ terrain (Hiker.x herbie) (Hiker.y herbie)).

(** [getTensionLines()]: the objects pushed, [from] the follower [to] the
    hiker ahead. *)
Record tensionLine : Type := mkLine {
  from : Hiker.t;
  to : Hiker.t;
  tension : JS.number
}.

Fixpoint tensionLinesIn (tensionThreshold maxStretch' : Q)
    (hs : list Hiker.t) (indices : list nat) : list tensionLine :=
  match indices with
  | [] => []
  | i :: rest =>
      match hs !! (i - 1)%nat, hs !! i with
      | Some ahead, Some hiker =>
          let distance := Hiker.x ahead - Hiker.x hiker in
          if JS.gt distance tensionThreshold then
            mkLine hiker ahead
                   (JS.div (distance - tensionThreshold)
                           (maxStretch' - tensionThreshold))
            :: tensionLinesIn tensionThreshold maxStretch' hs rest
          else tensionLinesIn tensionThreshold maxStretch' hs rest
      | _, _ => tensionLinesIn tensionThreshold maxStretch' hs rest
      end
  end.

Definition getTensionLines (this : t) : list tensionLine :=
  tensionLinesIn (spacing this * 2) (maxStretch this) (hikers this)
                 (pairIndices this).

(** [getHerbiePosition()] *)
Definition getHerbiePosition (this : t) : option (Q * Q) :=
  herbie ← hikers this !! herbieIndex this;
  Some (Hiker.x herbie, Hiker.y herbie).

End HikerSystem.

(** ** Obstacles (js/obstacles.js) *)

Module Obstacle.
Inductive kind : Type := gap | wall | platform | barrier.

Record t : Type := mk {
  type : kind;
  x : Q;
  y : Q;
  width : Q;
  height : Q;
  cleared : bool;
  clearing : bool;
  clearProgress : Q;
  glowPhase : Q;
  (** reference to the host segment, present on gap obstacles only *)
  segment : option nat;
  (** present on platforms only *)
  lowered : option bool
}.

Definition set_clearing (b : bool) (o : t) : t :=
  mk (type o) (x o) (y o) (width o) (height o) (cleared o) b
     (clearProgress o) (glowPhase o) (segment o) (lowered o).

(** The store of obstacle objects; a reference is an index into it. *)
Abbreviation store := (list t).
End Obstacle.

Module ObstacleSystem.

Record t : Type := mk {
  obstacles : list nat;
  nextObstacleDistance : Q;
  baseSpawnRate : Q;
  minSpawnRate : Q;
  obstaclesCleared : nat;
  lastClearTime : Q
}.

(** [constructor()] *)
Definition new : t :=
  {| obstacles := []; nextObstacleDistance := 0; baseSpawnRate := 180;
     minSpawnRate := 120; obstaclesCleared := 0; lastClearTime := 0 |}.

(** [init()] *)
Definition init (this : t) : t :=
  {| obstacles := []; nextObstacleDistance := 400;
     baseSpawnRate := baseSpawnRate this;
     minSpawnRate := minSpawnRate this;
     obstaclesCleared := 0; lastClearTime := 0 |}.

(** [Math.min(1.0, distance * 0.0002)] *)
Definition difficultyAt (distance : Q) : Q := Qmin 1.0 (distance * 0.0002).

(** Lines 57 to 67: the type drawn for a difficulty and a random number. *)
Definition chooseType (difficulty rand : Q) : Obstacle.kind :=
  if JS.lt difficulty 0.2 then
    if JS.lt rand 0.4 then Obstacle.wall
    else if JS.lt rand 0.7 then Obstacle.barrier
    else Obstacle.gap
  else if JS.lt difficulty 0.5 then
    if JS.lt rand 0.25 then Obstacle.gap
    else if JS.lt rand 0.5 then Obstacle.wall
    else if JS.lt rand 0.75 then Obstacle.barrier
    else Obstacle.platform
  else
    if JS.lt rand 0.2 then Obstacle.gap
    else if JS.lt rand 0.45 then Obstacle.wall
    else if JS.lt rand 0.7 then Obstacle.barrier
    else Obstacle.platform.

(** The object literal built by each [case] of the [switch]. *)
Definition makeObstacle (type : Obstacle.kind) (ref : nat)
    (segment : Segment.t) : Obstacle.t :=
  match type with
  | Obstacle.gap =>
      {| Obstacle.type := Obstacle.gap;
         Obstacle.x := Segment.x segment;
         Obstacle.y := Segment.y segment;
         Obstacle.width := Segment.width segment;
         Obstacle.height := 20;
         Obstacle.cleared := false; Obstacle.clearing := false;
         Obstacle.clearProgress := 0; Obstacle.glowPhase := 0;
         Obstacle.segment := Some ref; Obstacle.lowered := None |}
  | Obstacle.wall =>
      {| Obstacle.type := Obstacle.wall;
         Obstacle.x := Segment.x segment + Segment.width segment * 0.3;
         Obstacle.y := Segment.y segment - 60;
         Obstacle.width := 30;
         Obstacle.height := 60;
         Obstacle.cleared := false; Obstacle.clearing := false;
         Obstacle.clearProgress := 0; Obstacle.glowPhase := 0;
         Obstacle.segment := None; Obstacle.lowered := None |}
  | Obstacle.platform =>
      {| Obstacle.type := Obstacle.platform;
         Obstacle.x := Segment.x segment + Segment.width segment * 0.3;
         Obstacle.y := Segment.y segment - 50;
         Obstacle.width := 80;
         Obstacle.height := 50;
         Obstacle.cleared := false; Obstacle.clearing := false;
         Obstacle.clearProgress := 0; Obstacle.glowPhase := 0;
         Obstacle.segment := None; Obstacle.lowered := Some false |}
  | Obstacle.barrier =>
      {| Obstacle.type := Obstacle.barrier;
         Obstacle.x := Segment.x segment + Segment.width segment * 0.4;
         Obstacle.y := Segment.y segment - 80;
         Obstacle.width := 20;
         Obstacle.height := 80;
         Obstacle.cleared := false; Obstacle.clearing := false;
         Obstacle.clearProgress := 0; Obstacle.glowPhase := 0;
         Obstacle.segment := None; Obstacle.lowered := None |}
  end.

Definition push (ref : nat) (this : t) : t :=
  mk (obstacles this ++ [ref]) (nextObstacleDistance this)
     (baseSpawnRate this) (minSpawnRate this) (obstaclesCleared this)
     (lastClearTime this).

(** [spawnObstacle(terrain, distance)], with [rand] the value of
    [Math.random()]. *)
Definition spawnObstacle (σs : Segment.store) (σo : Obstacle.store)
    (this : t) (terrain : Terrain.t) (distance rand : Q)
  : Segment.store * Obstacle.store * t :=
  let difficulty := difficultyAt distance in
  let type := chooseType difficulty rand in
  let spawnX := Terrain.cameraX terrain + Terrain.canvasWidth terrain + 200 in
  match Terrain.findSegment σs (Terrain.segments terrain) spawnX with
  | None => (σs, σo, this)
  | Some ref =>
      match σs !! ref with
      | None => (σs, σo, this)
      | Some segment =>
          let obstacle := makeObstacle type ref segment in
          let σs1 :=
            match type with
            | Obstacle.gap => alter (Segment.set_hasGap true) ref σs
            | _ => σs
            end in
          (σs1, σo ++ [obstacle], push (length σo) this)
      end
  end.

(** The [forEach] callback of [update] on one obstacle. *)
Definition age (deltaTime : Q) (obstacle : Obstacle.t) : Obstacle.t :=
  let clearProgress1 :=
    if Obstacle.clearing obstacle
    then Obstacle.clearProgress obstacle + deltaTime * 2
    else Obstacle.clearProgress obstacle in
  let cleared1 :=
    if Obstacle.clearing obstacle && JS.ge clearProgress1 1.0 then true
    else Obstacle.cleared obstacle in
  let glowPhase0 :=
    if Qeq_bool (Obstacle.glowPhase obstacle) 0 then 0
    else Obstacle.glowPhase obstacle in
  {| Obstacle.type := Obstacle.type obstacle;
     Obstacle.x := Obstacle.x obstacle;
     Obstacle.y := Obstacle.y obstacle;
     Obstacle.width := Obstacle.width obstacle;
     Obstacle.height := Obstacle.height obstacle;
     Obstacle.cleared := cleared1;
     Obstacle.clearing := Obstacle.clearing obstacle;
     Obstacle.clearProgress := clearProgress1;
     Obstacle.glowPhase := glowPhase0 + deltaTime * 2;
     Obstacle.segment := Obstacle.segment obstacle;
     Obstacle.lowered := Obstacle.lowered obstacle |}.

(** The predicate of the pruning [filter]. *)
Definition keep (σo : Obstacle.store) (cameraX : Q) (ref : nat) : bool :=
  match σo !! ref with
  | Some obs => negb (Obstacle.cleared obs)
                && JS.gt (Obstacle.x obs) (cameraX - 200)
  | None => false
  end.

(** [update(deltaTime, terrain, distance)]; [rand] and [jitter] are the
    values of the two calls of [Math.random()], consumed only when an
    obstacle is due. *)
Definition update (σs : Segment.store) (σo : Obstacle.store) (this : t)
    (deltaTime : Q) (terrain : Terrain.t) (distance rand jitter : Q)
  : Segment.store * Obstacle.store * t :=
  let '(σs1, σo1, this1) :=
    if JS.gt distance (nextObstacleDistance this) then
      let '(σs', σo', this') :=
        spawnObstacle σs σo this terrain distance rand in
      let difficulty := difficultyAt distance in
      let spawnRate :=
        baseSpawnRate this'
        - (baseSpawnRate this' - minSpawnRate this') * difficulty in
      (σs', σo',
       mk (obstacles this') (distance + spawnRate + jitter * 80)
          (baseSpawnRate this') (minSpawnRate this')
          (obstaclesCleared this') (lastClearTime this'))
    else (σs, σo, this) in
  let σo2 :=
    foldl (fun σ ref => alter (age deltaTime) ref σ) σo1 (obstacles this1) in
  let cameraX := Terrain.cameraX terrain in
  (σs1, σo2,
   mk (List.filter (keep σo2 cameraX) (obstacles this1))
      (nextObstacleDistance this1) (baseSpawnRate this1)
      (minSpawnRate this1) (obstaclesCleared this1) (lastClearTime this1)).

(** [clearObstacle(obstacle)], with [now] the value of
    [performance.now()]; [None] when the reference is not an object. *)
Definition clearObstacle (σs : Segment.store) (σo : Obstacle.store)
    (this : t) (ref : nat) (now : Q)
  : option (bool * (Segment.store * Obstacle.store * t)) :=
  obstacle ← σo !! ref;
  if Obstacle.cleared obstacle || Obstacle.clearing obstacle then
    Some (false, (σs, σo, this))
  else
    let σo1 := <[ref := Obstacle.set_clearing true obstacle]> σo in
    let σs1 :=
      match Obstacle.type obstacle, Obstacle.segment obstacle with
      | Obstacle.gap, Some seg => alter (Segment.set_hasGap false) seg σs
      | _, _ => σs
      end in
    Some (true,
          (σs1, σo1,
           mk (obstacles this) (nextObstacleDistance this)
              (baseSpawnRate this) (minSpawnRate this)
              (S (obstaclesCleared this)) now)).

(** [getClearedCount()] *)
Definition getClearedCount (this : t) : nat := obstaclesCleared this.

(** [obstacle.height || d] *)
Definition heightOr (d : Q) (obstacle : Obstacle.t) : Q :=
  if Qeq_bool (Obstacle.height obstacle) 0 then d
  else Obstacle.height obstacle.

(** [checkCollision(herbieX, herbieY, herbieSize)] *)
Fixpoint checkCollisionIn (σo : Obstacle.store) (refs : list nat)
    (herbieX herbieY herbieSize : Q) : option nat :=
  match refs with
  | [] => None
  | ref :: rest =>
      match σo !! ref with
      | None => checkCollisionIn σo rest herbieX herbieY herbieSize
      | Some obstacle =>
          if Obstacle.cleared obstacle || Obstacle.clearing obstacle then
            checkCollisionIn σo rest herbieX herbieY herbieSize
          else match Obstacle.type obstacle with
          | Obstacle.gap =>
              checkCollisionIn σo rest herbieX herbieY herbieSize
          | _ =>
            let padding := 5 in
            let herbieLeft := herbieX - herbieSize / 2 + padding in
            let herbieRight := herbieX + herbieSize / 2 - padding in
            let herbieTop := herbieY - herbieSize / 2 + padding in
            let herbieBottom := herbieY + herbieSize / 2 - padding in
            let obsLeft := Obstacle.x obstacle in
            let obsRight := Obstacle.x obstacle + Obstacle.width obstacle in
            let obsTop := Obstacle.y obstacle - heightOr 0 obstacle in
            let obsBottom := Obstacle.y obstacle in
            if JS.gt herbieRight obsLeft && JS.lt herbieLeft obsRight
               && JS.gt herbieBottom obsTop && JS.lt herbieTop obsBottom
            then Some ref
            else checkCollisionIn σo rest herbieX herbieY herbieSize
          end
      end
  end.

Definition checkCollision (σo : Obstacle.store) (this : t)
    (herbieX herbieY herbieSize : Q) : option nat :=
  checkCollisionIn σo (obstacles this) herbieX herbieY herbieSize.

(** [hitTest(worldX, worldY)] *)
Fixpoint hitTestIn (σo : Obstacle.store) (refs : list nat)
    (worldX worldY : Q) : option nat :=
  match refs with
  | [] => None
  | ref :: rest =>
      match σo !! ref with
      | None => hitTestIn σo rest worldX worldY
      | Some obstacle =>
          if Obstacle.cleared obstacle || Obstacle.clearing obstacle then
            hitTestIn σo rest worldX worldY
          else
            let hitboxPadding := 20 in
            let left := Obstacle.x obstacle - hitboxPadding in
            let right :=
              Obstacle.x obstacle + Obstacle.width obstacle + hitboxPadding in
            let top :=
              Obstacle.y obstacle - heightOr 20 obstacle - hitboxPadding in
            let bottom := Obstacle.y obstacle + hitboxPadding in
            if JS.ge worldX left && JS.le worldX right
               && JS.ge worldY top && JS.le worldY bottom
            then Some ref
            else hitTestIn σo rest worldX worldY
      end
  end.

Definition hitTest (σo : Obstacle.store) (this : t) (worldX worldY : Q)
  : option nat :=
  hitTestIn σo (obstacles this) worldX worldY.

End ObstacleSystem.

(** ** The state machine (js/game.js, with the parts of js/input.js and
       js/ui.js that its transitions call) *)

Module InputSystem.
Record t : Type := mk { isEnabled : bool }.

(** [enable()] and [disable()]; the listener registration follows the
    flag. *)
Definition enable (this : t) : t :=
  if isEnabled this then this else mk true.

Definition disable (this : t) : t :=
  if negb (isEnabled this) then this else mk false.
End InputSystem.

Module UISystem.
(** [pauseOverlay] is the result of
    [document.getElementById('pause-overlay')]: [None] when the page has
    no such element, otherwise whether its class list holds [hidden]. *)
Record t : Type := mk { pauseOverlay : option bool }.

(** [showPause()]: [this.pauseOverlay.classList.remove('hidden')] *)
Definition showPause (this : t) : option t :=
  _ ← pauseOverlay this; Some (mk (Some false)).

(** [hidePause()]: [this.pauseOverlay.classList.add('hidden')] *)
Definition hidePause (this : t) : option t :=
  _ ← pauseOverlay this; Some (mk (Some true)).
(** [showTitle()] and [showHUD()], as far as the pause overlay goes: both
    run [this.pauseOverlay.classList.add('hidden')]. *)
Definition showTitle (this : t) : option t :=
  _ ← pauseOverlay this; Some (mk (Some true)).

Definition showHUD (this : t) : option t :=
  _ ← pauseOverlay this; Some (mk (Some true)).

(** The best score kept in [localStorage]: [stored] is the number whose
    string the item [herbie-best-score] holds, [None] when there is no
    such item. *)
Definition loadBestScore (stored : option Q) : Q :=
  match stored with
  | Some best => best
  | None => 0
  end.

(** [saveBestScore(score)]: the result and the item afterwards. *)
Definition saveBestScore (stored : option Q) (score : Q)
  : bool * option Q :=
  let currentBest := loadBestScore stored in
  if JS.gt score currentBest then (true, Some score) else (false, stored).
End UISystem.

(** ** Flow feedback (js/palette.js and js/audio.js) *)

Module Palette.
(** [setFlowShift(flowMultiplier)]: the new [flowShift]. *)
Definition setFlowShift (flowMultiplier : JS.number) : JS.number :=
  JS.Math_min 5 (JS.mul_pos (JS.sub_fin flowMultiplier 1.0) 5).
End Palette.

Module AudioSystem.
(** [updateFlow(flowMultiplier)]: the [targetGain] computed for the
    harmonic oscillator at [index], over exact numbers: the source rounds
    the product with 0.05 (at a flow of 3 to just above 0.075). *)
Definition targetGain (flowMultiplier : JS.number) (index : nat) : JS.number :=
  if JS.num_gt flowMultiplier 1.5 then
    JS.Math_min 0.1 (JS.mul_pos (JS.sub_fin flowMultiplier 1.5) 0.05)
  else if JS.num_lt flowMultiplier 1.2 then
    if Nat.eqb index 0 then JS.Fin 0.05 else JS.Fin 0
  else JS.Fin 0.
End AudioSystem.

Module Game.

Inductive gameStateTag : Type := title | playing | paused | gameover.

Definition tag_eqb (a b : gameStateTag) : bool :=
  match a, b with
  | title, title | playing, playing | paused, paused
  | gameover, gameover => true
  | _, _ => false
  end.

(** [this.state], with the two object stores it reaches. *)
Record state : Type := mkState {
  segmentStore : Segment.store;
  obstacleStore : Obstacle.store;
  terrain : Terrain.t;
  hikers : HikerSystem.t;
  obstacles : ObstacleSystem.t;
  distance : Q;
  score : Q;
  flowMultiplier : JS.number;
  lastFlowUpdate : Q;
  runStartX : Q;
  obstaclesCleared : nat
}.

Record t : Type := mk {
  gameState : gameStateTag;
  st : state;
  input : InputSystem.t;
  ui : UISystem.t
}.

(** [pauseGame()]; [None] is an exception raised by a callee. *)
Definition pauseGame (this : t) : option t :=
  if negb (tag_eqb (gameState this) playing) then Some this
  else
    ui1 ← UISystem.showPause (ui this);
    Some (mk paused (st this) (InputSystem.disable (input this)) ui1).

(** [resumeGame()] *)
Definition resumeGame (this : t) : option t :=
  if negb (tag_eqb (gameState this) paused) then Some this
  else
    ui1 ← UISystem.hidePause (ui this);
    Some (mk playing (st this) (InputSystem.enable (input this)) ui1).

(** [this.state] as the constructor builds it. *)
Definition newState : state :=
  {| segmentStore := []; obstacleStore := [];
     terrain := Terrain.new; hikers := HikerSystem.new;
     obstacles := ObstacleSystem.new;
     distance := 0; score := 0; flowMultiplier := JS.Fin 1.0;
     lastFlowUpdate := 0; runStartX := 0; obstaclesCleared := 0 |}.

(** [constructor(canvas)], with the UI as the page gives it. *)
Definition new (ui0 : UISystem.t) : t :=
  mk title newState (InputSystem.mk false) ui0.

(** [init()]: shows the title screen. *)
Definition init (this : t) : option t :=
  ui1 ← UISystem.showTitle (ui this);
  Some (mk (gameState this) (st this) (input this) ui1).

(** [startGame()], with the size of the canvas rectangle as arguments.
    The audio start-up and the HUD texts are outside the model. *)
Definition startGame (this : t) (canvasWidth canvasHeight : Q) : option t :=
  let s := st this in
  let '(σs, terrain1) :=
    Terrain.init (segmentStore s) (terrain s) canvasWidth canvasHeight in
  let hikers1 := HikerSystem.init (hikers s) 200 (canvasHeight * 0.7) in
  let obstacles1 := ObstacleSystem.init (obstacles s) in
  herbie ← HikerSystem.hikers hikers1 !! 0%nat;
  let s1 :=
    {| segmentStore := σs; obstacleStore := obstacleStore s;
       terrain := terrain1;
       hikers := HikerSystem.setHerbieLabel hikers1 6;
       obstacles := obstacles1;
       distance := 0; score := 0; flowMultiplier := JS.Fin 1.0;
       lastFlowUpdate := 0; runStartX := Hiker.x herbie;
       obstaclesCleared := 0 |} in
  ui1 ← UISystem.showHUD (ui this);
  Some (mk playing s1 (InputSystem.enable (input this)) ui1).

(** [endGame()]; the failure sound, the best score and the game-over
    screen are outside the model. *)
Definition endGame (this : t) : t :=
  mk gameover (st this) (InputSystem.disable (input this)) (ui this).

(** The best-score part of [endGame()]: the item afterwards and the best
    score handed to the game-over screen. *)
Definition endGameBest (stored : option Q) (score : Q) : option Q * Q :=
  let bestScore := UISystem.loadBestScore stored in
  let '(isNewRecord, stored1) := UISystem.saveBestScore stored score in
  let displayBest := if isNewRecord : bool then score else bestScore in
  (stored1, displayBest).

(** [showTitle()] *)
Definition showTitle (this : t) : option t :=
  ui1 ← UISystem.showTitle (ui this);
  Some (mk title (st this) (InputSystem.disable (input this)) ui1).

(** [checkFailureConditions()] on [this.state]: whether [endGame()] is
    called. *)
Definition checkFailureConditions (s : state) : option bool :=
  herbie ← HikerSystem.hikers (hikers s) !! 0%nat;
  match ObstacleSystem.checkCollision (obstacleStore s) (obstacles s)
          (Hiker.x herbie) (Hiker.y herbie) (Hiker.size herbie) with
  | Some _ => Some true
  | None =>
      onGround ← HikerSystem.isHerbieOnGround (hikers s) (segmentStore s)
                                              (terrain s);
      if negb onGround then Some true
      else if HikerSystem.isTooStretched (hikers s) then Some true
      else Some false
  end.

(** The part of [update(deltaTime)] that writes [this.state]; [rand] and
    [jitter] are the random numbers of the obstacle update, [now] is
    [performance.now()].  The calls into the palette, the audio and the
    HUD, which only read the state, are outside the model. *)
Definition updateState (s : state) (deltaTime rand jitter now : Q)
  : option state :=
  hikers1 ← HikerSystem.update (hikers s) deltaTime (segmentStore s)
                               (terrain s);
  herbie ← HikerSystem.hikers hikers1 !! 0%nat;
  let herbieX := Hiker.x herbie in
  let distance1 := Qmax 0 (herbieX - runStartX s) in
  let score1 := distance1 / 10 in
  let '(σs1, terrain1) :=
    Terrain.update (segmentStore s) (terrain s) deltaTime distance1
                   (Some herbieX) in
  let '(σs2, σo2, obstacles1) :=
    ObstacleSystem.update σs1 (obstacleStore s) (obstacles s) deltaTime
                          terrain1 distance1 rand jitter in
  flowMultiplier1 ← HikerSystem.getFlowMultiplier hikers1;
  let obstaclesCleared1 := ObstacleSystem.getClearedCount obstacles1 in
  let lastFlowUpdate1 :=
    if JS.gt (now - lastFlowUpdate s) 100 then now else lastFlowUpdate s in
  Some {| segmentStore := σs2; obstacleStore := σo2; terrain := terrain1;
          hikers := hikers1; obstacles := obstacles1;
          distance := distance1; score := score1;
          flowMultiplier := flowMultiplier1;
          lastFlowUpdate := lastFlowUpdate1; runStartX := runStartX s;
          obstaclesCleared := obstaclesCleared1 |}.

(** [update(deltaTime)]: the state update, then the failure checks. *)
Definition update (this : t) (deltaTime rand jitter now : Q) : option t :=
  s1 ← updateState (st this) deltaTime rand jitter now;
  ended ← checkFailureConditions s1;
  let this1 := mk (gameState this) s1 (input this) (ui this) in
  Some (if ended : bool then endGame this1 else this1).

(** The body of [loop()] for one frame, [elapsed] being [now - lastTime] in
    milliseconds: the time step is capped, and the game is updated only
    while playing. *)
Definition frame (this : t) (elapsed rand jitter now : Q) : option t :=
  let deltaTime := Qmin (elapsed / 1000) 0.1 in
  if tag_eqb (gameState this) playing
  then update this deltaTime rand jitter now
  else Some this.

End Game.

(** ** Tap handlers (js/input.js), acting on the game *)

Module Taps.

(** [handleObstacleTap(obstacle, worldX, worldY)]; the tap feedback, the
    sound and the onboarding prompt are outside the model. *)
Definition handleObstacleTap (game : Game.t) (obstacle : nat) (now : Q)
  : option Game.t :=
  let s := Game.st game in
  '(success, (σs, σo, obstacles1)) ←
    ObstacleSystem.clearObstacle (Game.segmentStore s) (Game.obstacleStore s)
                                 (Game.obstacles s) obstacle now;
  let hikers1 :=
    if success : bool then HikerSystem.triggerPulse (Game.hikers s)
    else Game.hikers s in
  Some (Game.mk (Game.gameState game)
          (Game.mkState σs σo (Game.terrain s) hikers1 obstacles1
             (Game.distance s) (Game.score s) (Game.flowMultiplier s)
             (Game.lastFlowUpdate s) (Game.runStartX s)
             (Game.obstaclesCleared s))
          (Game.input game) (Game.ui game)).

(** [handleHikerTap(hikerIndex)] *)
Definition handleHikerTap (game : Game.t) (hikerIndex : nat)
  : option Game.t :=
  let s := Game.st game in
  hikers1 ← HikerSystem.offloadHiker (Game.hikers s) hikerIndex;
  Some (Game.mk (Game.gameState game)
          (Game.mkState (Game.segmentStore s) (Game.obstacleStore s)
             (Game.terrain s) hikers1 (Game.obstacles s)
             (Game.distance s) (Game.score s) (Game.flowMultiplier s)
             (Game.lastFlowUpdate s) (Game.runStartX s)
             (Game.obstaclesCleared s))
          (Game.input game) (Game.ui game)).

(** [Math.sqrt(Math.pow(dx, 2) + Math.pow(dy, 2)) < hitRadius] on exact
    numbers: the radius is positive and the squared distance is below its
    square. *)
Definition within (dx dy hitRadius : Q) : bool :=
  JS.lt 0 hitRadius && JS.lt (dx * dx + dy * dy) (hitRadius * hitRadius).

(** [hitTestHikers(worldX, worldY)], the loop from index [i] on. *)
Fixpoint hitTestHikersFrom (i : nat) (hikers : list Hiker.t)
    (worldX worldY : Q) : option nat :=
  match hikers with
  | [] => None
  | hiker :: rest =>
      let hitRadius := Hiker.size hiker + 20 in
      if within (worldX - Hiker.x hiker) (worldY - Hiker.y hiker) hitRadius
      then Some i
      else hitTestHikersFrom (S i) rest worldX worldY
  end.

Definition hitTestHikers (game : Game.t) (worldX worldY : Q) : option nat :=
  hitTestHikersFrom 0 (HikerSystem.hikers (Game.hikers (Game.st game)))
                    worldX worldY.

(** [handlePointerDown(event)], with the canvas-relative coordinates of
    the event as arguments: obstacles are tested first, then hikers. *)
Definition handlePointerDown (game : Game.t) (canvasX canvasY now : Q)
  : option Game.t :=
  let s := Game.st game in
  let worldX := canvasX + Terrain.cameraX (Game.terrain s) in
  let worldY := canvasY in
  match ObstacleSystem.hitTest (Game.obstacleStore s) (Game.obstacles s)
          worldX worldY with
  | Some hitObstacle => handleObstacleTap game hitObstacle now
  | None =>
      match hitTestHikers game worldX worldY with
      | Some hitHiker => handleHikerTap game hitHiker
      | None => Some game
      end
  end.

End Taps.

(** * Specification-side definitions *)

(** ** The caravan *)

(** The [forEach] of [HikerSystem.update] read as a recursion along the
    array: each hiker is stepped against the already stepped hiker ahead. *)
Fixpoint walk (this : HikerSystem.t) (deltaTime : Q) (σ : Segment.store)
    (terrain : Terrain.t) (herbieSpeed : Q) (ahead : option Hiker.t)
    (hs : list Hiker.t) : list Hiker.t :=
  match hs with
  | [] => []
  | hiker :: rest =>
      let hiker1 :=
        HikerSystem.stepHiker this deltaTime σ terrain herbieSpeed ahead hiker in
      hiker1 :: walk this deltaTime σ terrain herbieSpeed (Some hiker1) rest
  end.

(** Positions strictly decrease along the list: nobody has overtaken. *)
Fixpoint descending (xs : list Q) : Prop :=
  match xs with
  | a :: (b :: _) as rest => b < a /\ descending rest
  | _ => True
  end.

(** Base speeds lie within the ramp of [init]; boosts within the two
    values [offloadHiker] writes. *)
Definition tuned (h : Hiker.t) : Prop :=
  1 <= Hiker.baseSpeed h <= 1.6 /\ -0.2 <= Hiker.offloadBoost h <= 0.4.

(** The states of a run: [init], then any interleaving of ticks whose time
    step is within the clamp of the game loop, of taps on hikers, of pulses,
    of label resets and of restarts. *)
Inductive reachable : HikerSystem.t -> Prop :=
| reach_init startX startY :
    reachable (HikerSystem.init HikerSystem.new startX startY)
| reach_restart this startX startY :
    reachable this -> reachable (HikerSystem.init this startX startY)
| reach_update this deltaTime σ terrain this' :
    reachable this ->
    0 < deltaTime <= 0.1 ->
    HikerSystem.update this deltaTime σ terrain = Some this' ->
    reachable this'
| reach_offload this hikerIndex this' :
    reachable this ->
    HikerSystem.offloadHiker this hikerIndex = Some this' ->
    reachable this'
| reach_pulse this :
    reachable this -> reachable (HikerSystem.triggerPulse this)
| reach_label this seconds :
    reachable this -> reachable (HikerSystem.setHerbieLabel this seconds).

(** The invariant carried along a run. *)
Record caravan_inv (this : HikerSystem.t) : Prop := {
  inv_spacing : HikerSystem.spacing this = 60;
  inv_herbie : HikerSystem.herbieIndex this = 0%nat;
  inv_count : length (HikerSystem.hikers this) = 5%nat;
  inv_tuned : Forall tuned (HikerSystem.hikers this);
  inv_order : descending (map Hiker.x (HikerSystem.hikers this))
}.

(** Adjacent spacings, front to back, and their sum. *)
Fixpoint spacings (hs : list Hiker.t) : list Q :=
  match hs with
  | a :: (b :: _) as rest => (Hiker.x a - Hiker.x b) :: spacings rest
  | _ => []
  end.

Definition Qsum (l : list Q) : Q := foldr Qplus 0 l.

(** [clamp(v, lo, hi)] of the specification. *)
Definition clamp (v lo hi : Q) : Q := Qmin hi (Qmax lo v).

(** A run of [n] ticks of the same length over a fixed terrain. *)
Fixpoint ticks (n : nat) (deltaTime : Q) (σ : Segment.store)
    (terrain : Terrain.t) (this : HikerSystem.t) : option HikerSystem.t :=
  match n with
  | O => Some this
  | S n' =>
      this1 ← HikerSystem.update this deltaTime σ terrain;
      ticks n' deltaTime σ terrain this1
  end.

(** A run in which the hiker at [hikerIndex] is tapped before each of [n]
    ticks. *)
Fixpoint tappedTicks (n : nat) (hikerIndex : nat) (deltaTime : Q)
    (σ : Segment.store) (terrain : Terrain.t) (this : HikerSystem.t)
  : option HikerSystem.t :=
  match n with
  | O => Some this
  | S n' =>
      this1 ← HikerSystem.offloadHiker this hikerIndex;
      this2 ← HikerSystem.update this1 deltaTime σ terrain;
      tappedTicks n' hikerIndex deltaTime σ terrain this2
  end.

(** The start of a run on an 800 by 600 canvas, as [startGame] builds it. *)
Definition world0 : Segment.store * Terrain.t :=
  Terrain.init [] Terrain.new 800 600.

Definition caravan0 : HikerSystem.t :=
  HikerSystem.init HikerSystem.new 200 (600 * 0.7).

(** The caravan at the start of the fifth tick of a run in which hiker 1 is
    tapped before every tick of 0.1 s: four taps and ticks, then the fifth
    tap. *)
Definition fifthTick : option HikerSystem.t :=
  this4 ← tappedTicks 4 1 0.1 world0.1 world0.2 caravan0;
  HikerSystem.offloadHiker this4 1.

(** The positions of a stretch of the caravan, headed by the position of
    the hiker just ahead of it when there is one. *)
Definition front (ahead : option Hiker.t) (hs : list Hiker.t) : list Q :=
  match ahead with
  | Some a => Hiker.x a :: map Hiker.x hs
  | None => map Hiker.x hs
  end.

(** [ahead'] is [ahead] after its move of the tick: it has not gone back. *)
Definition advanced (ahead ahead' : option Hiker.t) : Prop :=
  match ahead, ahead' with
  | Some a, Some a' => Hiker.x a <= Hiker.x a'
  | None, None => True
  | _, _ => False
  end.

(** ** Terrain and obstacles *)

(** The part of [this.state] that the terrain and the obstacle system
    share: the two object stores and the two systems. *)
Record World : Type := mkWorld {
  segs : list Segment.t;
  obss : list Obstacle.t;
  terr : Terrain.t;
  osys : ObstacleSystem.t
}.

(** The world the constructor of [Game] builds. *)
Definition newWorld : World :=
  mkWorld [] [] Terrain.new ObstacleSystem.new.

(** The terrain and obstacle part of [startGame()]: both systems are
    initialised again; objects of an earlier run stay in the stores. *)
Definition startGame (w : World) (canvasWidth canvasHeight : Q) : World :=
  let '(σs, terrain) :=
    Terrain.init (segs w) (terr w) canvasWidth canvasHeight in
  mkWorld σs (obss w) terrain (ObstacleSystem.init (osys w)).

Definition terrainUpdate (w : World) (deltaTime distance : Q)
    (herbieX : option Q) : World :=
  let '(σs, terrain) :=
    Terrain.update (segs w) (terr w) deltaTime distance herbieX in
  mkWorld σs (obss w) terrain (osys w).

Definition obstaclesUpdate (w : World) (deltaTime distance rand jitter : Q)
  : World :=
  let '(σs, σo, this) :=
    ObstacleSystem.update (segs w) (obss w) (osys w) deltaTime (terr w)
      distance rand jitter in
  mkWorld σs σo (terr w) this.

Definition tapObstacle (w : World) (ref : nat) (now : Q)
  : option (bool * World) :=
  '(hit, (σs, σo, this)) ←
    ObstacleSystem.clearObstacle (segs w) (obss w) (osys w) ref now;
  Some (hit, mkWorld σs σo (terr w) this).

(** The worlds of a run: a start, then any interleaving of terrain
    updates, obstacle updates, taps on obstacles and restarts.  The index
    is the number of segment objects that existed when the current run
    started: the segments of the run are the ones the store holds from
    that reference on. *)
Inductive run : nat -> World -> Prop :=
| run_start canvasWidth canvasHeight :
    run 0 (startGame newWorld canvasWidth canvasHeight)
| run_restart n w canvasWidth canvasHeight :
    run n w -> run (length (segs w)) (startGame w canvasWidth canvasHeight)
| run_terrain n w deltaTime distance herbieX :
    run n w -> run n (terrainUpdate w deltaTime distance herbieX)
| run_obstacles n w deltaTime distance rand jitter :
    run n w -> run n (obstaclesUpdate w deltaTime distance rand jitter)
| run_tap n w ref now hit w' :
    run n w -> tapObstacle w ref now = Some (hit, w') -> run n w'.

(** A strip of ground: the segments behind [refs] have the height [level]
    and the width 150, the first starts at [first], each next one where the
    previous one ends, and the last one ends at [next]. *)
Fixpoint strip (σ : list Segment.t) (level : Q) (refs : list nat)
    (first next : Q) : Prop :=
  match refs with
  | [] => first = next
  | r :: rest =>
      exists seg,
        σ !! r = Some seg
        /\ Segment.x seg = first
        /\ Segment.y seg = level
        /\ Segment.width seg = 150
        /\ strip σ level rest (first + 150) next
  end.

(** The invariant of the terrain in a run whose segments are the ones
    from reference [n] on: they form, in the order of their creation, one
    strip from 0 to the generation edge, and the array of the terrain is
    what is left of them after some have been recycled. *)
Record terrain_inv (n : nat) (σ : list Segment.t) (this : Terrain.t)
  : Prop := {
  tinv_width : Terrain.segmentWidth this = 150;
  tinv_level : Terrain.baseY this = Terrain.canvasHeight this * 0.7;
  tinv_base : (n <= length σ)%nat;
  tinv_all :
    strip σ (Terrain.baseY this) (seq n (length σ - n)) 0
          (Terrain.nextSegmentX this);
  tinv_window :
    exists k,
      (k <= length σ - n)%nat
      /\ Terrain.segments this = drop k (seq n (length σ - n))
}.

(** A gap obstacle that has not been tapped and points to segment [r]. *)
Definition untappedGapOn (σo : list Obstacle.t) (r : nat) : Prop :=
  exists ref obstacle,
    σo !! ref = Some obstacle
    /\ Obstacle.type obstacle = Obstacle.gap
    /\ Obstacle.segment obstacle = Some r
    /\ Obstacle.clearing obstacle = false
    /\ Obstacle.cleared obstacle = false.

(** Every gapped segment is owned by an untapped gap obstacle. *)
Definition gaps_owned (σs : list Segment.t) (σo : list Obstacle.t) : Prop :=
  forall r seg,
    σs !! r = Some seg -> Segment.hasGap seg = true -> untappedGapOn σo r.

(** What a store of obstacles may become while none is tapped: objects are
    only added, and an object keeps its type, its segment and its clearing
    flag, and its cleared flag if it is not clearing. *)
Definition aged (σo σo' : list Obstacle.t) : Prop :=
  forall ref obstacle,
    σo !! ref = Some obstacle ->
    exists obstacle',
      σo' !! ref = Some obstacle'
      /\ Obstacle.type obstacle' = Obstacle.type obstacle
      /\ Obstacle.segment obstacle' = Obstacle.segment obstacle
      /\ Obstacle.clearing obstacle' = Obstacle.clearing obstacle
      /\ (Obstacle.clearing obstacle = false ->
          Obstacle.cleared obstacle' = Obstacle.cleared obstacle).

(** [σ'] is [σ] up to the gap flag of one segment. *)
Definition reflagged (σ σ' : list Segment.t) : Prop :=
  σ' = σ \/ exists b r, σ' = alter (Segment.set_hasGap b) r σ.

(** [σ'] is [σ] followed by new segments without a gap. *)
Definition extended (σ σ' : list Segment.t) : Prop :=
  exists fresh,
    σ' = σ ++ fresh /\ Forall (fun seg => Segment.hasGap seg = false) fresh.

(** The start of a run on an 800 by 600 canvas, and the world after a gap
    has been spawned at distance 500 on the segment at 900. *)
Definition startWorld : World := startGame newWorld 800 600.

Definition gapSpawned : World := obstaclesUpdate startWorld 0.016 500 0.8 0.5.

(** The first terrain update of a run, Herbie being at 210. *)
Definition firstScroll : World := terrainUpdate startWorld 0.1 10 (Some 210).

(** A hiker standing at [x], with the fields [init] gives. *)
Definition hikerAt (index : nat) (baseSpeed x : Q) : Hiker.t :=
  {| Hiker.index := index; Hiker.baseSpeed := baseSpeed;
     Hiker.currentSpeed := baseSpeed; Hiker.x := x; Hiker.y := 420;
     Hiker.targetY := 420; Hiker.vx := 0; Hiker.vy := 0; Hiker.size := 16;
     Hiker.glowRadius := if Nat.eqb index 0 then 16 else 10;
     Hiker.isWaiting := false; Hiker.offloadBoost := 0;
     Hiker.pulseTime := 0 |}.

(** Herbie at 200 and one follower 150 behind. *)
Definition farPair : HikerSystem.t :=
  HikerSystem.set_hikers [hikerAt 0 1.0 200; hikerAt 1 1.15 50]
                         HikerSystem.new.

(** Adjacent positions are exactly the target spacing apart. *)
Fixpoint evenly (xs : list Q) : Prop :=
  match xs with
  | a :: (b :: _) as rest => a - b == 60 /\ evenly rest
  | _ => True
  end.

(** A hiker without boost, not slower than Herbie's base speed, who is not
    waiting. *)
Definition calm (h : Hiker.t) : Prop :=
  Hiker.offloadBoost h == 0 /\ 1 <= Hiker.baseSpeed h
  /\ Hiker.isWaiting h = false.

(** A run without taps: [init], then ticks, pulses and label resets. *)
Inductive untapped : HikerSystem.t -> Prop :=
| untapped_init this startX startY :
    HikerSystem.spacing this = 60 ->
    HikerSystem.herbieIndex this = 0%nat ->
    HikerSystem.maxStretch this = 220 ->
    untapped (HikerSystem.init this startX startY)
| untapped_update this deltaTime σ terrain this' :
    untapped this ->
    0 < deltaTime <= 0.1 ->
    HikerSystem.update this deltaTime σ terrain = Some this' ->
    untapped this'
| untapped_pulse this :
    untapped this -> untapped (HikerSystem.triggerPulse this)
| untapped_label this seconds :
    untapped this -> untapped (HikerSystem.setHerbieLabel this seconds).

Record formation (this : HikerSystem.t) : Prop := {
  form_spacing : HikerSystem.spacing this = 60;
  form_herbie : HikerSystem.herbieIndex this = 0%nat;
  form_stretch : HikerSystem.maxStretch this = 220;
  form_count : length (HikerSystem.hikers this) = 5%nat;
  form_leader :
    exists herbie, HikerSystem.hikers this !! 0%nat = Some herbie
                   /\ Hiker.baseSpeed herbie == 1;
  form_calm : Forall calm (HikerSystem.hikers this);
  form_even : evenly (map Hiker.x (HikerSystem.hikers this))
}.

(** [ahead'] is [ahead] moved by [move]. *)
Definition shifted (move : Q) (ahead ahead' : option Hiker.t) : Prop :=
  match ahead, ahead' with
  | Some a, Some a' => Hiker.x a' == Hiker.x a + move
  | None, None => True
  | _, _ => False
  end.

(** A boost that is neutral or outside the band in which decay snaps it to
    zero. *)
Definition settled (b : Q) : Prop := b == 0 \/ 0.01 <= Qabs b.

(** Where the object literals of [spawnObstacle] put an obstacle, [level]
    being the height of the ground: a gap lies in the ground, the anchor of
    a wall, a platform or a barrier is its own height above the ground. *)
Definition anchored (level : Q) (o : Obstacle.t) : Prop :=
  match Obstacle.type o with
  | Obstacle.gap => Obstacle.y o = level /\ Obstacle.height o = 20
  | Obstacle.wall =>
      Obstacle.y o = level - 60 /\ Obstacle.height o = 60
      /\ Obstacle.width o = 30
  | Obstacle.platform =>
      Obstacle.y o = level - 50 /\ Obstacle.height o = 50
      /\ Obstacle.width o = 80
  | Obstacle.barrier =>
      Obstacle.y o = level - 80 /\ Obstacle.height o = 80
      /\ Obstacle.width o = 20
  end.

(** The state of the clearing animation of an obstacle object: progress
    starts with the tap, and reaching 1 marks the object as cleared. *)
Definition good (level : Q) (o : Obstacle.t) : Prop :=
  anchored level o
  /\ (Obstacle.clearing o = false ->
      Obstacle.cleared o = false /\ Obstacle.clearProgress o = 0)
  /\ (Obstacle.cleared o = false -> Obstacle.clearProgress o < 1).

Definition array_good (level : Q) (σo : list Obstacle.t) (refs : list nat)
  : Prop :=
  Forall (fun ref => exists o, σo !! ref = Some o /\ good level o) refs.

Definition array_live (level : Q) (σo : list Obstacle.t) (refs : list nat)
  : Prop :=
  Forall (fun ref => exists o, σo !! ref = Some o /\ good level o
                               /\ Obstacle.cleared o = false) refs.

(** ** The game *)

(** The part of the game state that the terrain and the obstacles share. *)
Definition worldOf (s : Game.state) : World :=
  mkWorld (Game.segmentStore s) (Game.obstacleStore s) (Game.terrain s)
          (Game.obstacles s).

(** The games that have been started: a first [startGame()] on the game
    the constructor builds (whatever the page looks like), then frames of
    the loop with time passing between them, the buttons (pause, resume,
    menu, retry) and, while the input is enabled, taps on the canvas. *)
Inductive played : Game.t -> Prop :=
| played_start ui0 canvasWidth canvasHeight g :
    0 < canvasWidth ->
    Game.startGame (Game.new ui0) canvasWidth canvasHeight = Some g ->
    played g
| played_restart g canvasWidth canvasHeight g' :
    played g ->
    0 < canvasWidth ->
    Game.startGame g canvasWidth canvasHeight = Some g' ->
    played g'
| played_frame g elapsed rand jitter now g' :
    played g ->
    0 < elapsed ->
    Game.frame g elapsed rand jitter now = Some g' ->
    played g'
| played_pause g g' :
    played g -> Game.pauseGame g = Some g' -> played g'
| played_resume g g' :
    played g -> Game.resumeGame g = Some g' -> played g'
| played_title g g' :
    played g -> Game.showTitle g = Some g' -> played g'
| played_tap g canvasX canvasY now g' :
    played g ->
    InputSystem.isEnabled (Game.input g) = true ->
    Taps.handlePointerDown g canvasX canvasY now = Some g' ->
    played g'.

(** A hiker walking on ground of height [level]. *)
Definition grounded (level : Q) (h : Hiker.t) : Prop :=
  Hiker.y h == level /\ Hiker.targetY h == level /\ Hiker.size h = 16.

(** The invariant of the state of a started game. *)
Record game_inv (s : Game.state) : Prop := {
  gi_run : exists n, run n (worldOf s);
  gi_reach : reachable (Game.hikers s);
  gi_level :
    Forall (grounded (Terrain.baseY (Game.terrain s)))
           (HikerSystem.hikers (Game.hikers s));
  gi_width : 0 < Terrain.canvasWidth (Game.terrain s);
  gi_herbie :
    exists herbie first,
      HikerSystem.hikers (Game.hikers s) !! 0%nat = Some herbie
      /\ 0 <= Hiker.x herbie
      /\ 0 <= Terrain.cameraX (Game.terrain s)
      /\ Terrain.cameraX (Game.terrain s)
         <= Qmax 0 (Hiker.x herbie
                    - Terrain.canvasWidth (Game.terrain s) * 0.3)
      /\ Hiker.x herbie - Terrain.canvasWidth (Game.terrain s) * 0.3
         - Terrain.cameraX (Game.terrain s) <= 200
      /\ Hiker.x herbie < Terrain.nextSegmentX (Game.terrain s)
      /\ strip (Game.segmentStore s) (Terrain.baseY (Game.terrain s))
               (Terrain.segments (Game.terrain s)) first
               (Terrain.nextSegmentX (Game.terrain s))
      /\ first <= Qmax 0 (Terrain.cameraX (Game.terrain s) - 100)
      /\ Game.distance s == Qmax 0 (Hiker.x herbie - Game.runStartX s)
      /\ Game.score s == Game.distance s / 10
}.

(** The games whose input and pause overlay agree with the state
    machine. *)
Definition consistent (g : Game.t) : Prop :=
  (InputSystem.isEnabled (Game.input g) = true
   <-> Game.gameState g = Game.playing)
  /\ UISystem.pauseOverlay (Game.ui g)
     = Some (negb (Game.tag_eqb (Game.gameState g) Game.paused)).

(** Two hikers at the same place, with the same size. *)
Definition same_place (h h' : Hiker.t) : Prop :=
  Hiker.x h' = Hiker.x h /\ Hiker.y h' = Hiker.y h
  /\ Hiker.targetY h' = Hiker.targetY h /\ Hiker.size h' = Hiker.size h.

(** A page whose pause overlay starts hidden, and the first game started
    on it with an 800 by 600 canvas. *)
Definition page : UISystem.t := UISystem.mk (Some true).

Definition firstGame : Game.t :=
  default (Game.new page) (Game.startGame (Game.new page) 800 600).

(** The first obstacle of a run on an 800 by 600 canvas when the random
    number is 0.3: a wall on the segment at 900. *)
Definition wallSpawned : World := obstaclesUpdate startWorld 0.016 500 0.3 0.5.

(** The best-score item after a series of games that ended with the
    given scores. *)
Definition gameOvers (stored : option Q) (scores : list Q) : option Q :=
  foldl (fun stored score => (Game.endGameBest stored score).1) stored scores.

(** The started games in which the canvas is never tapped. *)
Inductive watched : Game.t -> Prop :=
| watched_start ui0 canvasWidth canvasHeight g :
    0 < canvasWidth ->
    Game.startGame (Game.new ui0) canvasWidth canvasHeight = Some g ->
    watched g
| watched_restart g canvasWidth canvasHeight g' :
    watched g ->
    0 < canvasWidth ->
    Game.startGame g canvasWidth canvasHeight = Some g' ->
    watched g'
| watched_frame g elapsed rand jitter now g' :
    watched g ->
    0 < elapsed ->
    Game.frame g elapsed rand jitter now = Some g' ->
    watched g'
| watched_pause g g' :
    watched g -> Game.pauseGame g = Some g' -> watched g'
| watched_resume g g' :
    watched g -> Game.resumeGame g = Some g' -> watched g'
| watched_title g g' :
    watched g -> Game.showTitle g = Some g' -> watched g'.

(** ** Gap flags in a started game *)





(** * Properties *)

(** ** Comparisons *)

Lemma lt_true a b : JS.lt a b = true <-> a < b.
Proof.
  unfold JS.lt. rewrite negb_true_iff, <- not_true_iff_false, Qle_bool_iff.
  split; [apply Qnot_le_lt | apply Qlt_not_le].
Qed.

Lemma lt_false a b : JS.lt a b = false <-> b <= a.
Proof.
  unfold JS.lt. rewrite negb_false_iff, Qle_bool_iff. reflexivity.
Qed.

Lemma gt_true a b : JS.gt a b = true <-> b < a.
Proof. apply lt_true. Qed.

Lemma gt_false a b : JS.gt a b = false <-> a <= b.
Proof. apply lt_false. Qed.

Lemma ge_true a b : JS.ge a b = true <-> b <= a.
Proof. apply Qle_bool_iff. Qed.

Lemma ge_false a b : JS.ge a b = false <-> a < b.
Proof.
  unfold JS.ge. rewrite <- not_true_iff_false, Qle_bool_iff.
  split; [apply Qnot_le_lt | apply Qlt_not_le].
Qed.

Lemma neq_true a b : JS.neq a b = true <-> ~ a == b.
Proof.
  unfold JS.neq. rewrite negb_true_iff, <- not_true_iff_false, Qeq_bool_iff.
  reflexivity.
Qed.

Lemma neq_false a b : JS.neq a b = false <-> a == b.
Proof. unfold JS.neq. rewrite negb_false_iff, Qeq_bool_iff. reflexivity. Qed.

(** Case analysis on a comparison of the source, keeping the fact. *)
Ltac js_case c :=
  let E := fresh "E" in
  destruct c eqn:E;
  [ first [ apply lt_true in E | apply gt_true in E | apply ge_true in E
          | apply neq_true in E ]
  | first [ apply lt_false in E | apply gt_false in E | apply ge_false in E
          | apply neq_false in E ] ].

(** ** The [forEach] of [update] as a walk along the caravan *)

Section Walk.
Variables (this : HikerSystem.t) (deltaTime : Q) (σ : Segment.store)
          (terrain : Terrain.t) (herbieSpeed : Q).

Let body := HikerSystem.forEachBody this deltaTime σ terrain herbieSpeed.
Let step := HikerSystem.stepHiker this deltaTime σ terrain herbieSpeed.
Let walk' := walk this deltaTime σ terrain herbieSpeed.

Lemma body_at (done : list Hiker.t) (hiker : Hiker.t) (rest : list Hiker.t) :
  body (done ++ hiker :: rest) (length done)
  = Some ((done ++ [step (last done) hiker]) ++ rest).
Proof.
  assert (Hins : forall h1, <[length done := h1]> (done ++ hiker :: rest)
                            = (done ++ [h1]) ++ rest).
  { intros h1. rewrite insert_app_r_alt by lia.
    rewrite Nat.sub_diag. cbn. by rewrite <- app_assoc. }
  unfold body, HikerSystem.forEachBody.
  rewrite (list_lookup_middle done rest hiker (length done) eq_refl).
  cbn [mbind option_bind].
  destruct done as [|d done' _] using rev_ind.
  - cbn [length Nat.ltb Nat.leb last]. apply f_equal, Hins.
  - rewrite last_snoc.
    assert (Hpos : (0 <? length (done' ++ [d]))%nat = true).
    { apply Nat.ltb_lt. rewrite length_app. cbn. lia. }
    assert (Hprev : ((done' ++ [d]) ++ hiker :: rest)
                      !! (length (done' ++ [d]) - 1)%nat = Some d).
    { rewrite <- app_assoc. cbn [app]. apply list_lookup_middle.
      rewrite length_app. cbn. lia. }
    rewrite Hpos, Hprev. cbn [mbind option_bind]. apply f_equal, Hins.
Qed.

Lemma forEach_walk (rest done : list Hiker.t) :
  HikerSystem.forEach body (seq (length done) (length rest)) (done ++ rest)
  = Some (done ++ walk' (last done) rest).
Proof.
  revert done. induction rest as [|hiker rest IH]; intros done.
  - reflexivity.
  - cbn [length seq HikerSystem.forEach].
    rewrite body_at. cbn [mbind option_bind].
    specialize (IH (done ++ [step (last done) hiker])).
    rewrite length_app, Nat.add_1_r in IH. rewrite IH.
    rewrite last_snoc, <- app_assoc. reflexivity.
Qed.

Lemma walk_length ahead hs : length (walk' ahead hs) = length hs.
Proof.
  unfold walk'. revert ahead. induction hs as [|h hs IH]; intros ahead;
    [reflexivity | cbn; by rewrite IH].
Qed.

Lemma walk_lookup_0 ahead hs hiker :
  hs !! 0%nat = Some hiker ->
  walk' ahead hs !! 0%nat = Some (step ahead hiker).
Proof.
  unfold walk'. destruct hs as [|h hs]; [discriminate |].
  cbn. intros [= ->]. reflexivity.
Qed.

Lemma walk_lookup_S ahead hs i hiker :
  hs !! S i = Some hiker ->
  exists ahead1,
    walk' ahead hs !! i = Some ahead1
    /\ walk' ahead hs !! S i = Some (step (Some ahead1) hiker).
Proof.
  unfold walk'. revert ahead hs. induction i as [|i IH]; intros ahead hs Hl.
  - destruct hs as [|a [|b hs]]; try discriminate.
    cbn in Hl. injection Hl as ->. eexists. split; reflexivity.
  - destruct hs as [|a hs]; [discriminate |].
    cbn in Hl. destruct (IH (Some (step ahead a)) hs Hl) as (a1 & H1 & H2).
    exists a1. split; assumption.
Qed.

End Walk.

Lemma update_walk this deltaTime σ terrain :
  HikerSystem.update this deltaTime σ terrain
  = herbie ← HikerSystem.hikers this !! HikerSystem.herbieIndex this;
    Some (HikerSystem.mk
            (walk this deltaTime σ terrain
               (Hiker.baseSpeed herbie + Hiker.offloadBoost herbie) None
               (HikerSystem.hikers this))
            (HikerSystem.herbieIndex this) (HikerSystem.spacing this)
            (HikerSystem.maxStretch this)
            (Qmax 0 (HikerSystem.herbieLabelTime this - deltaTime))).
Proof.
  unfold HikerSystem.update.
  destruct (HikerSystem.hikers this !! HikerSystem.herbieIndex this)
    as [herbie|]; [|reflexivity].
  cbn [mbind option_bind].
  pose proof (forEach_walk this deltaTime σ terrain
                (Hiker.baseSpeed herbie + Hiker.offloadBoost herbie)
                (HikerSystem.hikers this) []) as H.
  cbn [length app last] in H. rewrite H. reflexivity.
Qed.

(** ** Fields of a stepped hiker *)

Section StepFields.
Variables (this : HikerSystem.t) (deltaTime : Q) (σ : Segment.store)
          (terrain : Terrain.t) (herbieSpeed : Q)
          (ahead : option Hiker.t) (hiker : Hiker.t).

Let hiker1 :=
  HikerSystem.stepHiker this deltaTime σ terrain herbieSpeed ahead hiker.

Lemma step_isWaiting :
  Hiker.isWaiting hiker1 = (HikerSystem.pace this herbieSpeed ahead hiker).1.
Proof.
  unfold hiker1, HikerSystem.stepHiker.
  by destruct (HikerSystem.pace this herbieSpeed ahead hiker).
Qed.

Lemma step_currentSpeed :
  Hiker.currentSpeed hiker1
  = (HikerSystem.pace this herbieSpeed ahead hiker).2.
Proof.
  unfold hiker1, HikerSystem.stepHiker.
  by destruct (HikerSystem.pace this herbieSpeed ahead hiker).
Qed.

Lemma step_x :
  Hiker.x hiker1
  = Hiker.x hiker
    + (HikerSystem.pace this herbieSpeed ahead hiker).2 * 100 * deltaTime.
Proof.
  unfold hiker1, HikerSystem.stepHiker.
  by destruct (HikerSystem.pace this herbieSpeed ahead hiker).
Qed.

Lemma step_baseSpeed : Hiker.baseSpeed hiker1 = Hiker.baseSpeed hiker.
Proof.
  unfold hiker1, HikerSystem.stepHiker.
  by destruct (HikerSystem.pace this herbieSpeed ahead hiker).
Qed.

Lemma step_offloadBoost :
  Hiker.offloadBoost hiker1
  = HikerSystem.decay deltaTime (Hiker.offloadBoost hiker).
Proof.
  unfold hiker1, HikerSystem.stepHiker.
  by destruct (HikerSystem.pace this herbieSpeed ahead hiker).
Qed.
End StepFields.

(** ** The speed rule *)

(** C2. In a tick of [update] (target spacing 60, Herbie at index 0) the
    hiker at index 0 gets [currentSpeed = baseSpeed + offloadBoost] and is
    not waiting.  A follower at index [i+1] is paced on
    [gap = x(i) - x(i+1)], where [x(i)] is the position the array holds when
    the follower is processed, that is the position of the hiker ahead
    after its own move of this tick, and on
    [targetSpeed = min(baseSpeed + offloadBoost, leaderSpeed)]:
    [gap < 0.8 * 60] gives waiting and [max(0, targetSpeed * gap / 60)];
    [gap > 1.5 * 60] gives not waiting and [baseSpeed * 1.2];
    otherwise not waiting and [targetSpeed]. *)
Theorem follower_speed_rule this deltaTime σ terrain this' herbie :
  HikerSystem.spacing this = 60 ->
  HikerSystem.herbieIndex this = 0%nat ->
  HikerSystem.update this deltaTime σ terrain = Some this' ->
  HikerSystem.hikers this !! 0%nat = Some herbie ->
  let leaderSpeed := Hiker.baseSpeed herbie + Hiker.offloadBoost herbie in
  (exists herbie',
      HikerSystem.hikers this' !! 0%nat = Some herbie'
      /\ Hiker.currentSpeed herbie' = leaderSpeed
      /\ Hiker.isWaiting herbie' = false)
  /\ forall i hiker ahead',
      HikerSystem.hikers this !! S i = Some hiker ->
      HikerSystem.hikers this' !! i = Some ahead' ->
      exists hiker',
        HikerSystem.hikers this' !! S i = Some hiker'
        /\ let gap := Hiker.x ahead' - Hiker.x hiker in
           let targetSpeed :=
             Qmin (Hiker.baseSpeed hiker + Hiker.offloadBoost hiker)
                  leaderSpeed in
           (gap < 0.8 * 60 ->
              Hiker.isWaiting hiker' = true
              /\ Hiker.currentSpeed hiker' == Qmax 0 (targetSpeed * (gap / 60)))
           /\ (1.5 * 60 < gap ->
              Hiker.isWaiting hiker' = false
              /\ Hiker.currentSpeed hiker' == Hiker.baseSpeed hiker * 1.2)
           /\ (0.8 * 60 <= gap <= 1.5 * 60 ->
              Hiker.isWaiting hiker' = false
              /\ Hiker.currentSpeed hiker' == targetSpeed).
Proof.
  intros Hsp Hidx Hup Hherbie leaderSpeed.
  rewrite update_walk, Hidx, Hherbie in Hup. cbn [mbind option_bind] in Hup.
  injection Hup as <-. cbn [HikerSystem.hikers]. split.
  - eexists. split; [by apply walk_lookup_0 |].
    rewrite step_currentSpeed, step_isWaiting. by split.
  - intros i hiker ahead' Hhiker Hahead.
    destruct (walk_lookup_S this deltaTime σ terrain leaderSpeed None _ _ _
                Hhiker) as (ahead1 & H1 & H2).
    fold leaderSpeed in Hahead. rewrite H1 in Hahead. injection Hahead as ->.
    eexists. split; [exact H2 |].
    rewrite step_currentSpeed, step_isWaiting.
    unfold HikerSystem.pace. rewrite Hsp. cbn zeta.
    js_case (JS.lt (Hiker.x ahead' - Hiker.x hiker) (60 * 0.8)).
    + cbn [fst snd]. repeat split; try reflexivity; intros; exfalso; lra.
    + js_case (JS.gt (Hiker.x ahead' - Hiker.x hiker) (60 * 1.5));
        cbn [fst snd]; repeat split; try reflexivity; intros; exfalso; lra.
Qed.

(** The rule applied to the first tick of a run, of 0.1 s: Herbie moves
    from 200 to 210, the follower at 140 sees a gap of 70, within the band,
    and walks at [min(1.15, 1.0) = 1.0] without waiting. *)
Lemma follower_speed_rule_witness :
  exists this' hiker',
    HikerSystem.update caravan0 0.1 world0.1 world0.2 = Some this'
    /\ HikerSystem.hikers this' !! 1%nat = Some hiker'
    /\ Hiker.isWaiting hiker' = false
    /\ Hiker.currentSpeed hiker' == 1.
Proof.
  destruct (HikerSystem.update caravan0 0.1 world0.1 world0.2)
    as [this'|] eqn:Hup; [| vm_compute in Hup; discriminate].
  destruct (HikerSystem.hikers caravan0 !! 0%nat) as [herbie|] eqn:Hh;
    [| vm_compute in Hh; discriminate].
  destruct (HikerSystem.hikers caravan0 !! 1%nat) as [hiker|] eqn:H1;
    [| vm_compute in H1; discriminate].
  destruct (HikerSystem.hikers this' !! 0%nat) as [ahead'|] eqn:Ha;
    [| vm_compute in Hup; injection Hup as <-; discriminate].
  destruct (follower_speed_rule caravan0 0.1 world0.1 world0.2 this' herbie
              eq_refl eq_refl Hup Hh) as [_ Hfollow].
  destruct (Hfollow 0%nat hiker ahead' H1 Ha) as (hiker' & Hl & _ & _ & Hmid).
  exists this', hiker'. split; [reflexivity |]. split; [exact Hl |].
  vm_compute in Hup. injection Hup as <-.
  vm_compute in Ha. injection Ha as <-.
  vm_compute in H1. injection H1 as <-.
  vm_compute in Hh. injection Hh as <-.
  destruct Hmid as [Hwait Hspeed]; [split; vm_compute; discriminate |].
  split; [exact Hwait |]. rewrite Hspeed. vm_compute. reflexivity.
Defined.

(** The gap of the rule is read from the array as it stands when the
    follower is processed.  Tapping hiker 1 before each of four ticks of
    0.1 s leaves it 78 behind Herbie; in the fifth tick Herbie first moves
    14, the follower then sees a gap of 92 and catches up at
    [1.15 * 1.2], although the gap at the start of the tick was below
    [1.5 * 60]. *)
Example gap_read_after_leader_moved :
  (this4 ← tappedTicks 4 1 0.1 world0.1 world0.2 caravan0;
   this5 ← tappedTicks 1 1 0.1 world0.1 world0.2 this4;
   herbie4 ← HikerSystem.hikers this4 !! 0%nat;
   hiker4 ← HikerSystem.hikers this4 !! 1%nat;
   herbie5 ← HikerSystem.hikers this5 !! 0%nat;
   hiker5 ← HikerSystem.hikers this5 !! 1%nat;
   Some (Qred (Hiker.x herbie4 - Hiker.x hiker4),
         Qred (Hiker.x herbie5 - Hiker.x hiker4),
         Qred (Hiker.currentSpeed hiker5)))
  = Some (78, 92, Qred (1.15 * 1.2)).
Proof. vm_compute. reflexivity. Qed.

(** With the gap taken between the positions at the start of the tick the
    rule fails.  At the start of the fifth tick of that run Herbie is at
    256 and hiker 1 at 178: the gap of 78 lies between [0.8 * 60] and
    [1.5 * 60], and the target speed is [min(1.15 - 0.2, 1.4) = 0.95].
    The tick gives hiker 1 the catch-up speed [1.15 * 1.2 = 1.38], not the
    target speed. *)
Lemma start_of_tick_gap_breaks_rule :
  exists this this' herbie hiker hiker',
    fifthTick = Some this
    /\ HikerSystem.spacing this = 60
    /\ HikerSystem.update this 0.1 world0.1 world0.2 = Some this'
    /\ HikerSystem.hikers this !! 0%nat = Some herbie
    /\ HikerSystem.hikers this !! 1%nat = Some hiker
    /\ HikerSystem.hikers this' !! 1%nat = Some hiker'
    /\ 0.8 * 60 <= Hiker.x herbie - Hiker.x hiker <= 1.5 * 60
    /\ Hiker.currentSpeed hiker' == Hiker.baseSpeed hiker * 1.2
    /\ ~ Hiker.currentSpeed hiker'
          == Qmin (Hiker.baseSpeed hiker + Hiker.offloadBoost hiker)
                  (Hiker.baseSpeed herbie + Hiker.offloadBoost herbie).
Proof.
  destruct fifthTick as [this|] eqn:Hthis;
    [| vm_compute in Hthis; discriminate].
  destruct (HikerSystem.update this 0.1 world0.1 world0.2) as [this'|] eqn:Hup;
    [| vm_compute in Hthis; injection Hthis as <-;
       vm_compute in Hup; discriminate].
  vm_compute in Hthis. injection Hthis as <-.
  vm_compute in Hup. injection Hup as <-.
  eexists _, _, _, _, _.
  split; [reflexivity |]. split; [reflexivity |]. split; [reflexivity |].
  split; [reflexivity |]. split; [reflexivity |]. split; [reflexivity |].
  split; [split; vm_compute; discriminate |].
  split; [vm_compute; reflexivity | vm_compute; discriminate].
Qed.

(** ** Decay of the offload boost *)

Lemma decay_neutral deltaTime b : b == 0 -> HikerSystem.decay deltaTime b = b.
Proof.
  intros Hb. unfold HikerSystem.decay.
  by rewrite (proj2 (neq_false b 0) Hb).
Qed.

(** The boost moves toward zero by [0.5 * deltaTime], or is snapped to
    zero. *)
Lemma decay_rate deltaTime b :
  ~ b == 0 ->
  HikerSystem.decay deltaTime b = 0
  \/ (0 < b /\ HikerSystem.decay deltaTime b == b - 0.5 * deltaTime)
  \/ (b < 0 /\ HikerSystem.decay deltaTime b == b + 0.5 * deltaTime).
Proof.
  intros Hb. unfold HikerSystem.decay.
  rewrite (proj2 (neq_true b 0) Hb).
  js_case (JS.gt b 0); cbn zeta.
  - destruct (JS.lt _ 0.01); [by left | right; left; split; [done | ring]].
  - destruct (JS.lt _ 0.01); [by left | right; right; split; [lra | ring]].
Qed.

(** When the step is below the width of the snapping band, a boost that is
    outside the band does not cross zero. *)
Lemma decay_small_step deltaTime b :
  0 < deltaTime -> deltaTime * 0.5 < 0.02 ->
  (0.01 <= b -> 0 <= HikerSystem.decay deltaTime b < b)
  /\ (b <= -0.01 -> b < HikerSystem.decay deltaTime b <= 0).
Proof.
  intros Hdt Hstep. unfold HikerSystem.decay. split; intros Hb.
  - rewrite (proj2 (neq_true b 0)) by lra.
    rewrite (proj2 (gt_true b 0)) by lra. cbn zeta.
    js_case (JS.lt (Qabs (b + -1 * deltaTime * 0.5)) 0.01); [lra |].
    split; [| lra].
    destruct (Qlt_le_dec (b + -1 * deltaTime * 0.5) 0) as [Hneg|Hpos];
      [| exact Hpos].
    rewrite Qabs_neg in E by lra. lra.
  - rewrite (proj2 (neq_true b 0)) by lra.
    rewrite (proj2 (gt_false b 0)) by lra. cbn zeta.
    js_case (JS.lt (Qabs (b + 1 * deltaTime * 0.5)) 0.01); [lra |].
    split; [lra |].
    destruct (Qlt_le_dec 0 (b + 1 * deltaTime * 0.5)) as [Hpos|Hneg];
      [| exact Hneg].
    rewrite Qabs_pos in E by lra. lra.
Qed.

(** A step of 0.05 (a tick of 0.1 s) takes a boost of 0.03 to -0.02, which
    is outside the snapping band and stays. *)
Example decay_crosses_zero : HikerSystem.decay 0.1 0.03 == -0.02.
Proof. vm_compute. reflexivity. Qed.

(** With ticks of 0.07 s a boost that has crossed zero never comes to
    rest: -0.02 and 0.015 follow each other. *)
Example decay_oscillates :
  HikerSystem.decay 0.07 (-0.02) == 0.015
  /\ HikerSystem.decay 0.07 0.015 == -0.02.
Proof. split; vm_compute; reflexivity. Qed.

(** C7. The decay is not clamped at zero.  In the run that starts with a
    tap on hiker 2 and continues with ticks of 0.09 s, the boost of
    hiker 2 is -0.02 after four ticks and +0.025 after the fifth: the
    negative boost has become positive through decay. *)
Theorem decay_overshoots_in_a_run :
  (this0 ← HikerSystem.offloadHiker caravan0 2;
   this4 ← ticks 4 0.09 world0.1 world0.2 this0;
   this5 ← HikerSystem.update this4 0.09 world0.1 world0.2;
   hiker0 ← HikerSystem.hikers this0 !! 2%nat;
   hiker4 ← HikerSystem.hikers this4 !! 2%nat;
   hiker5 ← HikerSystem.hikers this5 !! 2%nat;
   Some (Qred (Hiker.offloadBoost hiker0),
         Qred (Hiker.offloadBoost hiker4),
         Qred (Hiker.offloadBoost hiker5)))
  = Some (-1 # 5, -1 # 50, 1 # 40).
Proof. vm_compute. reflexivity. Qed.

(** ** Offloading *)

Lemma offload_follower this i hiker herbie :
  i <> HikerSystem.herbieIndex this ->
  HikerSystem.hikers this !! i = Some hiker ->
  HikerSystem.hikers this !! HikerSystem.herbieIndex this = Some herbie ->
  exists this',
    HikerSystem.offloadHiker this i = Some this'
    /\ HikerSystem.herbieIndex this' = HikerSystem.herbieIndex this
    /\ HikerSystem.hikers this' !! i
       = Some (Hiker.set_pulseTime 0.8 (Hiker.set_offloadBoost (-0.2) hiker))
    /\ HikerSystem.hikers this' !! HikerSystem.herbieIndex this
       = Some (Hiker.set_pulseTime 0.8
                 (Hiker.set_offloadBoost
                    (Qmax (Hiker.offloadBoost herbie) 0.4) herbie)).
Proof.
  intros Hne Hi Hh. unfold HikerSystem.offloadHiker.
  rewrite (proj2 (Nat.eqb_neq _ _) Hne), Hi. cbn [mbind option_bind].
  rewrite list_lookup_insert_ne, Hh by done. cbn [mbind option_bind].
  eexists. split; [reflexivity |]. split; [reflexivity |].
  unfold HikerSystem.triggerPulse, HikerSystem.set_hikers.
  cbn [HikerSystem.hikers].
  change (map ?f ?l) with (f <$> l). rewrite !list_lookup_fmap.
  pose proof (lookup_lt_Some _ _ _ Hi) as Hli.
  pose proof (lookup_lt_Some _ _ _ Hh) as Hlh.
  split.
  - rewrite list_lookup_insert_ne by done.
    by rewrite list_lookup_insert_eq.
  - by rewrite list_lookup_insert_eq by (by rewrite length_insert).
Qed.

(** C5. [offloadHiker] on the index of Herbie returns without any change.
    On a follower index it sets the follower's boost to -0.2, whatever it
    was, and Herbie's boost to [max(current, 0.4)].  A second call, before
    any decay, leaves Herbie's boost at [max(original, 0.4)], which is 0.4
    when the original boost was at most 0.4: the transfer does not add
    up. *)
Theorem offload_semantics this i j hiker herbie :
  i <> HikerSystem.herbieIndex this ->
  j <> HikerSystem.herbieIndex this ->
  HikerSystem.hikers this !! i = Some hiker ->
  (j < length (HikerSystem.hikers this))%nat ->
  HikerSystem.hikers this !! HikerSystem.herbieIndex this = Some herbie ->
  HikerSystem.offloadHiker this (HikerSystem.herbieIndex this) = Some this
  /\ exists this' hiker' herbie',
      HikerSystem.offloadHiker this i = Some this'
      /\ HikerSystem.hikers this' !! i = Some hiker'
      /\ HikerSystem.hikers this' !! HikerSystem.herbieIndex this
         = Some herbie'
      /\ Hiker.offloadBoost hiker' = -0.2
      /\ Hiker.offloadBoost herbie' = Qmax (Hiker.offloadBoost herbie) 0.4
      /\ exists this'' hiker'' herbie'',
          HikerSystem.offloadHiker this' j = Some this''
          /\ HikerSystem.hikers this'' !! j = Some hiker''
          /\ HikerSystem.hikers this'' !! HikerSystem.herbieIndex this
             = Some herbie''
          /\ Hiker.offloadBoost hiker'' = -0.2
          /\ Hiker.offloadBoost herbie''
             == Qmax (Hiker.offloadBoost herbie) 0.4
          /\ (Hiker.offloadBoost herbie <= 0.4 ->
              Hiker.offloadBoost herbie'' == 0.4).
Proof.
  intros Hi Hj Hhiker Hjlen Hherbie. split.
  { unfold HikerSystem.offloadHiker. by rewrite Nat.eqb_refl. }
  destruct (offload_follower this i hiker herbie Hi Hhiker Hherbie)
    as (this' & Hoff & Hidx & Hli & Hlh).
  exists this'. do 2 eexists.
  split; [exact Hoff |]. split; [exact Hli |]. split; [exact Hlh |].
  split; [reflexivity |]. split; [reflexivity |].
  assert (Hlen : length (HikerSystem.hikers this')
                 = length (HikerSystem.hikers this)).
  { unfold HikerSystem.offloadHiker in Hoff.
    rewrite (proj2 (Nat.eqb_neq _ _) Hi), Hhiker in Hoff.
    cbn [mbind option_bind] in Hoff.
    rewrite list_lookup_insert_ne, Hherbie in Hoff by done.
    cbn [mbind option_bind] in Hoff. injection Hoff as <-.
    cbn. by rewrite length_map, !length_insert. }
  destruct (lookup_lt_is_Some_2 (HikerSystem.hikers this') j) as [hj Hhj];
    [by rewrite Hlen |].
  rewrite <- Hidx in Hj, Hlh.
  destruct (offload_follower this' j hj _ Hj Hhj Hlh)
    as (this'' & Hoff' & _ & Hlj' & Hlh').
  rewrite Hidx in Hlh'.
  exists this''. do 2 eexists.
  split; [exact Hoff' |]. split; [exact Hlj' |]. split; [exact Hlh' |].
  split; [reflexivity |].
  cbn [Hiker.set_pulseTime Hiker.set_offloadBoost Hiker.offloadBoost].
  split.
  - apply Q.max_l. apply Q.le_max_r.
  - intros Hle. rewrite (Q.max_r _ _ Hle). apply Q.max_l. lra.
Qed.

(** The two taps on the caravan of [init]: hiker 2 twice. *)
Lemma offload_semantics_witness :
  exists this' this'' herbie'',
    HikerSystem.offloadHiker caravan0 2 = Some this'
    /\ HikerSystem.offloadHiker this' 2 = Some this''
    /\ HikerSystem.hikers this'' !! 0%nat = Some herbie''
    /\ Hiker.offloadBoost herbie'' == 0.4.
Proof.
  destruct (HikerSystem.hikers caravan0 !! 2%nat) as [hiker|] eqn:Hhiker;
    [| vm_compute in Hhiker; discriminate].
  destruct (HikerSystem.hikers caravan0 !! 0%nat) as [herbie|] eqn:Hherbie;
    [| vm_compute in Hherbie; discriminate].
  assert (Hboost : Hiker.offloadBoost herbie <= 0.4).
  { vm_compute in Hherbie. injection Hherbie as <-. vm_compute. discriminate. }
  destruct (offload_semantics caravan0 2 2 hiker herbie)
    as (_ & this' & _ & _ & Hoff & _ & _ & _ & _
          & this'' & _ & herbie'' & Hoff' & _ & Hl & _ & _ & Hcap);
    [vm_compute; lia | vm_compute; lia | exact Hhiker | vm_compute; lia
    | exact Hherbie |].
  exists this', this'', herbie''.
  split; [exact Hoff |]. split; [exact Hoff' |]. split; [exact Hl |].
  exact (Hcap Hboost).
Defined.

(** ** The flow multiplier *)

Lemma inject_nat_succ (n : nat) :
  inject_Z (Z.of_nat (S n)) == inject_Z (Z.of_nat n) + 1.
Proof. rewrite Nat2Z.inj_succ. unfold Z.succ. by rewrite inject_Z_plus. Qed.

(** The loop of [getFlowMultiplier], started at [hs[k-1] = a] with [rest]
    behind: it adds the spacings behind [a] and counts them. *)
Lemma flow_loop (hs : list Hiker.t) (rest pre : list Hiker.t) (a : Hiker.t)
    (total count : Q) :
  hs = pre ++ a :: rest ->
  exists total' count',
    foldl (HikerSystem.flowLoopBody hs) (Some (total, count))
          (seq (S (length pre)) (length rest)) = Some (total', count')
    /\ total' == total + Qsum (spacings (a :: rest))
    /\ count' == count + inject_Z (Z.of_nat (length rest)).
Proof.
  revert pre a total count.
  induction rest as [|b rest IH]; intros pre a total count Hhs.
  - exists total, count. cbn. split; [reflexivity |]. split; ring.
  - cbn [length seq foldl].
    assert (Ha : hs !! (S (length pre) - 1)%nat = Some a).
    { rewrite Hhs, Nat.sub_succ, Nat.sub_0_r. by apply list_lookup_middle. }
    assert (Hb : hs !! S (length pre) = Some b).
    { rewrite Hhs. replace (pre ++ a :: b :: rest)
        with ((pre ++ [a]) ++ b :: rest) by (by rewrite <- app_assoc).
      apply list_lookup_middle. rewrite length_app. cbn. lia. }
    unfold HikerSystem.flowLoopBody at 2. cbn [mbind option_bind].
    rewrite Ha, Hb. cbn [mbind option_bind].
    destruct (IH (pre ++ [a]) b (total + (Hiker.x a - Hiker.x b)) (count + 1))
      as (total' & count' & Hfold & Htot & Hcnt).
    { rewrite Hhs. by rewrite <- app_assoc. }
    rewrite length_app, Nat.add_1_r in Hfold.
    exists total', count'. split; [exact Hfold |]. split.
    + rewrite Htot. cbn [spacings Qsum foldr]. fold (Qsum (spacings (b :: rest))).
      ring.
    + rewrite Hcnt, inject_nat_succ. ring.
Qed.

Lemma spacings_length hs : length (spacings hs) = (length hs - 1)%nat.
Proof.
  induction hs as [|a [|b hs] IH]; [reflexivity | reflexivity |].
  cbn [spacings length] in *. rewrite IH. lia.
Qed.

(** The spacings telescope: their sum is the distance from the first to
    the last hiker. *)
Lemma spacings_telescope a hs z :
  last (a :: hs) = Some z ->
  Qsum (spacings (a :: hs)) == Hiker.x a - Hiker.x z.
Proof.
  revert a. induction hs as [|b hs IH]; intros a Hlast.
  - injection Hlast as ->. cbn. ring.
  - cbn [spacings Qsum foldr]. fold (Qsum (spacings (b :: hs))).
    rewrite (IH b) by exact Hlast. ring.
Qed.

Lemma clamp_range v lo hi : lo <= hi -> lo <= clamp v lo hi <= hi.
Proof.
  intros H. unfold clamp. split.
  - apply Q.min_glb; [exact H | apply Q.le_max_l].
  - apply Q.le_min_l.
Qed.

(** C3, as the code has it.  With the target spacing 60 and at least two
    hikers, [getFlowMultiplier] returns
    [clamp(3.0 - |avgSpacing - 60| / 60, 1.0, 3.0)], a number between 1.0
    and 3.0, where [avgSpacing] is the mean of the adjacent spacings.  With
    fewer than two hikers there is no guard: the mean is 0/0 and the
    result is NaN. *)
Theorem flow_multiplier_range this :
  HikerSystem.spacing this = 60 ->
  ((2 <= length (HikerSystem.hikers this))%nat ->
   let avgSpacing :=
     Qsum (spacings (HikerSystem.hikers this))
     / inject_Z (Z.of_nat (length (spacings (HikerSystem.hikers this)))) in
   exists q,
     HikerSystem.getFlowMultiplier this = Some (JS.Fin q)
     /\ q == clamp (3.0 - Qabs (avgSpacing - 60) / 60) 1.0 3.0
     /\ 1.0 <= q <= 3.0)
  /\ ((length (HikerSystem.hikers this) < 2)%nat ->
      HikerSystem.getFlowMultiplier this = Some JS.NaN).
Proof.
  intros Hsp. split.
  - intros Hlen avgSpacing.
    destruct (HikerSystem.hikers this) as [|a rest] eqn:Hhs;
      [cbn in Hlen; lia |].
    destruct (flow_loop (a :: rest) rest [] a 0 0 eq_refl)
      as (total & count & Hfold & Htot & Hcnt).
    unfold HikerSystem.getFlowMultiplier, HikerSystem.pairIndices.
    rewrite Hhs, Hsp. cbn [length Nat.sub] in *.
    rewrite Nat.sub_0_r, Hfold. cbn [mbind option_bind].
    assert (Hpos : 0 < count).
    { rewrite Hcnt.
      assert (0 < inject_Z (Z.of_nat (length rest))); [| lra].
      change 0 with (inject_Z 0). rewrite <- Zlt_Qlt. lia. }
    unfold JS.div at 1.
    replace (Qeq_bool count 0) with false
      by (symmetry; apply not_true_iff_false; rewrite Qeq_bool_iff; lra).
    cbn [JS.sub_fin JS.Math_abs JS.div_fin].
    unfold JS.div. change (Qeq_bool 60 0) with false. cbn iota.
    cbn [JS.fin_sub JS.Math_max JS.Math_min].
    eexists. split; [reflexivity |].
    assert (Havg : total / count == avgSpacing).
    { unfold avgSpacing. rewrite spacings_length. cbn [length Nat.sub].
      rewrite Nat.sub_0_r, Htot, Hcnt, !Qplus_0_l. reflexivity. }
    split.
    + unfold clamp. rewrite Havg. reflexivity.
    + apply (clamp_range _ 1.0 3.0). lra.
  - intros Hlen. unfold HikerSystem.getFlowMultiplier, HikerSystem.pairIndices.
    destruct (HikerSystem.hikers this) as [|a [|b rest]];
      [reflexivity | reflexivity | cbn in Hlen; lia].
Qed.

(** The caravan of [init] has a flow multiplier, and it is within range. *)
Lemma flow_multiplier_range_witness :
  exists q,
    HikerSystem.getFlowMultiplier caravan0 = Some (JS.Fin q)
    /\ 1.0 <= q <= 3.0.
Proof.
  destruct (flow_multiplier_range caravan0 eq_refl) as [Hrange _].
  destruct Hrange as (q & Hq & _ & Hr); [vm_compute; lia |].
  exists q. split; [exact Hq | exact Hr].
Defined.

(** A system that has not been initialised holds no hiker: the multiplier
    is NaN, not 1.0. *)
Lemma flow_multiplier_without_hikers :
  HikerSystem.getFlowMultiplier HikerSystem.new = Some JS.NaN.
Proof. reflexivity. Qed.

(** ** No overtaking *)

Section Tick.
Variables (this : HikerSystem.t) (deltaTime : Q) (σ : Segment.store)
          (terrain : Terrain.t) (herbieSpeed : Q).
Hypothesis Hspacing : HikerSystem.spacing this = 60.
Hypothesis Hdt : 0 < deltaTime <= 0.1.
Hypothesis Hherbie : 0 <= herbieSpeed <= 2.

(** A follower that is behind stays behind: its move of the tick is
    shorter than the gap it sees. *)
Lemma pace_follower ahead hiker :
  tuned hiker ->
  Hiker.x hiker < Hiker.x ahead ->
  let speed := (HikerSystem.pace this herbieSpeed (Some ahead) hiker).2 in
  0 <= speed /\ speed * 100 * deltaTime < Hiker.x ahead - Hiker.x hiker.
Proof.
  intros [[Hb1 Hb2] [Ho1 Ho2]] Hgap. unfold HikerSystem.pace.
  rewrite Hspacing. cbn zeta.
  set (gap := Hiker.x ahead - Hiker.x hiker).
  assert (Hgap' : 0 < gap) by (unfold gap; lra).
  set (target := Qmin (Hiker.baseSpeed hiker + Hiker.offloadBoost hiker)
                      herbieSpeed).
  assert (Htarget : 0 <= target <= 2).
  { unfold target.
    destruct (Q.min_spec (Hiker.baseSpeed hiker + Hiker.offloadBoost hiker)
                herbieSpeed) as [[_ ->]|[_ ->]]; lra. }
  assert (Hstep : forall v, 0 <= v <= 2 -> 0 <= v * deltaTime <= 0.2).
  { intros v Hv. split; [apply Qmult_le_0_compat; lra |].
    apply Qle_trans with (2 * deltaTime); [| lra].
    apply Qmult_le_compat_r; lra. }
  js_case (JS.lt gap (60 * 0.8)); [| js_case (JS.gt gap (60 * 1.5))];
    cbn [snd].
  - assert (Hprod : 0 <= target * (gap / 60)).
    { apply Qmult_le_0_compat; [lra |].
      apply Qle_shift_div_l; lra. }
    rewrite (Q.max_r _ _ Hprod). split; [exact Hprod |].
    pose proof (Hstep target Htarget) as [Hs1 Hs2].
    assert (Hre : target * (gap / 60) * 100 * deltaTime
                  == target * deltaTime * (5 # 3) * gap) by field.
    rewrite Hre.
    apply Qle_lt_trans with (0.2 * (5 # 3) * gap); [| lra].
    apply Qmult_le_compat_r; lra.
  - pose proof (Hstep (Hiker.baseSpeed hiker) ltac:(lra)) as [Hs1 Hs2].
    split; [lra |].
    assert (Hre : Hiker.baseSpeed hiker * 1.2 * 100 * deltaTime
                  == Hiker.baseSpeed hiker * deltaTime * 120) by ring.
    rewrite Hre. lra.
  - pose proof (Hstep target Htarget) as [Hs1 Hs2].
    split; [lra |].
    assert (Hre : target * 100 * deltaTime == target * deltaTime * 100)
      by ring.
    rewrite Hre. lra.
Qed.

Lemma decay_tuned b :
  -0.2 <= b <= 0.4 -> -0.2 <= HikerSystem.decay deltaTime b <= 0.4.
Proof.
  intros Hb. unfold HikerSystem.decay.
  js_case (JS.neq b 0); [| exact Hb]. cbn zeta.
  js_case (JS.gt b 0); destruct (JS.lt _ 0.01); lra.
Qed.

Lemma step_tuned ahead hiker :
  tuned hiker ->
  tuned (HikerSystem.stepHiker this deltaTime σ terrain herbieSpeed ahead hiker).
Proof.
  intros [Hb Ho]. split.
  - by rewrite step_baseSpeed.
  - rewrite step_offloadBoost. by apply decay_tuned.
Qed.

(** The walk keeps the caravan tuned and in order. *)
Lemma walk_keeps_order hs :
  forall ahead ahead',
    advanced ahead ahead' ->
    Forall tuned hs ->
    descending (front ahead hs) ->
    Forall tuned (walk this deltaTime σ terrain herbieSpeed ahead' hs)
    /\ descending
         (front ahead' (walk this deltaTime σ terrain herbieSpeed ahead' hs)).
Proof.
  induction hs as [|hiker rest IH]; intros ahead ahead' Hadv Htuned Hdesc.
  - split; [constructor |]. destruct ahead'; exact I.
  - inversion Htuned as [|? ? Hh Hrest]; subst.
    cbn [walk].
    set (hiker1 := HikerSystem.stepHiker this deltaTime σ terrain herbieSpeed
                     ahead' hiker).
    assert (Hmove : Hiker.x hiker <= Hiker.x hiker1
                    /\ match ahead' with
                       | Some a' => Hiker.x hiker1 < Hiker.x a'
                       | None => True
                       end).
    { unfold hiker1. rewrite step_x.
      destruct ahead as [a|], ahead' as [a'|]; cbn in Hadv; try contradiction.
      - destruct Hdesc as [Hlt _].
        destruct (pace_follower a' hiker Hh) as [H0 H1]; [lra |].
        split; [| lra].
        assert (0 <= (HikerSystem.pace this herbieSpeed (Some a') hiker).2
                     * 100 * deltaTime); [| lra].
        apply Qmult_le_0_compat; [| lra]. apply Qmult_le_0_compat; lra.
      - split; [| exact I]. cbn [HikerSystem.pace snd].
        assert (0 <= herbieSpeed * 100 * deltaTime); [| lra].
        apply Qmult_le_0_compat; [| lra]. apply Qmult_le_0_compat; lra. }
    destruct Hmove as [Hfwd Hbehind].
    destruct (IH (Some hiker) (Some hiker1)) as [IHt IHd];
      [exact Hfwd | exact Hrest | |].
    { destruct ahead; cbn in Hdesc |- *; [tauto | exact Hdesc]. }
    split; [constructor; [by apply step_tuned | exact IHt] |].
    destruct ahead' as [a'|]; cbn [front map] in *; [split |]; assumption.
Qed.

End Tick.

Lemma descending_lookup (hs : list Hiker.t) i a b :
  descending (map Hiker.x hs) ->
  hs !! i = Some a -> hs !! S i = Some b -> Hiker.x b < Hiker.x a.
Proof.
  revert hs. induction i as [|i IH]; intros hs Hd Ha Hb.
  - destruct hs as [|a0 [|b0 hs]]; try discriminate.
    cbn in Ha, Hb. injection Ha as ->. injection Hb as ->. apply Hd.
  - destruct hs as [|a0 [|b0 hs]]; try discriminate.
    apply (IH (b0 :: hs)); [apply Hd | exact Ha | exact Hb].
Qed.

Lemma init_inv this startX startY :
  HikerSystem.spacing this = 60 ->
  HikerSystem.herbieIndex this = 0%nat ->
  caravan_inv (HikerSystem.init this startX startY).
Proof.
  intros Hsp Hidx. unfold HikerSystem.init, HikerSystem.set_hikers.
  split; cbn [HikerSystem.hikers HikerSystem.spacing HikerSystem.herbieIndex];
    try assumption.
  - reflexivity.
  - cbn. repeat (apply Forall_cons_2; [unfold tuned; cbn; lra |]).
    apply Forall_nil_2.
  - cbn. rewrite Hsp. unfold inject_Z.
    change (Z.of_nat 0) with 0%Z. change (Z.of_nat 1) with 1%Z.
    change (Z.of_nat 2) with 2%Z. change (Z.of_nat 3) with 3%Z.
    change (Z.of_nat 4) with 4%Z.
    repeat (split; [lra |]). exact I.
Qed.

Lemma update_inv this deltaTime σ terrain this' :
  caravan_inv this ->
  0 < deltaTime <= 0.1 ->
  HikerSystem.update this deltaTime σ terrain = Some this' ->
  caravan_inv this'.
Proof.
  intros [Hsp Hidx Hcnt Htuned Hord] Hdt Hup.
  rewrite update_walk, Hidx in Hup.
  destruct (HikerSystem.hikers this !! 0%nat) as [herbie|] eqn:Hh;
    [| discriminate].
  cbn [mbind option_bind] in Hup. injection Hup as <-.
  assert (Hherbie : 0 <= Hiker.baseSpeed herbie + Hiker.offloadBoost herbie <= 2).
  { rewrite Forall_lookup in Htuned. destruct (Htuned _ _ Hh) as [? ?]. lra. }
  destruct (walk_keeps_order this deltaTime σ terrain _ Hsp Hdt Hherbie
              (HikerSystem.hikers this) None None I Htuned Hord) as [Ht Hd].
  split; cbn [HikerSystem.hikers HikerSystem.spacing HikerSystem.herbieIndex];
    try assumption; try reflexivity.
  by rewrite walk_length.
Qed.

Lemma update_total this deltaTime σ terrain :
  caravan_inv this ->
  exists this', HikerSystem.update this deltaTime σ terrain = Some this'.
Proof.
  intros [_ Hidx Hcnt _ _]. rewrite update_walk, Hidx.
  destruct (HikerSystem.hikers this) as [|herbie rest]; [discriminate |].
  eexists. reflexivity.
Qed.

Lemma map_x_set_pulseTime p (hs : list Hiker.t) :
  map Hiker.x (map (Hiker.set_pulseTime p) hs) = map Hiker.x hs.
Proof. rewrite map_map. reflexivity. Qed.

Lemma pulse_inv this : caravan_inv this -> caravan_inv (HikerSystem.triggerPulse this).
Proof.
  intros [Hsp Hidx Hcnt Htuned Hord]. split; cbn; try assumption.
  - by rewrite length_map.
  - change (map ?f ?l) with (f <$> l). apply Forall_fmap.
    eapply Forall_impl; [exact Htuned | intros h Hh; exact Hh].
  - by rewrite map_x_set_pulseTime.
Qed.

Lemma offload_inv this hikerIndex this' :
  caravan_inv this ->
  HikerSystem.offloadHiker this hikerIndex = Some this' ->
  caravan_inv this'.
Proof.
  intros Hinv Hoff. unfold HikerSystem.offloadHiker in Hoff.
  destruct (Nat.eqb hikerIndex (HikerSystem.herbieIndex this)) eqn:Heq.
  { injection Hoff as <-. exact Hinv. }
  apply Nat.eqb_neq in Heq.
  destruct (HikerSystem.hikers this !! hikerIndex) as [hiker|] eqn:Hhiker;
    [| discriminate].
  cbn [mbind option_bind] in Hoff.
  rewrite list_lookup_insert_ne in Hoff by done.
  destruct (HikerSystem.hikers this !! HikerSystem.herbieIndex this)
    as [herbie|] eqn:Hherbie; [| discriminate].
  cbn [mbind option_bind] in Hoff. injection Hoff as <-.
  apply pulse_inv.
  destruct Hinv as [Hsp Hidx Hcnt Htuned Hord].
  pose proof Htuned as Hall. rewrite Forall_lookup in Hall.
  destruct (Hall _ _ Hhiker) as [Hb1 Ho1].
  destruct (Hall _ _ Hherbie) as [Hb0 Ho0].
  split; cbn [HikerSystem.set_hikers HikerSystem.spacing
              HikerSystem.herbieIndex HikerSystem.hikers]; try assumption.
  - by rewrite !length_insert.
  - apply Forall_insert; [apply Forall_insert; [exact Htuned |] |].
    + split; [exact Hb1 | cbn; lra].
    + split; [exact Hb0 |]. cbn.
      rewrite (Q.max_r (Hiker.offloadBoost herbie) 0.4) by lra. lra.
  - change (map ?f ?l) with (f <$> l). rewrite !list_fmap_insert. cbn.
    rewrite (list_insert_id (Hiker.x <$> HikerSystem.hikers this) hikerIndex)
      by (by rewrite list_lookup_fmap, Hhiker).
    rewrite list_insert_id by (by rewrite list_lookup_fmap, Hherbie).
    exact Hord.
Qed.

Lemma reachable_inv this : reachable this -> caravan_inv this.
Proof.
  induction 1 as [startX startY | this startX startY _ IH
                  | this dt σ terrain this' _ IH Hdt Hup
                  | this i this' _ IH Hoff | this _ IH | this seconds _ IH].
  - by apply init_inv.
  - apply init_inv; apply IH.
  - exact (update_inv _ _ _ _ _ IH Hdt Hup).
  - exact (offload_inv _ _ _ IH Hoff).
  - by apply pulse_inv.
  - destruct IH. by split.
Qed.

(** C1. In every state of a run (from [init], through ticks with
    [deltaTime] in (0, 0.1], taps, pulses, label resets and restarts) each
    follower is strictly behind the hiker ahead of it, and a tick from such
    a state always yields the next state. *)
Theorem no_overtaking this :
  reachable this ->
  (forall i a b,
      HikerSystem.hikers this !! i = Some a ->
      HikerSystem.hikers this !! S i = Some b ->
      Hiker.x b < Hiker.x a)
  /\ (forall deltaTime σ terrain,
        exists this', HikerSystem.update this deltaTime σ terrain = Some this').
Proof.
  intros Hreach. pose proof (reachable_inv this Hreach) as Hinv. split.
  - intros i a b. apply descending_lookup, Hinv.
  - intros deltaTime σ terrain. by apply update_total.
Qed.

(** A tap and a tick from the start of a run: the caravan is in order. *)
Lemma no_overtaking_witness :
  exists this1 this2,
    HikerSystem.offloadHiker caravan0 2 = Some this1
    /\ HikerSystem.update this1 0.1 world0.1 world0.2 = Some this2
    /\ forall i a b,
        HikerSystem.hikers this2 !! i = Some a ->
        HikerSystem.hikers this2 !! S i = Some b ->
        Hiker.x b < Hiker.x a.
Proof.
  destruct (HikerSystem.offloadHiker caravan0 2) as [this1|] eqn:Hoff;
    [| vm_compute in Hoff; discriminate].
  destruct (HikerSystem.update this1 0.1 world0.1 world0.2) as [this2|] eqn:Hup.
  - exists this1, this2. split; [reflexivity |]. split; [exact Hup |].
    apply (no_overtaking this2).
    apply (reach_update this1 0.1 world0.1 world0.2 this2); [| lra | exact Hup].
    apply (reach_offload caravan0 2 this1); [| exact Hoff].
    apply reach_init.
  - exfalso.
    destruct (update_total this1 0.1 world0.1 world0.2) as [this2 Hsome];
      [| congruence].
    apply reachable_inv, (reach_offload caravan0 2 this1); [| exact Hoff].
    apply reach_init.
Defined.

(** ** The state machine *)

(** C9. [pauseGame] outside [playing] and [resumeGame] outside [paused]
    return normally and leave the whole game object, the state tag, the
    input enablement and the pause overlay included, as it was. *)
Theorem invalid_transition_noop (this : Game.t) :
  (Game.gameState this <> Game.playing -> Game.pauseGame this = Some this)
  /\ (Game.gameState this <> Game.paused -> Game.resumeGame this = Some this).
Proof.
  split; intros Hstate.
  - unfold Game.pauseGame. by destruct (Game.gameState this).
  - unfold Game.resumeGame. by destruct (Game.gameState this).
Qed.

(** A valid pause, for comparison: from [playing], with the overlay in the
    page, the game becomes [paused] and the input is disabled. *)
Lemma pause_while_playing this hidden :
  Game.gameState this = Game.playing ->
  UISystem.pauseOverlay (Game.ui this) = Some hidden ->
  exists this',
    Game.pauseGame this = Some this'
    /\ Game.gameState this' = Game.paused
    /\ InputSystem.isEnabled (Game.input this') = false
    /\ Game.pauseGame this' = Some this'.
Proof.
  intros Hplaying Hoverlay. unfold Game.pauseGame at 1.
  rewrite Hplaying. cbn [Game.tag_eqb negb].
  unfold UISystem.showPause. rewrite Hoverlay. cbn [mbind option_bind].
  eexists. split; [reflexivity |]. split; [reflexivity |]. split.
  - cbn [Game.input]. unfold InputSystem.disable.
    destruct (InputSystem.isEnabled (Game.input this)) eqn:Hen;
      [reflexivity | exact Hen].
  - reflexivity.
Qed.

(** ** Clearing an obstacle *)

(** C6. On an obstacle that is cleared or clearing, [clearObstacle] returns
    [false] and leaves the two stores and the system as they were.  On any
    other obstacle it returns [true], the obstacle is clearing afterwards
    and the counter has grown by one; an immediate second call on the same
    obstacle returns [false] and changes nothing, so the counter has grown
    exactly once. *)
Theorem clearObstacle_once σs σo this ref now now' obstacle :
  σo !! ref = Some obstacle ->
  (Obstacle.cleared obstacle || Obstacle.clearing obstacle = true ->
   ObstacleSystem.clearObstacle σs σo this ref now
   = Some (false, (σs, σo, this)))
  /\ (Obstacle.cleared obstacle || Obstacle.clearing obstacle = false ->
      exists σs1 σo1 this1 obstacle1,
        ObstacleSystem.clearObstacle σs σo this ref now
        = Some (true, (σs1, σo1, this1))
        /\ σo1 !! ref = Some obstacle1
        /\ Obstacle.clearing obstacle1 = true
        /\ ObstacleSystem.obstaclesCleared this1
           = S (ObstacleSystem.obstaclesCleared this)
        /\ ObstacleSystem.clearObstacle σs1 σo1 this1 ref now'
           = Some (false, (σs1, σo1, this1))).
Proof.
  intros Href.
  split; intros Hflags; unfold ObstacleSystem.clearObstacle at 1;
    rewrite Href; cbn [mbind option_bind]; rewrite Hflags.
  - reflexivity.
  - do 4 eexists. split; [reflexivity |].
    pose proof (lookup_lt_Some _ _ _ Href) as Hlt.
    split; [by apply list_lookup_insert_eq |].
    split; [reflexivity |]. split; [reflexivity |].
    unfold ObstacleSystem.clearObstacle.
    rewrite list_lookup_insert_eq by exact Hlt. cbn [mbind option_bind].
    cbn [Obstacle.set_clearing Obstacle.cleared Obstacle.clearing].
    by rewrite orb_true_r.
Qed.

(** The first obstacle of a run, a gap spawned at distance 500, tapped
    twice. *)
Lemma clearObstacle_once_witness :
  exists σs1 σo1 this1,
    ObstacleSystem.clearObstacle (segs gapSpawned) (obss gapSpawned)
      (osys gapSpawned) 0 1000
    = Some (true, (σs1, σo1, this1))
    /\ ObstacleSystem.obstaclesCleared this1 = 1%nat
    /\ ObstacleSystem.clearObstacle σs1 σo1 this1 0 1016
       = Some (false, (σs1, σo1, this1)).
Proof.
  destruct (obss gapSpawned !! 0%nat) as [obstacle|] eqn:Hobs;
    [| vm_compute in Hobs; discriminate].
  assert (Hfresh : Obstacle.cleared obstacle || Obstacle.clearing obstacle
                   = false).
  { vm_compute in Hobs. by injection Hobs as <-. }
  destruct (clearObstacle_once (segs gapSpawned) (obss gapSpawned)
              (osys gapSpawned) 0 1000 1016 obstacle Hobs) as [_ Hclear].
  destruct (Hclear Hfresh) as (σs1 & σo1 & this1 & o1 & H1 & _ & _ & H2 & H3).
  exists σs1, σo1, this1. split; [exact H1 |]. split; [exact H2 | exact H3].
Defined.

(** ** Obstacle types *)

Lemma makeObstacle_type type ref segment :
  Obstacle.type (ObstacleSystem.makeObstacle type ref segment) = type.
Proof. by destruct type. Qed.

(** What [spawnObstacle] does to the obstacle store: nothing, or one new
    object of the chosen type. *)
Lemma spawnObstacle_store σs σo this terrain distance rand :
  let '(_, σo', _) :=
    ObstacleSystem.spawnObstacle σs σo this terrain distance rand in
  σo' = σo
  \/ exists ref segment,
       σo' = σo ++ [ObstacleSystem.makeObstacle
                      (ObstacleSystem.chooseType
                         (ObstacleSystem.difficultyAt distance) rand)
                      ref segment].
Proof.
  unfold ObstacleSystem.spawnObstacle.
  destruct (Terrain.findSegment _ _ _) as [ref|]; [| by left].
  destruct (σs !! ref) as [segment|]; [| by left].
  right. by exists ref, segment.
Qed.

(** C4, as the code has it.  While [clamp(distance * 0.0002, 0, 1) < 0.2]
    a spawned obstacle is a wall when the random number is below 0.4, a
    barrier when it is in [0.4, 0.7) and a gap when it is 0.7 or more;
    it is never a platform. *)
Theorem early_obstacle_types σs σo this terrain distance rand
    σs' σo' this' obstacle :
  clamp (distance * 0.0002) 0 1 < 0.2 ->
  ObstacleSystem.spawnObstacle σs σo this terrain distance rand
  = (σs', σo', this') ->
  σo' = σo ++ [obstacle] ->
  (rand < 0.4 /\ Obstacle.type obstacle = Obstacle.wall)
  \/ (0.4 <= rand < 0.7 /\ Obstacle.type obstacle = Obstacle.barrier)
  \/ (0.7 <= rand /\ Obstacle.type obstacle = Obstacle.gap).
Proof.
  intros Hband Hspawn Hnew.
  pose proof (spawnObstacle_store σs σo this terrain distance rand) as Hst.
  rewrite Hspawn in Hst. destruct Hst as [Hsame | (ref & segment & Hst)].
  { rewrite Hsame in Hnew. apply (f_equal length) in Hnew.
    rewrite length_app in Hnew. cbn in Hnew. lia. }
  rewrite Hst in Hnew. apply app_inv_head in Hnew. injection Hnew as <-.
  rewrite makeObstacle_type.
  assert (Hdiff : ObstacleSystem.difficultyAt distance < 0.2).
  { unfold ObstacleSystem.difficultyAt. unfold clamp in Hband.
    destruct (Qlt_le_dec (distance * 0.0002) 0.2) as [Hlow|Hhigh].
    - apply Qle_lt_trans with (distance * 0.0002);
        [apply Q.le_min_r | exact Hlow].
    - exfalso.
      assert (0.2 <= Qmin 1 (Qmax 0 (distance * 0.0002))); [| lra].
      apply Q.min_glb; [lra |].
      apply Qle_trans with (distance * 0.0002);
        [exact Hhigh | apply Q.le_max_r]. }
  unfold ObstacleSystem.chooseType.
  rewrite (proj2 (lt_true _ _) Hdiff).
  js_case (JS.lt rand 0.4); [by left |].
  js_case (JS.lt rand 0.7); [right; left | right; right]; by split.
Qed.

(** The first spawn of a run on an 800 by 600 canvas, at distance 500 with
    the random number 0.8: the difficulty is 0.1 and the obstacle is a
    gap. *)
Lemma early_spawn_is_a_gap :
  clamp (500 * 0.0002) 0 1 < 0.2
  /\ map Obstacle.type
       (obss (obstaclesUpdate startWorld 0.016 500 0.8 0.5))
     = [Obstacle.gap].
Proof. split; [reflexivity | vm_compute; reflexivity]. Qed.

Lemma early_obstacle_types_witness :
  exists σs' this' obstacle,
    ObstacleSystem.spawnObstacle (segs startWorld) (obss startWorld)
      (osys startWorld) (terr startWorld) 500 0.3
    = (σs', [obstacle], this')
    /\ Obstacle.type obstacle = Obstacle.wall.
Proof.
  destruct (ObstacleSystem.spawnObstacle (segs startWorld) (obss startWorld)
              (osys startWorld) (terr startWorld) 500 0.3)
    as [[σs' σo'] this'] eqn:Hspawn.
  assert (Hone : exists obstacle, σo' = [obstacle]).
  { vm_compute in Hspawn. injection Hspawn as _ <- _. by eexists. }
  destruct Hone as [obstacle ->].
  exists σs', this', obstacle. split; [reflexivity |].
  assert (Hband : clamp (500 * 0.0002) 0 1 < 0.2) by reflexivity.
  destruct (early_obstacle_types (segs startWorld) (obss startWorld)
              (osys startWorld) (terr startWorld)
              500 0.3 σs' [obstacle] this' obstacle Hband Hspawn eq_refl)
    as [[_ Hty]|[[[Hr _] _]|[Hr _]]];
    [exact Hty | exfalso; lra | exfalso; lra].
Defined.

(** ** The ground strip *)

Lemma strip_grow σ σ' level refs first next :
  strip σ level refs first next -> strip (σ ++ σ') level refs first next.
Proof.
  revert first. induction refs as [|r rest IH]; intros first; [done |].
  intros (seg & Hr & Hx & Hy & Hw & Hrest).
  exists seg. repeat split; try assumption.
  - by apply lookup_app_l_Some.
  - by apply IH.
Qed.

Lemma strip_snoc σ level refs first next seg :
  Segment.x seg = next -> Segment.y seg = level -> Segment.width seg = 150 ->
  strip σ level refs first next ->
  strip (σ ++ [seg]) level (refs ++ [length σ]) first (next + 150).
Proof.
  intros Hx Hy Hw. revert first.
  induction refs as [|r rest IH]; intros first.
  - cbn. intros ->. exists seg. rewrite list_lookup_middle by reflexivity.
    by repeat split.
  - intros (seg0 & Hr & Hx0 & Hy0 & Hw0 & Hrest).
    exists seg0. repeat split; try assumption.
    + by apply lookup_app_l_Some.
    + by apply IH.
Qed.

Lemma strip_alter σ level refs first next b r :
  strip σ level refs first next ->
  strip (alter (Segment.set_hasGap b) r σ) level refs first next.
Proof.
  revert first. induction refs as [|r0 rest IH]; intros first; [done |].
  intros (seg & Hr & Hx & Hy & Hw & Hrest).
  destruct (decide (r = r0)) as [->|Hne].
  - exists (Segment.set_hasGap b seg). rewrite list_lookup_alter_eq, Hr.
    repeat split; try assumption. by apply IH.
  - exists seg. rewrite list_lookup_alter_ne by done.
    repeat split; try assumption. by apply IH.
Qed.

(** Positions along a strip do not decrease. *)
Lemma strip_lookup σ level refs first next i r :
  strip σ level refs first next ->
  refs !! i = Some r ->
  exists seg,
    σ !! r = Some seg /\ first <= Segment.x seg
    /\ (i = 0%nat -> Segment.x seg = first)
    /\ Segment.y seg = level /\ Segment.width seg = 150
    /\ (forall r2, refs !! S i = Some r2 ->
        exists seg2, σ !! r2 = Some seg2
                     /\ Segment.x seg2 = Segment.x seg + 150)
    /\ (refs !! S i = None -> next = Segment.x seg + 150).
Proof.
  revert first i. induction refs as [|r0 rest IH]; intros first i; [done |].
  intros (seg & Hr & Hx & Hy & Hw & Hrest) Hi.
  destruct i as [|i].
  - injection Hi as <-. exists seg.
    split; [exact Hr |]. split; [rewrite Hx; lra |]. split; [done |].
    split; [exact Hy |]. split; [exact Hw |].
    destruct rest as [|r1 rest'].
    + split; [intros r2 [=] |]. intros _. cbn in Hrest. by rewrite Hx.
    + destruct Hrest as (seg1 & Hr1 & Hx1 & _).
      split; [| intros [=]].
      intros r2 [= <-]. exists seg1. split; [exact Hr1 |]. by rewrite Hx, Hx1.
  - destruct (IH _ _ Hrest Hi) as (s & Hs & Hle & _ & Hrest').
    exists s. split; [exact Hs |]. split; [lra |]. split; [done | exact Hrest'].
Qed.

Lemma strip_drop σ level refs first next k :
  strip σ level refs first next ->
  exists first', strip σ level (drop k refs) first' next.
Proof.
  revert first refs. induction k as [|k IH]; intros first refs Hstrip.
  - by exists first.
  - destruct refs as [|r rest]; [by exists first |].
    destruct Hstrip as (seg & _ & _ & _ & _ & Hrest). exact (IH _ _ Hrest).
Qed.

(** Once a segment of the strip is in view, all later ones are. *)
Lemma strip_all_in_view σ level refs first next cam :
  strip σ level refs first next ->
  cam - 100 < first + 150 ->
  List.filter (Terrain.inView σ cam) refs = refs.
Proof.
  revert first. induction refs as [|r rest IH]; intros first; [done |].
  intros (seg & Hr & Hx & Hy & Hw & Hrest) Hcam.
  cbn [List.filter]. unfold Terrain.inView at 1. rewrite Hr, Hx, Hw.
  rewrite (proj2 (gt_true _ _) Hcam).
  f_equal. apply (IH _ Hrest). lra.
Qed.

(** The recycling [filter] drops a prefix of the strip. *)
Lemma strip_filter σ level refs first next cam :
  strip σ level refs first next ->
  exists k,
    (k <= length refs)%nat
    /\ List.filter (Terrain.inView σ cam) refs = drop k refs.
Proof.
  revert first. induction refs as [|r rest IH]; intros first Hstrip.
  - by exists 0%nat.
  - destruct (Terrain.inView σ cam r) eqn:Hview.
    + exists 0%nat. split; [lia |]. cbn [drop].
      pose proof Hstrip as (seg & Hr & Hx & Hy & Hw & Hrest).
      apply (strip_all_in_view _ _ _ _ _ _ Hstrip).
      unfold Terrain.inView in Hview. rewrite Hr, Hx, Hw in Hview.
      by apply gt_true in Hview.
    + destruct Hstrip as (seg & _ & _ & _ & _ & Hrest).
      destruct (IH _ Hrest) as (k & Hk & Hdrop).
      exists (S k). split; [cbn; lia |].
      cbn [List.filter drop]. by rewrite Hview.
Qed.

(** The array of the terrain is a strip. *)
Lemma terrain_strip n σ this :
  terrain_inv n σ this ->
  exists first,
    strip σ (Terrain.baseY this) (Terrain.segments this) first
          (Terrain.nextSegmentX this).
Proof.
  intros [_ _ _ Hall (k & _ & ->)]. exact (strip_drop _ _ _ _ _ k Hall).
Qed.

Lemma generateSegment_inv n σ this :
  terrain_inv n σ this ->
  terrain_inv n (Terrain.generateSegment σ this).1
                (Terrain.generateSegment σ this).2.
Proof.
  intros [Hw Hl Hbase Hall (k & Hk & Hwin)]. unfold Terrain.generateSegment.
  assert (Hseq : seq n (length (σ ++ [Segment.mk (Terrain.nextSegmentX this)
                                        (Terrain.baseY this)
                                        (Terrain.segmentWidth this) 20 false])
                        - n)
                 = seq n (length σ - n) ++ [length σ]).
  { rewrite length_app. cbn [length].
    replace (length σ + 1 - n)%nat with (S (length σ - n)) by lia.
    rewrite seq_S. do 2 f_equal. lia. }
  split; cbn [fst snd Terrain.segmentWidth Terrain.baseY Terrain.canvasHeight
              Terrain.nextSegmentX Terrain.segments]; try assumption.
  - rewrite length_app. cbn. lia.
  - rewrite Hseq, Hw. by apply strip_snoc.
  - exists k. rewrite Hseq. split.
    + rewrite length_app. cbn. lia.
    + rewrite Hwin. symmetry. apply drop_app_le. by rewrite length_seq.
Qed.

Lemma generateSegments_inv m n σ this :
  terrain_inv n σ this ->
  terrain_inv n (Terrain.generateSegments m σ this).1
                (Terrain.generateSegments m σ this).2.
Proof.
  revert σ this. induction m as [|m IH]; intros σ this Hinv; [exact Hinv |].
  cbn [Terrain.generateSegments].
  pose proof (generateSegment_inv n σ this Hinv) as Hstep.
  destruct (Terrain.generateSegment σ this) as [σ1 this1]. by apply IH.
Qed.

Lemma generateWhile_inv fuel rightEdge n σ this :
  terrain_inv n σ this ->
  terrain_inv n (Terrain.generateWhile fuel rightEdge σ this).1
                (Terrain.generateWhile fuel rightEdge σ this).2.
Proof.
  revert σ this. induction fuel as [|fuel IH]; intros σ this Hinv;
    [exact Hinv |].
  cbn [Terrain.generateWhile].
  destruct (JS.lt (Terrain.nextSegmentX this) rightEdge); [| exact Hinv].
  pose proof (generateSegment_inv n σ this Hinv) as Hstep.
  destruct (Terrain.generateSegment σ this) as [σ1 this1]. by apply IH.
Qed.

(** [init] starts a run: its segments are the ones allocated from now
    on. *)
Lemma init_terrain_inv σ this canvasWidth canvasHeight :
  Terrain.segmentWidth this = 150 ->
  terrain_inv (length σ)
    (Terrain.init σ this canvasWidth canvasHeight).1
    (Terrain.init σ this canvasWidth canvasHeight).2.
Proof.
  intros Hw. unfold Terrain.init. apply generateSegments_inv.
  split; cbn [Terrain.segmentWidth Terrain.baseY Terrain.canvasHeight
              Terrain.nextSegmentX Terrain.segments];
    [exact Hw | reflexivity | lia | by rewrite Nat.sub_diag |].
  exists 0%nat. by rewrite Nat.sub_diag.
Qed.

Lemma update_terrain_inv n σ this deltaTime distance herbieX :
  terrain_inv n σ this ->
  terrain_inv n (Terrain.update σ this deltaTime distance herbieX).1
                (Terrain.update σ this deltaTime distance herbieX).2.
Proof.
  intros [Hw Hl Hbase Hall Hwin]. unfold Terrain.update. cbn zeta.
  match goal with
  | |- context [Terrain.generateWhile ?f ?e σ ?t] =>
      pose proof (generateWhile_inv f e n σ t) as Hloop;
      destruct (Terrain.generateWhile f e σ t) as [σ2 this2]
  end.
  assert (Hinv2 : terrain_inv n σ2 this2) by (apply Hloop; by split).
  destruct (terrain_strip _ _ _ Hinv2) as [first Hstrip2].
  destruct Hinv2 as [Hw2 Hl2 Hbase2 Hall2 (k & Hk & Hwin2)].
  cbn [fst snd] in *.
  split; cbn [Terrain.segmentWidth Terrain.baseY Terrain.canvasHeight
              Terrain.nextSegmentX Terrain.segments]; try assumption.
  destruct (strip_filter _ _ _ _ _ (Terrain.cameraX this2) Hstrip2)
    as (k' & Hk' & ->).
  exists (k + k')%nat. rewrite Hwin2, drop_drop. split; [| reflexivity].
  rewrite Hwin2, length_drop, length_seq in Hk'. lia.
Qed.

Lemma alter_terrain_inv n σ this b r :
  terrain_inv n σ this ->
  terrain_inv n (alter (Segment.set_hasGap b) r σ) this.
Proof.
  intros [Hw Hl Hbase Hall Hwin]. split; try assumption.
  - by rewrite length_alter.
  - rewrite length_alter. by apply strip_alter.
  - by rewrite length_alter.
Qed.

Lemma div_le_mult a b c : 0 < b -> a / b <= c -> a <= c * b.
Proof.
  intros Hb Hle.
  assert (Ha : a == a / b * b) by (field; lra).
  rewrite Ha. apply Qmult_le_compat_r; lra.
Qed.

(** The loop of [update] runs to its exit condition: the bound on its
    iterations is never what stops it. *)
Lemma generateWhile_exits fuel rightEdge σ this :
  0 < Terrain.segmentWidth this ->
  (rightEdge - Terrain.nextSegmentX this) / Terrain.segmentWidth this
  <= inject_Z (Z.of_nat fuel) ->
  rightEdge
  <= Terrain.nextSegmentX (Terrain.generateWhile fuel rightEdge σ this).2.
Proof.
  revert σ this. induction fuel as [|fuel IH]; intros σ this Hw Hfuel.
  - cbn. apply div_le_mult in Hfuel; [| exact Hw].
    change (inject_Z (Z.of_nat 0)) with 0 in Hfuel. lra.
  - cbn [Terrain.generateWhile].
    js_case (JS.lt (Terrain.nextSegmentX this) rightEdge); [| exact E].
    unfold Terrain.generateSegment. apply IH; cbn; [exact Hw |].
    rewrite inject_nat_succ in Hfuel.
    apply Qle_shift_div_r; [exact Hw |].
    apply div_le_mult in Hfuel; [| exact Hw]. lra.
Qed.

Lemma segmentsNeeded_enough this rightEdge :
  (rightEdge - Terrain.nextSegmentX this) / Terrain.segmentWidth this
  <= inject_Z (Z.of_nat (Terrain.segmentsNeeded this rightEdge)).
Proof.
  unfold Terrain.segmentsNeeded.
  set (v := (rightEdge - Terrain.nextSegmentX this) / Terrain.segmentWidth this).
  apply Qle_trans with (inject_Z (Qceiling v)); [apply Qle_ceiling |].
  rewrite <- Zle_Qle. lia.
Qed.

Lemma generateWhile_camera fuel rightEdge σ this :
  Terrain.cameraX (Terrain.generateWhile fuel rightEdge σ this).2
  = Terrain.cameraX this
  /\ Terrain.canvasWidth (Terrain.generateWhile fuel rightEdge σ this).2
     = Terrain.canvasWidth this.
Proof.
  revert σ this. induction fuel as [|fuel IH]; intros σ this; [done |].
  cbn [Terrain.generateWhile].
  destruct (JS.lt (Terrain.nextSegmentX this) rightEdge); [| done].
  unfold Terrain.generateSegment.
  match goal with
  | |- context [Terrain.generateWhile fuel rightEdge ?σ1 ?t1] =>
      destruct (IH σ1 t1) as [-> ->]
  end.
  done.
Qed.

(** After [update] the ground reaches the right edge of the look-ahead:
    the loop has run until [nextSegmentX >= cameraX + canvasWidth + 200]. *)
Lemma update_generates_ahead σ this deltaTime distance herbieX :
  0 < Terrain.segmentWidth this ->
  let terrain' := (Terrain.update σ this deltaTime distance herbieX).2 in
  Terrain.cameraX terrain' + Terrain.canvasWidth terrain' + 200
  <= Terrain.nextSegmentX terrain'.
Proof.
  intros Hw. unfold Terrain.update. cbn zeta.
  match goal with
  | |- context [Terrain.generateWhile ?f ?e σ ?t] =>
      pose proof (generateWhile_exits f e σ t Hw
                    (segmentsNeeded_enough t e)) as Hexit;
      pose proof (generateWhile_camera f e σ t) as [Hcam Hcw];
      destruct (Terrain.generateWhile f e σ t) as [σ2 this2]
  end.
  cbn [fst snd Terrain.cameraX Terrain.canvasWidth Terrain.nextSegmentX] in *.
  by rewrite Hcam, Hcw.
Qed.

(** The obstacle system touches the segment store through gap flags
    only. *)
Lemma spawnObstacle_segs σs σo this terrain distance rand :
  reflagged σs
    (ObstacleSystem.spawnObstacle σs σo this terrain distance rand).1.1.
Proof.
  unfold ObstacleSystem.spawnObstacle. cbn zeta.
  destruct (Terrain.findSegment _ _ _) as [ref|]; [| by left].
  destruct (σs !! ref) as [segment|]; [| by left].
  destruct (ObstacleSystem.chooseType _ _); cbn;
    [right; by exists true, ref | by left..].
Qed.

Lemma update_segs σs σo this deltaTime terrain distance rand jitter :
  reflagged σs
    (ObstacleSystem.update σs σo this deltaTime terrain distance rand
       jitter).1.1.
Proof.
  unfold ObstacleSystem.update.
  destruct (JS.gt distance (ObstacleSystem.nextObstacleDistance this));
    [| by left].
  pose proof (spawnObstacle_segs σs σo this terrain distance rand) as Hsp.
  by destruct (ObstacleSystem.spawnObstacle σs σo this terrain distance rand)
    as [[σs' σo'] this'].
Qed.

Lemma clearObstacle_segs σs σo this ref now hit σs' σo' this' :
  ObstacleSystem.clearObstacle σs σo this ref now
  = Some (hit, (σs', σo', this')) ->
  reflagged σs σs'.
Proof.
  unfold ObstacleSystem.clearObstacle.
  destruct (σo !! ref) as [obstacle|]; [| discriminate].
  cbn [mbind option_bind].
  destruct (Obstacle.cleared obstacle || Obstacle.clearing obstacle).
  - intros [= _ <- _ _]. by left.
  - intros [= _ <- _ _].
    destruct (Obstacle.type obstacle); try by left.
    destruct (Obstacle.segment obstacle) as [seg|]; [| by left].
    right. by exists false, seg.
Qed.

Lemma reflagged_terrain_inv n σ σ' this :
  reflagged σ σ' -> terrain_inv n σ this -> terrain_inv n σ' this.
Proof.
  intros [-> | (b & r & ->)] Hinv; [exact Hinv | by apply alter_terrain_inv].
Qed.

Lemma run_terrain_inv n w : run n w -> terrain_inv n (segs w) (terr w).
Proof.
  induction 1 as [cw ch | n w cw ch _ IH | n w dt distance herbieX _ IH
                  | n w dt distance rand jitter _ IH
                  | n w ref now hit w' _ IH Htap].
  - unfold startGame.
    pose proof (init_terrain_inv (segs newWorld) (terr newWorld) cw ch
                  eq_refl) as Hinit.
    by destruct (Terrain.init _ _ cw ch).
  - unfold startGame.
    pose proof (init_terrain_inv (segs w) (terr w) cw ch
                  (tinv_width _ _ _ IH)) as Hinit.
    by destruct (Terrain.init _ _ cw ch).
  - unfold terrainUpdate.
    pose proof (update_terrain_inv n _ _ dt distance herbieX IH) as Hup.
    by destruct (Terrain.update _ _ dt distance herbieX).
  - unfold obstaclesUpdate.
    pose proof (update_segs (segs w) (obss w) (osys w) dt (terr w) distance
                  rand jitter) as Hfl.
    destruct (ObstacleSystem.update _ _ _ dt _ distance rand jitter)
      as [[σs σo] this].
    exact (reflagged_terrain_inv _ _ _ _ Hfl IH).
  - unfold tapObstacle in Htap.
    destruct (ObstacleSystem.clearObstacle _ _ _ ref now)
      as [[hit' [[σs σo] this]]|] eqn:Hclear; [| discriminate].
    injection Htap as _ <-.
    exact (reflagged_terrain_inv _ _ _ _
             (clearObstacle_segs _ _ _ _ _ _ _ _ _ Hclear) IH).
Qed.

(** ** Ground queries on a strip *)

Lemma covers_true px seg :
  Terrain.covers px seg = true
  <-> Segment.x seg <= px < Segment.x seg + Segment.width seg.
Proof.
  unfold Terrain.covers. rewrite andb_true_iff, ge_true, lt_true. tauto.
Qed.

Lemma findSegment_Some σ refs px r :
  Terrain.findSegment σ refs px = Some r ->
  exists i seg,
    refs !! i = Some r /\ σ !! r = Some seg /\ Terrain.covers px seg = true.
Proof.
  induction refs as [|r0 rest IH]; [discriminate |].
  cbn [Terrain.findSegment].
  destruct (σ !! r0) as [seg0|] eqn:Hr0.
  - destruct (Terrain.covers px seg0) eqn:Hc.
    + intros [= <-]. by exists 0%nat, seg0.
    + intros Hf. destruct (IH Hf) as (i & seg & ? & ? & ?).
      by exists (S i), seg.
  - intros Hf. destruct (IH Hf) as (i & seg & ? & ? & ?). by exists (S i), seg.
Qed.

(** On a strip the segments do not overlap, so the search finds the one
    segment that covers the position. *)
Lemma findSegment_strip σ level refs first next px i r seg :
  strip σ level refs first next ->
  refs !! i = Some r -> σ !! r = Some seg ->
  Terrain.covers px seg = true ->
  Terrain.findSegment σ refs px = Some r.
Proof.
  revert first i. induction refs as [|r0 rest IH]; intros first i; [done |].
  intros (seg0 & Hr0 & Hx0 & Hy0 & Hw0 & Hrest) Hi Hr Hc.
  cbn [Terrain.findSegment]. rewrite Hr0.
  destruct i as [|i].
  - injection Hi as ->. rewrite Hr in Hr0. injection Hr0 as <-.
    by rewrite Hc.
  - cbn in Hi.
    destruct (strip_lookup _ _ _ _ _ _ _ Hrest Hi) as (s & Hs & Hle & _).
    rewrite Hr in Hs. injection Hs as <-.
    apply covers_true in Hc.
    replace (Terrain.covers px seg0) with false.
    + exact (IH _ _ Hrest Hi Hr (proj2 (covers_true _ _) Hc)).
    + symmetry. apply not_true_iff_false. rewrite covers_true, Hx0, Hw0. lra.
Qed.

(** C10. In every world of a run the ground is flat and contiguous.
    Every segment generated in the run (the store holds them from
    reference [n] on, in the order of their creation, recycled or not) has
    the height [0.7 * canvasHeight] and the width 150; the first starts at
    0, each next one where the previous one ends, and the generation edge
    [nextSegmentX] is the end of the last one.  [generateSegment] adds
    exactly such a segment at the edge and advances the edge by 150.  The
    segments of the terrain's array are consecutive, ordered by [x] and do
    not overlap.  [getYAtX] returns nothing but that height, and returns it
    for every [x] that a segment of the array without a gap covers. *)
Theorem flat_contiguous_terrain n w :
  run n w ->
  let level := Terrain.canvasHeight (terr w) * 0.7 in
  (forall r seg,
      (n <= r)%nat -> segs w !! r = Some seg ->
      Segment.y seg = level
      /\ Segment.width seg = 150
      /\ (r = n -> Segment.x seg = 0)
      /\ (forall seg2,
            segs w !! S r = Some seg2 ->
            Segment.x seg2 = Segment.x seg + 150)
      /\ (segs w !! S r = None ->
          Terrain.nextSegmentX (terr w) = Segment.x seg + 150))
  /\ (forall i r,
        Terrain.segments (terr w) !! i = Some r ->
        (n <= r)%nat
        /\ exists seg,
            segs w !! r = Some seg
            /\ (forall r2,
                  Terrain.segments (terr w) !! S i = Some r2 -> r2 = S r)
            /\ (Terrain.segments (terr w) !! S i = None ->
                Terrain.nextSegmentX (terr w) = Segment.x seg + 150))
  /\ (forall i j ri rj si sj,
        (i < j)%nat ->
        Terrain.segments (terr w) !! i = Some ri -> segs w !! ri = Some si ->
        Terrain.segments (terr w) !! j = Some rj -> segs w !! rj = Some sj ->
        Segment.x si + Segment.width si <= Segment.x sj)
  /\ (let '(σ', terrain') := Terrain.generateSegment (segs w) (terr w) in
      exists r seg,
        Terrain.segments terrain' = Terrain.segments (terr w) ++ [r]
        /\ σ' !! r = Some seg
        /\ Segment.x seg = Terrain.nextSegmentX (terr w)
        /\ Segment.y seg = level
        /\ Segment.width seg = 150
        /\ Terrain.nextSegmentX terrain'
           = Terrain.nextSegmentX (terr w) + 150)
  /\ (forall px v,
        Terrain.getYAtX (segs w) (terr w) px = Some v -> v = level)
  /\ (forall px i r seg,
        Terrain.segments (terr w) !! i = Some r ->
        segs w !! r = Some seg ->
        Terrain.covers px seg = true ->
        Segment.hasGap seg = false ->
        Terrain.getYAtX (segs w) (terr w) px = Some level).
Proof.
  intros Hrun level.
  pose proof (run_terrain_inv n w Hrun) as Hinv.
  destruct (terrain_strip _ _ _ Hinv) as [first Hstrip].
  destruct Hinv as [Hw Hl Hbase Hall (k & Hk & Hwin)].
  fold level in Hl. rewrite Hl in Hstrip, Hall.
  split; [| split; [| split; [| split; [| split]]]].
  - intros r seg Hnr Hr.
    pose proof (lookup_lt_Some _ _ _ Hr) as Hlt.
    assert (Hi : seq n (length (segs w) - n) !! (r - n)%nat = Some r).
    { rewrite lookup_seq. lia. }
    destruct (strip_lookup _ _ _ _ _ _ _ Hall Hi)
      as (s & Hs & _ & Hfirst & Hy & Hwd & Hnext & Hlast).
    rewrite Hr in Hs. injection Hs as <-.
    split; [exact Hy |]. split; [exact Hwd |].
    split; [intros ->; apply Hfirst; lia |]. split.
    + intros seg2 Hr2. pose proof (lookup_lt_Some _ _ _ Hr2) as Hlt2.
      destruct (Hnext (S r)) as (s2 & Hs2 & Hx2); [rewrite lookup_seq; lia |].
      rewrite Hr2 in Hs2. by injection Hs2 as <-.
    + intros Hnone. apply Hlast. apply lookup_seq_ge.
      apply lookup_ge_None in Hnone. lia.
  - intros i r Hi. rewrite Hwin, lookup_drop, lookup_seq in Hi.
    destruct Hi as [-> Hlt]. split; [lia |].
    destruct (lookup_lt_is_Some_2 (segs w) (n + (k + i))) as [seg Hseg];
      [lia |].
    exists seg. split; [exact Hseg |]. split.
    + intros r2. rewrite Hwin, lookup_drop, lookup_seq. lia.
    + intros Hnone.
      assert (Hi : Terrain.segments (terr w) !! i = Some (n + (k + i))%nat).
      { rewrite Hwin, lookup_drop, lookup_seq. lia. }
      destruct (strip_lookup _ _ _ _ _ _ _ Hstrip Hi)
        as (s & Hs & _ & _ & _ & _ & _ & Hlast).
      rewrite Hseg in Hs. injection Hs as <-. by apply Hlast.
  - intros i j ri rj si sj Hij Hi Hri Hj Hrj.
    assert (Hdrop : exists first',
               strip (segs w) level (drop (S i) (Terrain.segments (terr w)))
                     first' (Terrain.nextSegmentX (terr w))
               /\ Segment.x si + Segment.width si <= first').
    { clear Hj Hrj Hij Hwin. revert first i Hstrip Hi.
      generalize (Terrain.segments (terr w)) as refs.
      induction refs as [|r0 rest IH]; intros first i Hstrip Hi; [done |].
      destruct Hstrip as (seg0 & Hr0 & Hx0 & Hy0 & Hw0 & Hrest).
      destruct i as [|i].
      - injection Hi as ->. rewrite Hri in Hr0. injection Hr0 as <-.
        exists (first + 150). split; [exact Hrest |]. rewrite Hx0, Hw0. lra.
      - exact (IH _ _ Hrest Hi). }
    destruct Hdrop as (first' & Hrest & Hle).
    assert (Hj' : drop (S i) (Terrain.segments (terr w)) !! (j - S i)%nat
                  = Some rj).
    { rewrite lookup_drop. replace (S i + (j - S i))%nat with j by lia.
      exact Hj. }
    destruct (strip_lookup _ _ _ _ _ _ _ Hrest Hj') as (s & Hs & Hge & _).
    rewrite Hrj in Hs. injection Hs as <-. lra.
  - unfold Terrain.generateSegment. cbn.
    exists (length (segs w)). eexists.
    split; [reflexivity |].
    split; [by apply list_lookup_middle |].
    cbn. by rewrite Hw, Hl.
  - intros px v. unfold Terrain.getYAtX.
    destruct (Terrain.findSegment _ _ px) as [r|] eqn:Hfind; [| discriminate].
    destruct (findSegment_Some _ _ _ _ Hfind) as (i & seg & Hi & Hr & _).
    rewrite Hr. destruct (Segment.hasGap seg); [discriminate |].
    intros [= <-].
    destruct (strip_lookup _ _ _ _ _ _ _ Hstrip Hi)
      as (s & Hs & _ & _ & Hy & _).
    rewrite Hr in Hs. by injection Hs as <-.
  - intros px i r seg Hi Hr Hc Hgap. unfold Terrain.getYAtX.
    rewrite (findSegment_strip _ _ _ _ _ _ _ _ _ Hstrip Hi Hr Hc), Hr, Hgap.
    cbn. f_equal.
    destruct (strip_lookup _ _ _ _ _ _ _ Hstrip Hi)
      as (s & Hs & _ & _ & Hy & _).
    rewrite Hr in Hs. by injection Hs as <-.
Qed.

(** After the start of a run and one terrain update, the ground under
    [x = 1000] is at 0.7 of the canvas height. *)
Lemma flat_contiguous_terrain_witness :
  Terrain.getYAtX (segs firstScroll) (terr firstScroll) 1000
  = Some (Terrain.canvasHeight (terr firstScroll) * 0.7).
Proof.
  assert (Hrun : run 0 firstScroll) by apply run_terrain, run_start.
  destruct (flat_contiguous_terrain 0 firstScroll Hrun)
    as (_ & _ & _ & _ & _ & Hget).
  destruct (segs firstScroll !! 6%nat) as [seg|] eqn:Hseg;
    [| vm_compute in Hseg; discriminate].
  apply (Hget 1000 6%nat 6%nat seg); [vm_compute; reflexivity | exact Hseg | |];
    vm_compute in Hseg; injection Hseg as <-; reflexivity.
Defined.

(** ** Gap flags and their owners *)

Lemma extended_refl σ : extended σ σ.
Proof. exists []. by rewrite app_nil_r. Qed.

Lemma extended_trans σ1 σ2 σ3 :
  extended σ1 σ2 -> extended σ2 σ3 -> extended σ1 σ3.
Proof.
  intros (l1 & -> & H1) (l2 & -> & H2). exists (l1 ++ l2).
  split; [by rewrite app_assoc | by apply Forall_app].
Qed.

Lemma generateSegment_extended σ this :
  extended σ (Terrain.generateSegment σ this).1.
Proof. eexists. split; [reflexivity |]. by repeat constructor. Qed.

Lemma generateSegments_extended n σ this :
  extended σ (Terrain.generateSegments n σ this).1.
Proof.
  revert σ this. induction n as [|n IH]; intros σ this;
    [apply extended_refl |].
  cbn [Terrain.generateSegments].
  pose proof (generateSegment_extended σ this) as Hstep.
  destruct (Terrain.generateSegment σ this) as [σ1 this1].
  exact (extended_trans _ _ _ Hstep (IH σ1 this1)).
Qed.

Lemma generateWhile_extended fuel rightEdge σ this :
  extended σ (Terrain.generateWhile fuel rightEdge σ this).1.
Proof.
  revert σ this. induction fuel as [|fuel IH]; intros σ this;
    [apply extended_refl |].
  cbn [Terrain.generateWhile].
  destruct (JS.lt (Terrain.nextSegmentX this) rightEdge);
    [| apply extended_refl].
  pose proof (generateSegment_extended σ this) as Hstep.
  destruct (Terrain.generateSegment σ this) as [σ1 this1].
  exact (extended_trans _ _ _ Hstep (IH σ1 this1)).
Qed.

Lemma update_extended σ this deltaTime distance herbieX :
  extended σ (Terrain.update σ this deltaTime distance herbieX).1.
Proof.
  unfold Terrain.update. cbn zeta.
  match goal with
  | |- context [Terrain.generateWhile ?f ?e σ ?t] =>
      pose proof (generateWhile_extended f e σ t) as Hloop;
      destruct (Terrain.generateWhile f e σ t) as [σ2 this2]
  end.
  exact Hloop.
Qed.

Lemma gaps_owned_extended σs σs' σo :
  extended σs σs' -> gaps_owned σs σo -> gaps_owned σs' σo.
Proof.
  intros (fresh & -> & Hfresh) Hown r seg Hr Hgap.
  apply lookup_app_Some in Hr as [Hr | [_ Hr]].
  - exact (Hown r seg Hr Hgap).
  - rewrite Forall_lookup in Hfresh. rewrite (Hfresh _ _ Hr) in Hgap.
    discriminate.
Qed.

Lemma aged_refl σo : aged σo σo.
Proof. intros ref o Ho. exists o. by repeat split. Qed.

Lemma aged_trans σ1 σ2 σ3 : aged σ1 σ2 -> aged σ2 σ3 -> aged σ1 σ3.
Proof.
  intros H12 H23 ref o Ho.
  destruct (H12 ref o Ho) as (o2 & Ho2 & Hty & Hseg & Hcl & Hcd).
  destruct (H23 ref o2 Ho2) as (o3 & Ho3 & Hty' & Hseg' & Hcl' & Hcd').
  exists o3. split; [exact Ho3 |].
  split; [congruence |]. split; [congruence |]. split; [congruence |].
  intros Hc. rewrite Hcd' by congruence. by apply Hcd.
Qed.

Lemma aged_app σo fresh : aged σo (σo ++ fresh).
Proof.
  intros ref o Ho. exists o. split; [by apply lookup_app_l_Some |].
  by repeat split.
Qed.

Lemma aged_alter σo deltaTime ref :
  aged σo (alter (ObstacleSystem.age deltaTime) ref σo).
Proof.
  intros ref0 o Ho. destruct (decide (ref = ref0)) as [->|Hne].
  - exists (ObstacleSystem.age deltaTime o).
    rewrite list_lookup_alter_eq, Ho.
    split; [reflexivity |]. split; [reflexivity |]. split; [reflexivity |].
    split; [reflexivity |]. intros Hc. cbn. by rewrite Hc.
  - exists o. rewrite list_lookup_alter_ne by done. by repeat split.
Qed.

Lemma aged_foldl deltaTime refs σo :
  aged σo (foldl (fun σ ref => alter (ObstacleSystem.age deltaTime) ref σ)
                 σo refs).
Proof.
  revert σo. induction refs as [|ref refs IH]; intros σo;
    [apply aged_refl |].
  cbn [foldl]. exact (aged_trans _ _ _ (aged_alter σo deltaTime ref) (IH _)).
Qed.

Lemma gaps_owned_aged σs σo σo' :
  aged σo σo' -> gaps_owned σs σo -> gaps_owned σs σo'.
Proof.
  intros Haged Hown r seg Hr Hgap.
  destruct (Hown r seg Hr Hgap) as (ref & o & Ho & Hty & Hseg & Hcl & Hcd).
  destruct (Haged ref o Ho) as (o' & Ho' & Hty' & Hseg' & Hcl' & Hcd').
  exists ref, o'. split; [exact Ho' |].
  split; [congruence |]. split; [congruence |]. split; [congruence |].
  rewrite Hcd' by exact Hcl. exact Hcd.
Qed.

(** [spawnObstacle] either does nothing (no segment under the spawn
    position) or adds the obstacle of the chosen type on the segment
    found, flagging the segment when the type is a gap. *)
Lemma spawnObstacle_cases σs σo this terrain distance rand :
  ObstacleSystem.spawnObstacle σs σo this terrain distance rand
  = (σs, σo, this)
  \/ exists ref segment,
       σs !! ref = Some segment
       /\ let type :=
            ObstacleSystem.chooseType (ObstacleSystem.difficultyAt distance)
                                      rand in
          ObstacleSystem.spawnObstacle σs σo this terrain distance rand
          = (match type with
             | Obstacle.gap => alter (Segment.set_hasGap true) ref σs
             | _ => σs
             end,
             σo ++ [ObstacleSystem.makeObstacle type ref segment],
             ObstacleSystem.push (length σo) this).
Proof.
  unfold ObstacleSystem.spawnObstacle. cbn zeta.
  destruct (Terrain.findSegment _ _ _) as [ref|]; [| by left].
  destruct (σs !! ref) as [segment|] eqn:Href; [| by left].
  right. by exists ref, segment.
Qed.

Lemma gaps_owned_spawn σs σo this terrain distance rand :
  gaps_owned σs σo ->
  let '(σs', σo', _) :=
    ObstacleSystem.spawnObstacle σs σo this terrain distance rand in
  gaps_owned σs' σo'.
Proof.
  intros Hown.
  destruct (spawnObstacle_cases σs σo this terrain distance rand)
    as [-> | (ref & segment & Href & ->)]; [exact Hown |].
  set (type := ObstacleSystem.chooseType _ _).
  assert (Hold : gaps_owned σs (σo ++ [ObstacleSystem.makeObstacle type ref
                                         segment])).
  { exact (gaps_owned_aged _ _ _ (aged_app σo _) Hown). }
  destruct type eqn:Hty; try exact Hold.
  intros r seg Hr Hgap. destruct (decide (ref = r)) as [<-|Hne].
  - exists (length σo). eexists.
    split; [by apply list_lookup_middle |]. by repeat split.
  - rewrite list_lookup_alter_ne in Hr by done. exact (Hold r seg Hr Hgap).
Qed.

Lemma gaps_owned_update σs σo this deltaTime terrain distance rand jitter :
  gaps_owned σs σo ->
  let '(σs', σo', _) :=
    ObstacleSystem.update σs σo this deltaTime terrain distance rand jitter in
  gaps_owned σs' σo'.
Proof.
  intros Hown. unfold ObstacleSystem.update.
  destruct (JS.gt distance (ObstacleSystem.nextObstacleDistance this)).
  - pose proof (gaps_owned_spawn σs σo this terrain distance rand Hown) as Hsp.
    destruct (ObstacleSystem.spawnObstacle σs σo this terrain distance rand)
      as [[σs1 σo1] this1].
    exact (gaps_owned_aged _ _ _ (aged_foldl _ _ _) Hsp).
  - exact (gaps_owned_aged _ _ _ (aged_foldl _ _ _) Hown).
Qed.

Lemma gaps_owned_clear σs σo this ref now hit σs' σo' this' :
  gaps_owned σs σo ->
  ObstacleSystem.clearObstacle σs σo this ref now
  = Some (hit, (σs', σo', this')) ->
  gaps_owned σs' σo'.
Proof.
  intros Hown. unfold ObstacleSystem.clearObstacle.
  destruct (σo !! ref) as [o|] eqn:Ho; [| discriminate].
  cbn [mbind option_bind].
  destruct (Obstacle.cleared o || Obstacle.clearing o).
  { intros [= _ <- <- _]. exact Hown. }
  intros [= _ <- <- _]. intros r seg' Hr Hgap.
  assert (Hkept : (exists seg, σs !! r = Some seg
                               /\ Segment.hasGap seg = true)
                  /\ ~ (Obstacle.type o = Obstacle.gap
                        /\ Obstacle.segment o = Some r)).
  { destruct (Obstacle.type o) eqn:Hty;
      try (split; [by exists seg' | intros [? _]; discriminate]).
    destruct (Obstacle.segment o) as [s|] eqn:Hseg;
      [| split; [by exists seg' | intros [_ ?]; discriminate]].
    destruct (decide (s = r)) as [->|Hne].
    - rewrite list_lookup_alter_eq in Hr.
      destruct (σs !! r) as [seg0|]; [| discriminate].
      injection Hr as <-. discriminate.
    - rewrite list_lookup_alter_ne in Hr by done.
      split; [by exists seg' | intros [_ [= ?]]; done]. }
  destruct Hkept as [(seg & Hseg & Hflag) Hnot].
  destruct (Hown r seg Hseg Hflag) as (ref0 & o0 & Ho0 & Hty & Hsg & Hcl & Hcd).
  exists ref0, o0. split; [| by repeat split].
  rewrite list_lookup_insert_ne; [exact Ho0 |].
  intros ->. rewrite Ho in Ho0. injection Ho0 as ->. by apply Hnot.
Qed.

Lemma run_gaps_owned n w : run n w -> gaps_owned (segs w) (obss w).
Proof.
  induction 1 as [cw ch | n w cw ch _ IH | n w dt distance herbieX _ IH
                  | n w dt distance rand jitter _ IH
                  | n w ref now hit w' _ IH Htap].
  - intros r seg Hr Hgap. exfalso. revert Hr Hgap. unfold startGame.
    pose proof (generateSegments_extended 10 []
                  (Terrain.mk 0 (Terrain.scrollSpeed Terrain.new) []
                     (Terrain.segmentWidth Terrain.new) (ch * 0.7) 0 cw ch))
      as (fresh & Heq & Hfresh).
    unfold Terrain.init. cbn [segs terr newWorld].
    destruct (Terrain.generateSegments 10 [] _) as [σ1 this1].
    cbn [fst segs] in *. subst σ1. cbn [app].
    intros Hr Hgap. rewrite Forall_lookup in Hfresh.
    rewrite (Hfresh _ _ Hr) in Hgap. discriminate.
  - unfold startGame, Terrain.init.
    match goal with
    | |- context [Terrain.generateSegments ?n ?σ ?t] =>
        pose proof (generateSegments_extended n σ t) as Hext;
        destruct (Terrain.generateSegments n σ t) as [σ1 this1]
    end.
    exact (gaps_owned_extended _ _ _ Hext IH).
  - unfold terrainUpdate.
    pose proof (update_extended (segs w) (terr w) dt distance herbieX) as Hext.
    destruct (Terrain.update _ _ dt distance herbieX) as [σ1 this1].
    exact (gaps_owned_extended _ _ _ Hext IH).
  - unfold obstaclesUpdate.
    pose proof (gaps_owned_update (segs w) (obss w) (osys w) dt (terr w)
                  distance rand jitter IH) as Hup.
    by destruct (ObstacleSystem.update _ _ _ dt _ distance rand jitter)
      as [[σs σo] this].
  - unfold tapObstacle in Htap.
    destruct (ObstacleSystem.clearObstacle _ _ _ ref now)
      as [[hit' [[σs σo] this]]|] eqn:Hclear; [| discriminate].
    injection Htap as _ <-.
    exact (gaps_owned_clear _ _ _ _ _ _ _ _ _ IH Hclear).
Qed.



(** * Further properties of the code *)

(** ** Stretch and tension *)

Lemma anyStretched_true m (hs : list Hiker.t) indices :
  HikerSystem.anyStretched m hs indices = true
  <-> exists i a b,
        i ∈ indices /\ hs !! (i - 1)%nat = Some a /\ hs !! i = Some b
        /\ m < Hiker.x a - Hiker.x b.
Proof.
  induction indices as [|i rest IH]; cbn [HikerSystem.anyStretched].
  - split; [discriminate |]. intros (i & a & b & Hin & _). by inversion Hin.
  - destruct (hs !! (i - 1)%nat) as [a|] eqn:Ha, (hs !! i) as [b|] eqn:Hb.
    + js_case (JS.gt (Hiker.x a - Hiker.x b) m).
      * split; [intros _ | done]. exists i, a, b. repeat split; try done.
        apply elem_of_cons. by left.
      * rewrite IH. split.
        -- intros (i' & a' & b' & Hin & Hrest). exists i', a', b'.
           split; [apply elem_of_cons; by right | exact Hrest].
        -- intros (i' & a' & b' & Hin & Ha' & Hb' & Hgt).
           apply elem_of_cons in Hin as [-> | Hin].
           { rewrite Ha in Ha'. rewrite Hb in Hb'.
             injection Ha' as <-. injection Hb' as <-. lra. }
           by exists i', a', b'.
    + rewrite IH. split.
      * intros (i' & a' & b' & Hin & Hrest). exists i', a', b'.
        split; [apply elem_of_cons; by right | exact Hrest].
      * intros (i' & a' & b' & Hin & Ha' & Hb' & Hgt).
        apply elem_of_cons in Hin as [-> | Hin]; [congruence |].
        by exists i', a', b'.
    + rewrite IH. split.
      * intros (i' & a' & b' & Hin & Hrest). exists i', a', b'.
        split; [apply elem_of_cons; by right | exact Hrest].
      * intros (i' & a' & b' & Hin & Ha' & Hb' & Hgt).
        apply elem_of_cons in Hin as [-> | Hin]; [congruence |].
        by exists i', a', b'.
    + rewrite IH. split.
      * intros (i' & a' & b' & Hin & Hrest). exists i', a', b'.
        split; [apply elem_of_cons; by right | exact Hrest].
      * intros (i' & a' & b' & Hin & Ha' & Hb' & Hgt).
        apply elem_of_cons in Hin as [-> | Hin]; [congruence |].
        by exists i', a', b'.
Qed.

(** The indices of the pair loops are the positions of the followers. *)
Lemma pairIndices_elem this i :
  i ∈ HikerSystem.pairIndices this
  <-> (1 <= i < length (HikerSystem.hikers this))%nat.
Proof. unfold HikerSystem.pairIndices. rewrite elem_of_seq. lia. Qed.

Lemma tooStretched_pairs this :
  HikerSystem.isTooStretched this = true
  <-> exists j a b,
        HikerSystem.hikers this !! j = Some a
        /\ HikerSystem.hikers this !! S j = Some b
        /\ HikerSystem.maxStretch this < Hiker.x a - Hiker.x b.
Proof.
  unfold HikerSystem.isTooStretched. rewrite anyStretched_true. split.
  - intros (i & a & b & Hin & Ha & Hb & Hgt).
    apply pairIndices_elem in Hin. exists (i - 1)%nat, a, b.
    replace (S (i - 1)) with i by lia. by repeat split.
  - intros (j & a & b & Ha & Hb & Hgt). exists (S j), a, b.
    split; [| by rewrite Nat.sub_succ, Nat.sub_0_r].
    apply pairIndices_elem. apply lookup_lt_Some in Hb. lia.
Qed.

(** X1. [isTooStretched()] answers [true] exactly when some follower is more
    than [maxStretch] behind the hiker ahead of it; with fewer than two
    hikers it answers [false]. *)
Theorem isTooStretched_iff this :
  (HikerSystem.isTooStretched this = true
   <-> exists j a b,
         HikerSystem.hikers this !! j = Some a
         /\ HikerSystem.hikers this !! S j = Some b
         /\ HikerSystem.maxStretch this < Hiker.x a - Hiker.x b)
  /\ ((length (HikerSystem.hikers this) < 2)%nat ->
      HikerSystem.isTooStretched this = false).
Proof.
  split; [apply tooStretched_pairs |].
  intros Hlen. apply not_true_iff_false. rewrite tooStretched_pairs.
  intros (j & a & b & _ & Hb & _). apply lookup_lt_Some in Hb. lia.
Qed.

Lemma tensionLinesIn_elem th m (hs : list Hiker.t) indices line :
  line ∈ HikerSystem.tensionLinesIn th m hs indices
  <-> exists i,
        i ∈ indices
        /\ hs !! (i - 1)%nat = Some (HikerSystem.to line)
        /\ hs !! i = Some (HikerSystem.from line)
        /\ th < Hiker.x (HikerSystem.to line) - Hiker.x (HikerSystem.from line)
        /\ HikerSystem.tension line
           = JS.div (Hiker.x (HikerSystem.to line)
                     - Hiker.x (HikerSystem.from line) - th) (m - th).
Proof.
  induction indices as [|i rest IH]; cbn [HikerSystem.tensionLinesIn].
  - split; [intros H; by inversion H |].
    intros (i & Hin & _). by inversion Hin.
  - assert (Hskip :
      (hs !! (i - 1)%nat = None \/ hs !! i = None
       \/ exists a b, hs !! (i - 1)%nat = Some a /\ hs !! i = Some b
                       /\ Hiker.x a - Hiker.x b <= th) ->
      line ∈ HikerSystem.tensionLinesIn th m hs rest
      <-> exists i0,
            i0 ∈ i :: rest
            /\ hs !! (i0 - 1)%nat = Some (HikerSystem.to line)
            /\ hs !! i0 = Some (HikerSystem.from line)
            /\ th < Hiker.x (HikerSystem.to line)
                    - Hiker.x (HikerSystem.from line)
            /\ HikerSystem.tension line
               = JS.div (Hiker.x (HikerSystem.to line)
                         - Hiker.x (HikerSystem.from line) - th) (m - th)).
    { intros Hno. rewrite IH. split.
      - intros (i0 & Hin & Hrest). exists i0.
        split; [apply elem_of_cons; by right | exact Hrest].
      - intros (i0 & Hin & Ha & Hb & Hgt & Hten).
        apply elem_of_cons in Hin as [-> | Hin]; [| by exists i0].
        exfalso. destruct Hno as [Hn | [Hn | (a & b & Ha' & Hb' & Hle)]];
          [congruence | congruence |].
        rewrite Ha in Ha'. rewrite Hb in Hb'.
        injection Ha' as <-. injection Hb' as <-. lra. }
    destruct (hs !! (i - 1)%nat) as [a|] eqn:Ha; [| apply Hskip; by left].
    destruct (hs !! i) as [b|] eqn:Hb; [| apply Hskip; right; by left].
    js_case (JS.gt (Hiker.x a - Hiker.x b) th);
      [| apply Hskip; right; right; by exists a, b].
    rewrite elem_of_cons, IH. split.
    + intros [-> | (i0 & Hin & Hrest)].
      * exists i. cbn. split; [apply elem_of_cons; by left | done].
      * exists i0. split; [apply elem_of_cons; by right | exact Hrest].
    + intros (i0 & Hin & Ha' & Hb' & Hgt & Hten).
      apply elem_of_cons in Hin as [-> | Hin]; [left | right; by exists i0].
      rewrite Ha in Ha'. rewrite Hb in Hb'.
      injection Ha' as ->. injection Hb' as ->.
      destruct line as [f t ten]. cbn in *. by rewrite Hten.
Qed.

(** X2. [getTensionLines()] returns one line for each follower that is more
    than twice the spacing behind the hiker ahead, and no other.  When
    [maxStretch] is above twice the spacing (220 against 120 in the
    constructor) the tension of a line is the positive number
    [(gap - 2 * spacing) / (maxStretch - 2 * spacing)], and it is at most 1
    as long as the caravan is not too stretched. *)
Theorem tension_lines_bounded this :
  HikerSystem.spacing this * 2 < HikerSystem.maxStretch this ->
  (forall j a b,
      HikerSystem.hikers this !! j = Some a ->
      HikerSystem.hikers this !! S j = Some b ->
      HikerSystem.spacing this * 2 < Hiker.x a - Hiker.x b ->
      exists line,
        line ∈ HikerSystem.getTensionLines this
        /\ HikerSystem.from line = b /\ HikerSystem.to line = a)
  /\ (forall line,
        line ∈ HikerSystem.getTensionLines this ->
        exists j q,
          HikerSystem.hikers this !! j = Some (HikerSystem.to line)
          /\ HikerSystem.hikers this !! S j = Some (HikerSystem.from line)
          /\ HikerSystem.tension line = JS.Fin q
          /\ q == (Hiker.x (HikerSystem.to line)
                    - Hiker.x (HikerSystem.from line)
                    - HikerSystem.spacing this * 2)
                   / (HikerSystem.maxStretch this
                      - HikerSystem.spacing this * 2)
          /\ 0 < q
          /\ (HikerSystem.isTooStretched this = false -> q <= 1)).
Proof.
  intros Hth. unfold HikerSystem.getTensionLines. split.
  - intros j a b Ha Hb Hgt.
    exists (HikerSystem.mkLine b a
              (JS.div (Hiker.x a - Hiker.x b - HikerSystem.spacing this * 2)
                      (HikerSystem.maxStretch this
                       - HikerSystem.spacing this * 2))).
    split; [| done]. apply tensionLinesIn_elem. exists (S j). cbn.
    split; [apply pairIndices_elem; apply lookup_lt_Some in Hb; lia |].
    by rewrite Nat.sub_0_r.
  - intros line Hin. apply tensionLinesIn_elem in Hin
      as (i & Hi & Ha & Hb & Hgt & Hten).
    apply pairIndices_elem in Hi.
    exists (i - 1)%nat. eexists. split; [exact Ha |].
    replace (S (i - 1)) with i by lia. split; [exact Hb |].
    rewrite Hten. unfold JS.div.
    replace (Qeq_bool (HikerSystem.maxStretch this
                       - HikerSystem.spacing this * 2) 0) with false
      by (symmetry; apply not_true_iff_false; rewrite Qeq_bool_iff; lra).
    split; [reflexivity |]. split; [reflexivity |]. split.
    + apply Qlt_shift_div_l; lra.
    + intros Hok. apply Qle_shift_div_r; [lra |].
      assert (Hle : Hiker.x (HikerSystem.to line)
                    - Hiker.x (HikerSystem.from line)
                    <= HikerSystem.maxStretch this); [| lra].
      apply Qnot_lt_le. intros Hlt.
      apply not_true_iff_false in Hok. apply Hok.
      apply tooStretched_pairs. exists (i - 1)%nat. do 2 eexists.
      split; [exact Ha |]. replace (S (i - 1)) with i by lia.
      split; [exact Hb | exact Hlt].
Qed.

Lemma tension_lines_bounded_witness :
  exists line q,
    line ∈ HikerSystem.getTensionLines farPair
    /\ HikerSystem.tension line = JS.Fin q /\ 0 < q <= 1.
Proof.
  destruct (tension_lines_bounded farPair) as [Hall Hline];
    [reflexivity |].
  destruct (Hall 0%nat (hikerAt 0 1.0 200) (hikerAt 1 1.15 50))
    as (line & Hin & _); [reflexivity | reflexivity | reflexivity |].
  destruct (Hline line Hin) as (j & q & _ & _ & Hten & _ & Hpos & Hle).
  exists line, q. split; [exact Hin |]. split; [exact Hten |].
  split; [exact Hpos | by apply Hle].
Defined.

(** ** The flow multiplier sees the two ends only *)

(** The value [getFlowMultiplier] computes for two or more hikers. *)
Lemma flow_value this a rest :
  HikerSystem.hikers this = a :: rest -> rest <> [] ->
  exists total count,
    total == Qsum (spacings (a :: rest))
    /\ count == inject_Z (Z.of_nat (length rest))
    /\ 0 < count
    /\ HikerSystem.getFlowMultiplier this
       = Some (JS.Math_min 3.0
                 (JS.Math_max 1.0
                    (JS.fin_sub 3.0
                       (JS.div_fin
                          (JS.Math_abs
                             (JS.Fin (total / count
                                      - HikerSystem.spacing this)))
                          (HikerSystem.spacing this))))).
Proof.
  intros Hhs Hrest.
  destruct (flow_loop (a :: rest) rest [] a 0 0 eq_refl)
    as (total & count & Hfold & Htot & Hcnt).
  exists total, count.
  assert (Hpos : 0 < count).
  { rewrite Hcnt. assert (0 < inject_Z (Z.of_nat (length rest))); [| lra].
    change 0 with (inject_Z 0). rewrite <- Zlt_Qlt.
    destruct rest; [done | cbn; lia]. }
  split; [by rewrite Htot, Qplus_0_l |].
  split; [by rewrite Hcnt, Qplus_0_l |]. split; [exact Hpos |].
  unfold HikerSystem.getFlowMultiplier, HikerSystem.pairIndices.
  rewrite Hhs. cbn [length Nat.sub] in *.
  rewrite Nat.sub_0_r, Hfold. cbn [mbind option_bind].
  unfold JS.div at 1.
  replace (Qeq_bool count 0) with false
    by (symmetry; apply not_true_iff_false; rewrite Qeq_bool_iff; lra).
  reflexivity.
Qed.

(** X3. With the spacing 60, the flow multiplier of two or more hikers is
    given, within 0.001, by the distance between the first and the last
    hiker and by their number: how the hikers in between are spread does
    not count.  Over exact numbers the two values are equal; the margin
    covers the rounding of the sum of the gaps in a running game. *)
Theorem flow_multiplier_ends this first last_ :
  HikerSystem.spacing this = 60 ->
  (2 <= length (HikerSystem.hikers this))%nat ->
  head (HikerSystem.hikers this) = Some first ->
  last (HikerSystem.hikers this) = Some last_ ->
  exists q,
    HikerSystem.getFlowMultiplier this = Some (JS.Fin q)
    /\ Qabs (q - clamp
                   (3.0 - Qabs ((Hiker.x first - Hiker.x last_)
                                / inject_Z
                                    (Z.of_nat
                                       (length (HikerSystem.hikers this) - 1))
                                - 60) / 60)
                   1.0 3.0)
       <= 0.001.
Proof.
  intros Hsp Hlen Hfirst Hlast.
  destruct (HikerSystem.hikers this) as [|a rest] eqn:Hhs; [discriminate |].
  injection Hfirst as ->.
  assert (Hrest : rest <> []) by (destruct rest; [cbn in Hlen; lia | done]).
  destruct (flow_value this first rest Hhs Hrest)
    as (total & count & Htot & Hcnt & Hpos & ->).
  rewrite Hsp. cbn [JS.Math_abs JS.div_fin]. unfold JS.div.
  change (Qeq_bool 60 0) with false. cbn iota.
  cbn [JS.fin_sub JS.Math_max JS.Math_min].
  eexists. split; [reflexivity |]. unfold clamp.
  cbn [length Nat.sub]. rewrite Nat.sub_0_r.
  rewrite Htot, Hcnt, (spacings_telescope first rest last_ Hlast).
  match goal with
  | |- Qabs (?a - ?a) <= _ => assert (Hzero : a - a == 0) by ring
  end.
  rewrite Hzero. vm_compute. discriminate.
Qed.

Lemma flow_multiplier_ends_witness :
  exists q,
    HikerSystem.getFlowMultiplier farPair = Some (JS.Fin q)
    /\ 1.499 <= q <= 1.501.
Proof.
  destruct (flow_multiplier_ends farPair (hikerAt 0 1.0 200)
              (hikerAt 1 1.15 50)) as (q & Hq & Hval);
    [reflexivity | vm_compute; lia | reflexivity | reflexivity |].
  exists q. split; [exact Hq |].
  match type of Hval with
  | Qabs (_ - ?c) <= _ =>
      assert (Hc : c == 1.5) by (vm_compute; reflexivity)
  end.
  rewrite Hc in Hval. apply Qabs_Qle_condition in Hval. lra.
Defined.

(** ** A caravan that is not tapped marches in formation *)

Section March.
Variables (this : HikerSystem.t) (deltaTime : Q) (σ : Segment.store)
          (terrain : Terrain.t) (herbieSpeed : Q).
Hypothesis Hspacing : HikerSystem.spacing this = 60.
Hypothesis Hdt : 0 < deltaTime <= 0.1.
Hypothesis Hherbie : herbieSpeed == 1.

Lemma decay_calm b : b == 0 -> HikerSystem.decay deltaTime b == 0.
Proof. intros Hb. by rewrite decay_neutral. Qed.

Lemma step_march ahead ahead' hiker :
  shifted (herbieSpeed * 100 * deltaTime) ahead ahead' ->
  calm hiker ->
  (forall a, ahead = Some a -> Hiker.x a - Hiker.x hiker == 60) ->
  let hiker1 :=
    HikerSystem.stepHiker this deltaTime σ terrain herbieSpeed ahead' hiker in
  calm hiker1
  /\ Hiker.x hiker1 == Hiker.x hiker + herbieSpeed * 100 * deltaTime.
Proof.
  intros Hshift (Hboost & Hbase & Hwait) Hgap hiker1. unfold hiker1, calm.
  rewrite step_offloadBoost, step_baseSpeed, step_isWaiting, step_x.
  split; [split; [by apply decay_calm | split; [exact Hbase |]] |].
  - destruct ahead as [a|], ahead' as [a'|]; cbn in Hshift; try done.
    unfold HikerSystem.pace. rewrite Hspacing. cbn zeta.
    specialize (Hgap a eq_refl).
    assert (Hmove : 0 < herbieSpeed * 100 * deltaTime <= 10).
    { rewrite Hherbie. lra. }
    rewrite (proj2 (lt_false _ _)) by lra.
    by rewrite (proj2 (gt_false _ _)) by lra.
  - destruct ahead as [a|], ahead' as [a'|]; cbn in Hshift; try done.
    unfold HikerSystem.pace. rewrite Hspacing. cbn zeta.
    specialize (Hgap a eq_refl).
    assert (Hmove : 0 < herbieSpeed * 100 * deltaTime <= 10).
    { rewrite Hherbie. lra. }
    rewrite (proj2 (lt_false _ _)) by lra.
    rewrite (proj2 (gt_false _ _)) by lra. cbn [snd].
    rewrite (Q.min_r (Hiker.baseSpeed hiker + Hiker.offloadBoost hiker)
               herbieSpeed) by lra.
    reflexivity.
Qed.

Lemma walk_march hs :
  forall ahead ahead',
    shifted (herbieSpeed * 100 * deltaTime) ahead ahead' ->
    Forall calm hs ->
    evenly (front ahead hs) ->
    Forall calm (walk this deltaTime σ terrain herbieSpeed ahead' hs)
    /\ evenly
         (front ahead' (walk this deltaTime σ terrain herbieSpeed ahead' hs)).
Proof.
  induction hs as [|hiker rest IH]; intros ahead ahead' Hshift Hcalm Heven.
  - split; [constructor |]. destruct ahead'; exact I.
  - inversion Hcalm as [|? ? Hh Hrest]; subst. cbn [walk].
    destruct (step_march ahead ahead' hiker Hshift Hh) as [Hcalm1 Hx1].
    { intros a ->. apply Heven. }
    destruct (IH (Some hiker)
                 (Some (HikerSystem.stepHiker this deltaTime σ terrain
                          herbieSpeed ahead' hiker))) as [IHc IHe];
      [exact Hx1 | exact Hrest | |].
    { destruct ahead; cbn in Heven |- *; [tauto | exact Heven]. }
    split; [by constructor |].
    destruct ahead as [a|], ahead' as [a'|]; cbn in Hshift;
      try contradiction; cbn [front map] in *; [| exact IHe].
    split; [| exact IHe]. destruct Heven as [Hgap _]. rewrite Hshift, Hx1. lra.
Qed.

End March.

Lemma init_formation this startX startY :
  HikerSystem.spacing this = 60 ->
  HikerSystem.herbieIndex this = 0%nat ->
  HikerSystem.maxStretch this = 220 ->
  formation (HikerSystem.init this startX startY).
Proof.
  intros Hsp Hidx Hms. unfold HikerSystem.init, HikerSystem.set_hikers.
  split; cbn [HikerSystem.hikers HikerSystem.spacing HikerSystem.herbieIndex
              HikerSystem.maxStretch]; try assumption.
  - reflexivity.
  - eexists. split; [reflexivity | reflexivity].
  - cbn. repeat (apply Forall_cons_2;
                 [unfold calm; cbn; split; [reflexivity | split; [lra | done]] |]).
    apply Forall_nil_2.
  - cbn. rewrite Hsp. unfold inject_Z.
    change (Z.of_nat 0) with 0%Z. change (Z.of_nat 1) with 1%Z.
    change (Z.of_nat 2) with 2%Z. change (Z.of_nat 3) with 3%Z.
    change (Z.of_nat 4) with 4%Z.
    repeat (split; [ring |]). exact I.
Qed.

Lemma update_formation this deltaTime σ terrain this' :
  formation this ->
  0 < deltaTime <= 0.1 ->
  HikerSystem.update this deltaTime σ terrain = Some this' ->
  formation this'.
Proof.
  intros [Hsp Hidx Hms Hcnt (herbie & Hh & Hbase) Hcalm Heven] Hdt Hup.
  rewrite update_walk, Hidx, Hh in Hup.
  cbn [mbind option_bind] in Hup. injection Hup as <-.
  assert (Hboost : Hiker.offloadBoost herbie == 0).
  { rewrite Forall_lookup in Hcalm. apply (Hcalm _ _ Hh). }
  assert (Hspeed : Hiker.baseSpeed herbie + Hiker.offloadBoost herbie == 1).
  { rewrite Hbase, Hboost. ring. }
  destruct (walk_march this deltaTime σ terrain _ Hsp Hdt Hspeed
              (HikerSystem.hikers this) None None I Hcalm Heven) as [Hc He].
  split; cbn [HikerSystem.hikers HikerSystem.spacing HikerSystem.herbieIndex
              HikerSystem.maxStretch]; try assumption; try reflexivity.
  - by rewrite walk_length.
  - eexists. split; [by apply walk_lookup_0 |]. by rewrite step_baseSpeed.
Qed.

Lemma untapped_formation this : untapped this -> formation this.
Proof.
  induction 1 as [this startX startY Hsp Hidx Hms
                  | this dt σ terrain this' _ IH Hdt Hup
                  | this _ IH | this seconds _ IH].
  - by apply init_formation.
  - exact (update_formation _ _ _ _ _ IH Hdt Hup).
  - destruct IH as [Hsp Hidx Hms Hcnt (herbie & Hh & Hbase) Hcalm Heven].
    split; cbn [HikerSystem.triggerPulse HikerSystem.set_hikers
                HikerSystem.hikers HikerSystem.spacing
                HikerSystem.herbieIndex HikerSystem.maxStretch];
      try assumption.
    + by rewrite length_map.
    + exists (Hiker.set_pulseTime 0.8 herbie).
      change (map ?f ?l) with (f <$> l). rewrite list_lookup_fmap, Hh.
      by split.
    + change (map ?f ?l) with (f <$> l). apply Forall_fmap.
      eapply Forall_impl; [exact Hcalm | intros h Hc; exact Hc].
    + by rewrite map_x_set_pulseTime.
  - destruct IH. by split.
Qed.

Lemma evenly_lookup (hs : list Hiker.t) i a b :
  evenly (map Hiker.x hs) ->
  hs !! i = Some a -> hs !! S i = Some b -> Hiker.x a - Hiker.x b == 60.
Proof.
  revert hs. induction i as [|i IH]; intros hs He Ha Hb.
  - destruct hs as [|a0 [|b0 hs]]; try discriminate.
    cbn in Ha, Hb. injection Ha as ->. injection Hb as ->. apply He.
  - destruct hs as [|a0 [|b0 hs]]; try discriminate.
    apply (IH (b0 :: hs)); [apply He | exact Ha | exact Hb].
Qed.

Lemma evenly_sum (hs : list Hiker.t) :
  evenly (map Hiker.x hs) ->
  Qsum (spacings hs) == 60 * inject_Z (Z.of_nat (length (spacings hs))).
Proof.
  induction hs as [|a [|b hs] IH]; intros He.
  - cbn. ring.
  - cbn. ring.
  - cbn [spacings Qsum foldr length] in *.
    fold (Qsum (spacings (b :: hs))).
    destruct He as [Hgap He]. rewrite (IH He), Hgap, inject_nat_succ. ring.
Qed.

(** X4. In a run without taps, from [init] on a system with the constructor's
    constants, the caravan keeps its formation: adjacent hikers stay 60
    apart, nobody waits, the caravan is never too stretched, no tension
    line is drawn and the flow multiplier stays at its top of 3.0.  The
    two numbers are bounded with a margin, 0.01 for the spacing and 0.001
    for the flow multiplier, which covers the rounding of the sums in a
    running game. *)
Theorem untapped_caravan_marches this :
  untapped this ->
  (forall i a b,
      HikerSystem.hikers this !! i = Some a ->
      HikerSystem.hikers this !! S i = Some b ->
      59.99 <= Hiker.x a - Hiker.x b <= 60.01)
  /\ Forall (fun h => Hiker.isWaiting h = false) (HikerSystem.hikers this)
  /\ HikerSystem.isTooStretched this = false
  /\ HikerSystem.getTensionLines this = []
  /\ exists q, HikerSystem.getFlowMultiplier this = Some (JS.Fin q)
                /\ 2.999 <= q <= 3.
Proof.
  intros Hrun. pose proof (untapped_formation this Hrun)
    as [Hsp Hidx Hms Hcnt Hleader Hcalm Heven].
  split.
  { intros i a b Ha Hb.
    pose proof (evenly_lookup _ _ _ _ Heven Ha Hb) as Hgap. lra. }
  split; [eapply Forall_impl; [exact Hcalm | by intros h (_ & _ & ?)] |].
  split; [| split].
  - apply not_true_iff_false. rewrite tooStretched_pairs.
    intros (j & a & b & Ha & Hb & Hgt).
    pose proof (evenly_lookup _ _ _ _ Heven Ha Hb). rewrite Hms in Hgt. lra.
  - destruct (HikerSystem.getTensionLines this) as [|line rest] eqn:Hlines;
      [done | exfalso].
    assert (Hin : line ∈ HikerSystem.getTensionLines this)
      by (rewrite Hlines; apply elem_of_cons; by left).
    apply tensionLinesIn_elem in Hin as (i & Hi & Ha & Hb & Hgt & _).
    apply pairIndices_elem in Hi.
    replace i with (S (i - 1)) in Hb by lia.
    pose proof (evenly_lookup _ _ _ _ Heven Ha Hb). rewrite Hsp in Hgt. lra.
  - destruct (HikerSystem.hikers this) as [|a rest] eqn:Hhs; [discriminate |].
    assert (Hrest : rest <> []) by (destruct rest; [discriminate | done]).
    destruct (flow_value this a rest Hhs Hrest)
      as (total & count & Htot & Hcnt' & Hpos & ->).
    rewrite Hsp. cbn [JS.Math_abs JS.div_fin]. unfold JS.div.
    change (Qeq_bool 60 0) with false. cbn iota.
    cbn [JS.fin_sub JS.Math_max JS.Math_min].
    eexists. split; [reflexivity |].
    assert (Havg : total / count == 60).
    { rewrite Htot, (evenly_sum _ Heven), spacings_length.
      cbn [length Nat.sub]. rewrite Nat.sub_0_r, <- Hcnt'. field. lra. }
    rewrite Havg. split; vm_compute; discriminate.
Qed.

Lemma untapped_caravan_marches_witness :
  exists this',
    ticks 3 0.1 world0.1 world0.2 caravan0 = Some this'
    /\ HikerSystem.isTooStretched this' = false.
Proof.
  destruct (ticks 3 0.1 world0.1 world0.2 caravan0) as [this'|] eqn:Hticks;
    [| vm_compute in Hticks; discriminate].
  exists this'. split; [reflexivity |].
  apply (untapped_caravan_marches this').
  cbn [ticks] in Hticks.
  destruct (HikerSystem.update caravan0 0.1 world0.1 world0.2)
    as [this1|] eqn:H1; [| discriminate].
  cbn [mbind option_bind] in Hticks.
  destruct (HikerSystem.update this1 0.1 world0.1 world0.2)
    as [this2|] eqn:H2; [| discriminate].
  cbn [mbind option_bind] in Hticks.
  destruct (HikerSystem.update this2 0.1 world0.1 world0.2)
    as [this3|] eqn:H3; [| discriminate].
  cbn [mbind option_bind] in Hticks. injection Hticks as <-.
  assert (Hdt : 0 < 0.1 <= 0.1) by lra.
  apply (untapped_update this2 0.1 world0.1 world0.2 this3); [| exact Hdt | exact H3].
  apply (untapped_update this1 0.1 world0.1 world0.2 this2); [| exact Hdt | exact H2].
  apply (untapped_update caravan0 0.1 world0.1 world0.2 this1); [| exact Hdt | exact H1].
  by apply untapped_init.
Defined.

(** ** Hikers only move forward *)

Section Forward.
Variables (this : HikerSystem.t) (deltaTime : Q) (σ : Segment.store)
          (terrain : Terrain.t) (herbieSpeed : Q).
Hypothesis Hspacing : HikerSystem.spacing this = 60.
Hypothesis Hdt : 0 < deltaTime <= 0.1.
Hypothesis Hherbie : 0 <= herbieSpeed <= 2.

Lemma pace_at_most_2 ahead hiker :
  tuned hiker ->
  Hiker.x hiker < Hiker.x ahead ->
  (HikerSystem.pace this herbieSpeed (Some ahead) hiker).2 <= 2.
Proof.
  intros [[Hb1 Hb2] [Ho1 Ho2]] Hgap. unfold HikerSystem.pace.
  rewrite Hspacing. cbn zeta.
  set (gap := Hiker.x ahead - Hiker.x hiker).
  assert (Hgap' : 0 < gap) by (unfold gap; lra).
  set (target := Qmin (Hiker.baseSpeed hiker + Hiker.offloadBoost hiker)
                      herbieSpeed).
  assert (Htarget : 0 <= target <= 2).
  { unfold target.
    destruct (Q.min_spec (Hiker.baseSpeed hiker + Hiker.offloadBoost hiker)
                herbieSpeed) as [[_ ->]|[_ ->]]; lra. }
  js_case (JS.lt gap (60 * 0.8)); [| js_case (JS.gt gap (60 * 1.5))];
    cbn [snd]; [| lra | lra].
  assert (Hg : 0 <= gap / 60 <= 1).
  { split; [apply Qle_shift_div_l; lra | apply Qle_shift_div_r; lra]. }
  apply Q.max_lub; [lra |].
  apply Qle_trans with (2 * (gap / 60)); [apply Qmult_le_compat_r; lra | lra].
Qed.

Lemma walk_forward hs :
  forall ahead ahead',
    advanced ahead ahead' ->
    Forall tuned hs ->
    descending (front ahead hs) ->
    Forall2 (fun h h' => Hiker.x h <= Hiker.x h'
                         /\ 0 <= Hiker.currentSpeed h' <= 2)
            hs (walk this deltaTime σ terrain herbieSpeed ahead' hs).
Proof.
  induction hs as [|hiker rest IH]; intros ahead ahead' Hadv Htuned Hdesc.
  - constructor.
  - inversion Htuned as [|? ? Hh Hrest]; subst. cbn [walk].
    set (hiker1 := HikerSystem.stepHiker this deltaTime σ terrain herbieSpeed
                     ahead' hiker).
    assert (Hmove : Hiker.x hiker <= Hiker.x hiker1
                    /\ 0 <= Hiker.currentSpeed hiker1 <= 2).
    { unfold hiker1. rewrite step_x, step_currentSpeed.
      destruct ahead as [a|], ahead' as [a'|]; cbn in Hadv; try contradiction.
      - destruct Hdesc as [Hlt _].
        destruct (pace_follower this deltaTime herbieSpeed Hspacing Hdt
                    Hherbie a' hiker Hh) as [H0 H1]; [lra |].
        pose proof (pace_at_most_2 a' hiker Hh ltac:(lra)) as H2.
        split; [| by split].
        assert (0 <= (HikerSystem.pace this herbieSpeed (Some a') hiker).2
                     * 100 * deltaTime); [| lra].
        apply Qmult_le_0_compat; [| lra]. apply Qmult_le_0_compat; lra.
      - cbn [HikerSystem.pace snd]. split; [| exact Hherbie].
        assert (0 <= herbieSpeed * 100 * deltaTime); [| lra].
        apply Qmult_le_0_compat; [| lra]. apply Qmult_le_0_compat; lra. }
    constructor; [exact Hmove |].
    apply (IH (Some hiker) (Some hiker1)); [apply Hmove | exact Hrest |].
    destruct ahead; cbn in Hdesc |- *; [tauto | exact Hdesc].
Qed.

End Forward.

(** X5. In a run, a tick with [deltaTime] in (0, 0.1] moves no hiker back, and
    the speed it gives each hiker is between 0 and 2. *)
Theorem hikers_never_move_back this deltaTime σ terrain this' i h h' :
  reachable this ->
  0 < deltaTime <= 0.1 ->
  HikerSystem.update this deltaTime σ terrain = Some this' ->
  HikerSystem.hikers this !! i = Some h ->
  HikerSystem.hikers this' !! i = Some h' ->
  Hiker.x h <= Hiker.x h' /\ 0 <= Hiker.currentSpeed h' <= 2.
Proof.
  intros Hreach Hdt Hup Hh Hh'.
  destruct (reachable_inv this Hreach) as [Hsp Hidx Hcnt Htuned Hord].
  rewrite update_walk, Hidx in Hup.
  destruct (HikerSystem.hikers this !! 0%nat) as [herbie|] eqn:H0;
    [| discriminate].
  cbn [mbind option_bind] in Hup. injection Hup as <-.
  assert (Hherbie : 0 <= Hiker.baseSpeed herbie + Hiker.offloadBoost herbie <= 2).
  { rewrite Forall_lookup in Htuned. destruct (Htuned _ _ H0) as [? ?]. lra. }
  pose proof (walk_forward this deltaTime σ terrain _ Hsp Hdt Hherbie
                (HikerSystem.hikers this) None None I Htuned Hord) as Hall.
  exact (Forall2_lookup_lr _ _ _ _ _ _ Hall Hh Hh').
Qed.

Lemma hikers_never_move_back_witness :
  exists this' h h',
    HikerSystem.update caravan0 0.1 world0.1 world0.2 = Some this'
    /\ HikerSystem.hikers caravan0 !! 4%nat = Some h
    /\ HikerSystem.hikers this' !! 4%nat = Some h'
    /\ Hiker.x h <= Hiker.x h'.
Proof.
  destruct (HikerSystem.update caravan0 0.1 world0.1 world0.2)
    as [this'|] eqn:Hup; [| vm_compute in Hup; discriminate].
  destruct (HikerSystem.hikers caravan0 !! 4%nat) as [h|] eqn:Hh;
    [| vm_compute in Hh; discriminate].
  destruct (HikerSystem.hikers this' !! 4%nat) as [h'|] eqn:Hh';
    [| vm_compute in Hup; injection Hup as <-; discriminate].
  exists this', h, h'.
  split; [reflexivity |]. split; [reflexivity |]. split; [exact Hh' |].
  assert (Hdt : 0 < 0.1 <= 0.1) by lra.
  exact (proj1 (hikers_never_move_back caravan0 0.1 world0.1 world0.2 this'
                  4%nat h h' (reach_init 200 (600 * 0.7)) Hdt Hup Hh Hh')).
Defined.

(** ** The boost wears off *)

Lemma decay_settled deltaTime b :
  settled b -> settled (HikerSystem.decay deltaTime b).
Proof.
  intros Hb. unfold HikerSystem.decay.
  js_case (JS.neq b 0); [| exact Hb]. cbn zeta.
  destruct (JS.gt b 0).
  - js_case (JS.lt (Qabs (b + -1 * deltaTime * 0.5)) 0.01);
      [by left | by right].
  - js_case (JS.lt (Qabs (b + 1 * deltaTime * 0.5)) 0.01);
      [by left | by right].
Qed.

(** With steps below the width of the snapping band, each decay takes a
    full step off the magnitude of a settled boost, or brings it to zero. *)
Lemma decay_shrinks deltaTime b :
  0 < deltaTime -> deltaTime * 0.5 < 0.02 -> settled b ->
  HikerSystem.decay deltaTime b == 0
  \/ Qabs (HikerSystem.decay deltaTime b) <= Qabs b - deltaTime * 0.5.
Proof.
  intros Hdt Hstep [Hz | Hbig].
  - left. by rewrite decay_neutral.
  - destruct (Qlt_le_dec b 0) as [Hneg | Hpos].
    + rewrite Qabs_neg in Hbig by lra.
      destruct (decay_small_step deltaTime b Hdt Hstep) as [_ Hdown].
      specialize (Hdown ltac:(lra)).
      destruct (decay_rate deltaTime b ltac:(lra)) as [-> | [[? _] | [_ Heq]]];
        [by left | lra |].
      right. rewrite (Qabs_neg b) by lra.
      rewrite Qabs_neg by lra. rewrite Heq. lra.
    + rewrite Qabs_pos in Hbig by lra.
      destruct (decay_small_step deltaTime b Hdt Hstep) as [Hup _].
      specialize (Hup ltac:(lra)).
      destruct (decay_rate deltaTime b ltac:(lra)) as [-> | [[_ Heq] | [? _]]];
        [by left | | lra].
      right. rewrite (Qabs_pos b) by lra.
      rewrite Qabs_pos by lra. rewrite Heq. lra.
Qed.

Lemma decay_iter_zero deltaTime n b :
  b == 0 -> Nat.iter n (HikerSystem.decay deltaTime) b == 0.
Proof.
  intros Hb. induction n as [|n IH]; [exact Hb |].
  rewrite Nat.iter_succ. by rewrite (decay_neutral _ _ IH).
Qed.

Lemma decay_iter_reaches_zero deltaTime n b :
  0 < deltaTime -> deltaTime * 0.5 < 0.02 -> settled b ->
  Qabs b <= inject_Z (Z.of_nat n) * (deltaTime * 0.5) ->
  Nat.iter n (HikerSystem.decay deltaTime) b == 0.
Proof.
  intros Hdt Hstep. revert b. induction n as [|n IH]; intros b Hset Hn.
  - cbn. change (inject_Z (Z.of_nat 0)) with 0 in Hn.
    destruct (Qlt_le_dec b 0) as [Hneg | Hpos].
    + rewrite Qabs_neg in Hn by lra. lra.
    + rewrite Qabs_pos in Hn by lra. lra.
  - rewrite Nat.iter_succ_r.
    destruct (decay_shrinks deltaTime b Hdt Hstep Hset) as [Hz | Hless].
    + by apply decay_iter_zero.
    + apply IH; [by apply decay_settled |].
      rewrite inject_nat_succ in Hn. lra.
Qed.

Lemma walk_lookup_boost this deltaTime σ terrain herbieSpeed hs :
  forall ahead i h',
    walk this deltaTime σ terrain herbieSpeed ahead hs !! i = Some h' ->
    exists h,
      hs !! i = Some h
      /\ Hiker.offloadBoost h'
         = HikerSystem.decay deltaTime (Hiker.offloadBoost h).
Proof.
  induction hs as [|hiker rest IH]; intros ahead i h' Hl; [done |].
  destruct i as [|i].
  - cbn in Hl. injection Hl as <-. exists hiker.
    split; [reflexivity | apply step_offloadBoost].
  - cbn in Hl. exact (IH _ _ _ Hl).
Qed.

Lemma update_boost this deltaTime σ terrain this' i h' :
  HikerSystem.update this deltaTime σ terrain = Some this' ->
  HikerSystem.hikers this' !! i = Some h' ->
  exists h,
    HikerSystem.hikers this !! i = Some h
    /\ Hiker.offloadBoost h'
       = HikerSystem.decay deltaTime (Hiker.offloadBoost h).
Proof.
  intros Hup Hl. rewrite update_walk in Hup.
  destruct (HikerSystem.hikers this !! HikerSystem.herbieIndex this);
    [| discriminate].
  cbn [mbind option_bind] in Hup. injection Hup as <-.
  exact (walk_lookup_boost _ _ _ _ _ _ _ _ _ Hl).
Qed.

Lemma ticks_boost n deltaTime σ terrain :
  forall this this' i h',
    ticks n deltaTime σ terrain this = Some this' ->
    HikerSystem.hikers this' !! i = Some h' ->
    exists h,
      HikerSystem.hikers this !! i = Some h
      /\ Hiker.offloadBoost h'
         = Nat.iter n (HikerSystem.decay deltaTime) (Hiker.offloadBoost h).
Proof.
  induction n as [|n IH]; intros this this' i h' Hticks Hl.
  - injection Hticks as <-. by exists h'.
  - cbn [ticks] in Hticks.
    destruct (HikerSystem.update this deltaTime σ terrain) as [this1|] eqn:Hup;
      [| discriminate].
    cbn [mbind option_bind] in Hticks.
    destruct (IH _ _ _ _ Hticks Hl) as (h1 & Hh1 & Hb1).
    destruct (update_boost _ _ _ _ _ _ _ Hup Hh1) as (h & Hh & Hb).
    exists h. split; [exact Hh |]. by rewrite Nat.iter_succ_r, <- Hb.
Qed.

Lemma ticks_total n deltaTime σ terrain :
  forall this,
    caravan_inv this -> 0 < deltaTime <= 0.1 ->
    exists this', ticks n deltaTime σ terrain this = Some this'.
Proof.
  induction n as [|n IH]; intros this Hinv Hdt; [by eexists |].
  cbn [ticks].
  destruct (update_total this deltaTime σ terrain Hinv) as [this1 Hup].
  rewrite Hup. cbn [mbind option_bind].
  exact (IH this1 (update_inv _ _ _ _ _ Hinv Hdt Hup) Hdt).
Qed.

Lemma reachable_settled this :
  reachable this ->
  Forall (fun h => settled (Hiker.offloadBoost h)) (HikerSystem.hikers this).
Proof.
  assert (Hinit : forall this0 startX startY,
             Forall (fun h => settled (Hiker.offloadBoost h))
                    (HikerSystem.hikers
                       (HikerSystem.init this0 startX startY))).
  { intros. cbn. repeat (apply Forall_cons_2; [by left |]).
    apply Forall_nil_2. }
  induction 1 as [startX startY | this startX startY _ IH
                  | this dt σ terrain this' _ IH Hdt Hup
                  | this i this' _ IH Hoff | this _ IH | this seconds _ IH];
    try apply Hinit.
  - apply Forall_lookup. intros j h' Hh'.
    destruct (update_boost _ _ _ _ _ _ _ Hup Hh') as (h & Hh & ->).
    apply decay_settled. rewrite Forall_lookup in IH. exact (IH _ _ Hh).
  - unfold HikerSystem.offloadHiker in Hoff.
    destruct (Nat.eqb i (HikerSystem.herbieIndex this)) eqn:Heq.
    { by injection Hoff as <-. }
    apply Nat.eqb_neq in Heq.
    destruct (HikerSystem.hikers this !! i) as [hiker|] eqn:Hhiker;
      [| discriminate].
    cbn [mbind option_bind] in Hoff.
    rewrite list_lookup_insert_ne in Hoff by done.
    destruct (HikerSystem.hikers this !! HikerSystem.herbieIndex this)
      as [herbie|] eqn:Hherbie; [| discriminate].
    cbn [mbind option_bind] in Hoff. injection Hoff as <-.
    cbn [HikerSystem.triggerPulse HikerSystem.set_hikers HikerSystem.hikers].
    change (map ?f ?l) with (f <$> l). apply Forall_fmap.
    apply Forall_insert; [apply Forall_insert |].
    + eapply Forall_impl; [exact IH | by intros h Hh].
    + right. cbn. vm_compute. discriminate.
    + right. cbn.
      pose proof (Q.le_max_r (Hiker.offloadBoost herbie) 0.4).
      rewrite Qabs_pos by lra. lra.
  - cbn. change (map ?f ?l) with (f <$> l). apply Forall_fmap.
    eapply Forall_impl; [exact IH | by intros h Hh].
  - exact IH.
Qed.

(** X6. When the frame rate is high enough for the decay to stop at zero
    ([deltaTime] below 0.04 s), every boost of a run is exactly zero again
    after [n] ticks, as soon as [n] steps of [0.5 * deltaTime] add up to
    0.4. *)
Theorem boost_wears_off this deltaTime σ terrain n :
  reachable this ->
  0 < deltaTime -> deltaTime * 0.5 < 0.02 ->
  0.4 <= inject_Z (Z.of_nat n) * (deltaTime * 0.5) ->
  exists this',
    ticks n deltaTime σ terrain this = Some this'
    /\ Forall (fun h => Hiker.offloadBoost h == 0) (HikerSystem.hikers this').
Proof.
  intros Hreach Hdt Hstep Hn.
  pose proof (reachable_inv this Hreach) as Hinv.
  destruct (ticks_total n deltaTime σ terrain this Hinv ltac:(lra))
    as [this' Hticks].
  exists this'. split; [exact Hticks |].
  apply Forall_lookup. intros i h' Hh'.
  destruct (ticks_boost _ _ _ _ _ _ _ _ Hticks Hh') as (h & Hh & ->).
  pose proof (reachable_settled this Hreach) as Hset.
  rewrite Forall_lookup in Hset.
  destruct Hinv as [_ _ _ Htuned _]. rewrite Forall_lookup in Htuned.
  destruct (Htuned _ _ Hh) as [_ [Hlo Hhi]].
  apply decay_iter_reaches_zero; [exact Hdt | exact Hstep | exact (Hset _ _ Hh) |].
  apply Qle_trans with 0.4; [| exact Hn].
  apply Qabs_Qle_condition. split; lra.
Qed.

(** A tap on hiker 2, then 27 ticks of 0.03 s. *)
Lemma boost_wears_off_witness :
  exists this0 this',
    HikerSystem.offloadHiker caravan0 2 = Some this0
    /\ ticks 27 0.03 world0.1 world0.2 this0 = Some this'
    /\ Forall (fun h => Hiker.offloadBoost h == 0) (HikerSystem.hikers this').
Proof.
  destruct (HikerSystem.offloadHiker caravan0 2) as [this0|] eqn:Hoff;
    [| vm_compute in Hoff; discriminate].
  assert (Hreach : reachable this0).
  { apply (reach_offload caravan0 2 this0); [apply reach_init | exact Hoff]. }
  destruct (boost_wears_off this0 0.03 world0.1 world0.2 27 Hreach)
    as (this' & Hticks & Hzero); [lra | lra | vm_compute; discriminate |].
  exists this0, this'. split; [reflexivity |]. split; assumption.
Defined.

(** ** Ground queries agree *)

(** X7. [isOnGround(x, y)] holds exactly when [getYAtX(x)] gives a height and
    [y] is less than 5 away from it; where [getYAtX(x)] is [null], nothing
    is on the ground. *)
Theorem isOnGround_iff σ this px py :
  (Terrain.isOnGround σ this px py = true
   <-> exists groundY,
         Terrain.getYAtX σ this px = Some groundY
         /\ Qabs (py - groundY) < 5)
  /\ (Terrain.getYAtX σ this px = None ->
      Terrain.isOnGround σ this px py = false).
Proof.
  unfold Terrain.isOnGround, Terrain.getYAtX.
  destruct (Terrain.findSegment σ (Terrain.segments this) px) as [r|].
  2: { split; [| done]. split; [done | by intros (? & ? & _)]. }
  destruct (σ !! r) as [segment|].
  2: { split; [| done]. split; [done | by intros (? & ? & _)]. }
  destruct (Segment.hasGap segment); cbn [negb].
  - split; [| done]. split; [done | by intros (? & ? & _)].
  - split; [| done]. rewrite lt_true. split.
    + intros Hlt. by exists (Segment.y segment).
    + by intros (groundY & [= <-] & Hlt).
Qed.

(** ** The camera *)

Lemma generateWhile_fields fuel rightEdge σ this :
  let this' := (Terrain.generateWhile fuel rightEdge σ this).2 in
  Terrain.baseY this' = Terrain.baseY this
  /\ Terrain.segmentWidth this' = Terrain.segmentWidth this
  /\ Terrain.canvasHeight this' = Terrain.canvasHeight this
  /\ Terrain.scrollSpeed this' = Terrain.scrollSpeed this.
Proof.
  revert σ this. induction fuel as [|fuel IH]; intros σ this; [done |].
  cbn [Terrain.generateWhile].
  destruct (JS.lt (Terrain.nextSegmentX this) rightEdge); [| done].
  destruct (Terrain.generateSegment σ this) as [σ1 this1] eqn:Hgen.
  unfold Terrain.generateSegment in Hgen. injection Hgen as <- <-.
  destruct (IH (σ ++ [Segment.mk (Terrain.nextSegmentX this)
                         (Terrain.baseY this) (Terrain.segmentWidth this)
                         20 false])
               (Terrain.mk (Terrain.cameraX this) (Terrain.scrollSpeed this)
                  (Terrain.segments this ++ [length σ])
                  (Terrain.segmentWidth this) (Terrain.baseY this)
                  (Terrain.nextSegmentX this + Terrain.segmentWidth this)
                  (Terrain.canvasWidth this) (Terrain.canvasHeight this)))
    as (H1 & H2 & H3 & H4).
  cbn in *. by rewrite H1, H2, H3, H4.
Qed.

Lemma update_fields σ this deltaTime distance herbieX :
  let this' := (Terrain.update σ this deltaTime distance herbieX).2 in
  Terrain.cameraX this'
  = match herbieX with
    | Some hx =>
        Terrain.cameraX this
        + (Qmax 0 (hx - Terrain.canvasWidth this * 0.3) - Terrain.cameraX this)
          * Qmin 1 (deltaTime * 4)
    | None => Terrain.cameraX this + Terrain.scrollSpeed this * deltaTime
    end
  /\ Terrain.canvasWidth this' = Terrain.canvasWidth this
  /\ Terrain.baseY this' = Terrain.baseY this
  /\ Terrain.segmentWidth this' = Terrain.segmentWidth this
  /\ Terrain.canvasHeight this' = Terrain.canvasHeight this.
Proof.
  unfold Terrain.update.
  match goal with
  | |- context [Terrain.generateWhile ?f ?e ?s ?t] =>
      pose proof (generateWhile_camera f e s t) as [Hcam Hcw];
      pose proof (generateWhile_fields f e s t) as (Hb & Hw & Hh & _);
      destruct (Terrain.generateWhile f e s t) as [σ2 this2]
  end.
  cbn in *. by rewrite Hcam, Hcw, Hb, Hw, Hh.
Qed.

(** X8. While it follows Herbie, the camera moves from where it is towards its
    target, [max(0, herbieX - 0.3 * canvasWidth)], and never past it; a
    time step of a quarter of a second or more puts it on the target; it
    never leaves the non-negative side. *)
Theorem camera_follows_herbie σ this deltaTime distance herbieX :
  0 <= deltaTime ->
  let target := Qmax 0 (herbieX - Terrain.canvasWidth this * 0.3) in
  let camera' :=
    Terrain.cameraX
      (Terrain.update σ this deltaTime distance (Some herbieX)).2 in
  Qmin (Terrain.cameraX this) target <= camera'
  /\ camera' <= Qmax (Terrain.cameraX this) target
  /\ (1 <= deltaTime * 4 -> camera' == target)
  /\ (0 <= Terrain.cameraX this -> 0 <= camera').
Proof.
  intros Hdt target camera'.
  destruct (update_fields σ this deltaTime distance (Some herbieX))
    as (Hcam & _).
  unfold camera'. rewrite Hcam. fold target.
  set (c := Terrain.cameraX this).
  assert (Ht : 0 <= target) by apply Q.le_max_l.
  assert (Ha : 0 <= Qmin 1 (deltaTime * 4) <= 1).
  { split; [apply Q.min_glb; lra | apply Q.le_min_l]. }
  set (a := Qmin 1 (deltaTime * 4)) in *.
  assert (Hmix : c + (target - c) * a == c * (1 - a) + target * a) by ring.
  repeat split.
  - destruct (Qlt_le_dec c target) as [Hlt | Hge].
    + rewrite Q.min_l by lra. nra.
    + rewrite Q.min_r by lra. nra.
  - destruct (Qlt_le_dec c target) as [Hlt | Hge].
    + rewrite Q.max_r by lra. nra.
    + rewrite Q.max_l by lra. nra.
  - intros Hbig. unfold a. rewrite Q.min_l by lra. ring.
  - intros Hc. rewrite Hmix. nra.
Qed.

(** A camera at 100 follows Herbie at 500 on an 800 wide canvas for a frame
    of 0.1 s: it ends between 100 and its target 260. *)
Lemma camera_follows_herbie_witness :
  100 <= Terrain.cameraX
           (Terrain.update world0.1
              (Terrain.mk 100 80 (Terrain.segments world0.2) 150 420 1500
                          800 600)
              0.1 300 (Some 500)).2
  <= 260.
Proof.
  pose proof (camera_follows_herbie world0.1
                (Terrain.mk 100 80 (Terrain.segments world0.2) 150 420 1500
                            800 600)
                0.1 300 500 ltac:(lra)) as (Hlo & Hhi & _).
  cbn [Terrain.cameraX Terrain.canvasWidth] in Hlo, Hhi.
  rewrite Q.min_l in Hlo by (vm_compute; discriminate).
  rewrite Q.max_r in Hhi by (vm_compute; discriminate).
  split; [exact Hlo |].
  eapply Qle_trans; [exact Hhi |]. vm_compute. discriminate.
Defined.

(** ** The distance between obstacles *)

Lemma spawnObstacle_rates σs σo this terrain distance rand :
  let this' :=
    (ObstacleSystem.spawnObstacle σs σo this terrain distance rand).2 in
  ObstacleSystem.baseSpawnRate this' = ObstacleSystem.baseSpawnRate this
  /\ ObstacleSystem.minSpawnRate this' = ObstacleSystem.minSpawnRate this
  /\ ObstacleSystem.nextObstacleDistance this'
     = ObstacleSystem.nextObstacleDistance this
  /\ ObstacleSystem.obstaclesCleared this'
     = ObstacleSystem.obstaclesCleared this.
Proof.
  destruct (spawnObstacle_cases σs σo this terrain distance rand)
    as [-> | (ref & segment & _ & ->)]; done.
Qed.

Lemma update_schedule σs σo this deltaTime terrain distance rand jitter :
  let this' :=
    (ObstacleSystem.update σs σo this deltaTime terrain distance rand
       jitter).2 in
  ObstacleSystem.baseSpawnRate this' = ObstacleSystem.baseSpawnRate this
  /\ ObstacleSystem.minSpawnRate this' = ObstacleSystem.minSpawnRate this
  /\ ObstacleSystem.obstaclesCleared this'
     = ObstacleSystem.obstaclesCleared this
  /\ ObstacleSystem.nextObstacleDistance this'
     = if JS.gt distance (ObstacleSystem.nextObstacleDistance this) then
         distance
         + (ObstacleSystem.baseSpawnRate this
            - (ObstacleSystem.baseSpawnRate this
               - ObstacleSystem.minSpawnRate this)
              * ObstacleSystem.difficultyAt distance)
         + jitter * 80
       else ObstacleSystem.nextObstacleDistance this.
Proof.
  unfold ObstacleSystem.update.
  destruct (JS.gt distance (ObstacleSystem.nextObstacleDistance this)).
  - pose proof (spawnObstacle_rates σs σo this terrain distance rand)
      as (Hb & Hm & _ & Hc).
    destruct (ObstacleSystem.spawnObstacle σs σo this terrain distance rand)
      as [[σs' σo'] this'].
    cbn in *. by rewrite Hb, Hm, Hc.
  - done.
Qed.

(** X9. With the spawn rates of the constructor, an update that finds an
    obstacle due at a distance that is not negative schedules the next one
    between 120 and 260 further on, and between 180 and 260 while the
    distance is 0; an update that finds none due leaves the schedule as it
    is. *)
Theorem next_obstacle_distance σs σo this deltaTime terrain distance rand
    jitter :
  ObstacleSystem.baseSpawnRate this = 180 ->
  ObstacleSystem.minSpawnRate this = 120 ->
  0 <= distance -> 0 <= jitter < 1 ->
  let next := ObstacleSystem.nextObstacleDistance this in
  let next' :=
    ObstacleSystem.nextObstacleDistance
      (ObstacleSystem.update σs σo this deltaTime terrain distance rand
         jitter).2 in
  (next < distance ->
   distance + 120 <= next' < distance + 260
   /\ next' == distance + 180 - 60 * ObstacleSystem.difficultyAt distance
               + jitter * 80)
  /\ (distance <= next -> next' = next).
Proof.
  intros Hbase Hmin Hdist Hjitter next next'.
  destruct (update_schedule σs σo this deltaTime terrain distance rand jitter)
    as (_ & _ & _ & Hnext).
  unfold next'. rewrite Hnext, Hbase, Hmin. fold next.
  split; intros Hdue.
  - apply gt_true in Hdue. rewrite Hdue.
    assert (Hd : 0 <= ObstacleSystem.difficultyAt distance <= 1).
    { unfold ObstacleSystem.difficultyAt.
      split; [apply Q.min_glb; lra |].
      eapply Qle_trans; [apply Q.le_min_l | lra]. }
    set (d := ObstacleSystem.difficultyAt distance) in *.
    split; [split; lra | ring].
  - apply gt_false in Hdue. by rewrite Hdue.
Qed.

(** The first obstacle of a run, due at distance 500. *)
Lemma next_obstacle_distance_witness :
  500 + 120
  <= ObstacleSystem.nextObstacleDistance
       (ObstacleSystem.update (segs startWorld) (obss startWorld)
          (osys startWorld) 0.016 (terr startWorld) 500 0.8 0.5).2
  < 500 + 260.
Proof.
  pose proof (next_obstacle_distance (segs startWorld) (obss startWorld)
                (osys startWorld) 0.016 (terr startWorld) 500 0.8 0.5
                eq_refl eq_refl ltac:(lra) ltac:(lra)) as [Hdue _].
  apply Hdue. vm_compute. reflexivity.
Defined.

(** ** Taps on obstacles *)

Lemma le_true a b : JS.le a b = true <-> a <= b.
Proof. apply Qle_bool_iff. Qed.

Lemma hitTestIn_Some σo refs worldX worldY ref :
  ObstacleSystem.hitTestIn σo refs worldX worldY = Some ref ->
  ref ∈ refs
  /\ exists obstacle,
       σo !! ref = Some obstacle
       /\ Obstacle.cleared obstacle = false
       /\ Obstacle.clearing obstacle = false
       /\ Obstacle.x obstacle - 20 <= worldX
          <= Obstacle.x obstacle + Obstacle.width obstacle + 20
       /\ Obstacle.y obstacle - ObstacleSystem.heightOr 20 obstacle - 20
          <= worldY <= Obstacle.y obstacle + 20.
Proof.
  induction refs as [|r rest IH]; [done |].
  cbn [ObstacleSystem.hitTestIn]. intros Hhit.
  assert (Hrest : ObstacleSystem.hitTestIn σo rest worldX worldY = Some ref ->
                  ref ∈ r :: rest
                  /\ exists obstacle,
                       σo !! ref = Some obstacle
                       /\ Obstacle.cleared obstacle = false
                       /\ Obstacle.clearing obstacle = false
                       /\ Obstacle.x obstacle - 20 <= worldX
                          <= Obstacle.x obstacle + Obstacle.width obstacle + 20
                       /\ Obstacle.y obstacle
                          - ObstacleSystem.heightOr 20 obstacle - 20
                          <= worldY <= Obstacle.y obstacle + 20).
  { intros H. destruct (IH H) as [Hin Hobs].
    split; [apply elem_of_cons; by right | exact Hobs]. }
  destruct (σo !! r) as [obstacle|] eqn:Hobs; [| by apply Hrest].
  destruct (Obstacle.cleared obstacle) eqn:Hcleared; [by apply Hrest |].
  destruct (Obstacle.clearing obstacle) eqn:Hclearing; [by apply Hrest |].
  cbn [orb] in Hhit.
  match type of Hhit with
  | (if ?c then _ else _) = _ => destruct c eqn:Hbox
  end; [| by apply Hrest].
  injection Hhit as <-.
  split; [apply elem_of_cons; by left |].
  exists obstacle.
  rewrite !andb_true_iff, !ge_true, !le_true in Hbox.
  repeat split; try done; lra.
Qed.

Lemma hitTestIn_skips σo refs worldX worldY ref obstacle :
  σo !! ref = Some obstacle ->
  Obstacle.cleared obstacle || Obstacle.clearing obstacle = true ->
  ObstacleSystem.hitTestIn σo refs worldX worldY <> Some ref.
Proof.
  intros Hobs Hflag Hhit.
  destruct (hitTestIn_Some _ _ _ _ _ Hhit)
    as (_ & obstacle' & Hobs' & Hcleared & Hclearing & _).
  rewrite Hobs in Hobs'. injection Hobs' as <-.
  by rewrite Hcleared, Hclearing in Hflag.
Qed.

Lemma checkCollisionIn_Some σo refs herbieX herbieY herbieSize ref :
  ObstacleSystem.checkCollisionIn σo refs herbieX herbieY herbieSize
  = Some ref ->
  ref ∈ refs
  /\ exists obstacle,
       σo !! ref = Some obstacle
       /\ Obstacle.cleared obstacle = false
       /\ Obstacle.clearing obstacle = false
       /\ Obstacle.type obstacle <> Obstacle.gap
       /\ Obstacle.x obstacle < herbieX + herbieSize / 2 - 5
       /\ herbieX - herbieSize / 2 + 5
          < Obstacle.x obstacle + Obstacle.width obstacle
       /\ Obstacle.y obstacle - ObstacleSystem.heightOr 0 obstacle
          < herbieY + herbieSize / 2 - 5
       /\ herbieY - herbieSize / 2 + 5 < Obstacle.y obstacle.
Proof.
  induction refs as [|r rest IH]; [done |].
  cbn [ObstacleSystem.checkCollisionIn]. intros Hhit.
  assert (Hrest :
            ObstacleSystem.checkCollisionIn σo rest herbieX herbieY herbieSize
            = Some ref ->
            ref ∈ r :: rest
            /\ exists obstacle,
                 σo !! ref = Some obstacle
                 /\ Obstacle.cleared obstacle = false
                 /\ Obstacle.clearing obstacle = false
                 /\ Obstacle.type obstacle <> Obstacle.gap
                 /\ Obstacle.x obstacle < herbieX + herbieSize / 2 - 5
                 /\ herbieX - herbieSize / 2 + 5
                    < Obstacle.x obstacle + Obstacle.width obstacle
                 /\ Obstacle.y obstacle - ObstacleSystem.heightOr 0 obstacle
                    < herbieY + herbieSize / 2 - 5
                 /\ herbieY - herbieSize / 2 + 5 < Obstacle.y obstacle).
  { intros H. destruct (IH H) as [Hin Hobs].
    split; [apply elem_of_cons; by right | exact Hobs]. }
  destruct (σo !! r) as [obstacle|] eqn:Hobs; [| by apply Hrest].
  destruct (Obstacle.cleared obstacle) eqn:Hcleared; [by apply Hrest |].
  destruct (Obstacle.clearing obstacle) eqn:Hclearing; [by apply Hrest |].
  cbn [orb] in Hhit.
  destruct (Obstacle.type obstacle) eqn:Htype; [by apply Hrest | | |].
  all: match type of Hhit with
       | (if ?c then _ else _) = _ => destruct c eqn:Hbox
       end; [| by apply Hrest].
  all: injection Hhit as <-.
  all: split; [apply elem_of_cons; by left |].
  all: exists obstacle.
  all: rewrite !andb_true_iff, !gt_true, !lt_true in Hbox.
  all: rewrite Htype.
  all: repeat split; try done; lra.
Qed.

(** X10. An obstacle that [hitTest] returns can be cleared: [clearObstacle]
    succeeds on it and counts it, and from then on neither [hitTest] nor
    [checkCollision] returns it, wherever the tap or Herbie is.  The tap
    itself was within 20 of the obstacle's box on all four sides, the box
    reaching from [y - height] to [y], with 20 in the place of a height
    of 0. *)
Theorem tapped_obstacle_is_cleared σs σo this worldX worldY ref now :
  ObstacleSystem.hitTest σo this worldX worldY = Some ref ->
  exists obstacle σs' σo' this',
    σo !! ref = Some obstacle
    /\ ref ∈ ObstacleSystem.obstacles this
    /\ Obstacle.x obstacle - 20 <= worldX
       <= Obstacle.x obstacle + Obstacle.width obstacle + 20
    /\ Obstacle.y obstacle - ObstacleSystem.heightOr 20 obstacle - 20
       <= worldY <= Obstacle.y obstacle + 20
    /\ ObstacleSystem.clearObstacle σs σo this ref now
       = Some (true, (σs', σo', this'))
    /\ ObstacleSystem.obstaclesCleared this'
       = S (ObstacleSystem.obstaclesCleared this)
    /\ ObstacleSystem.obstacles this' = ObstacleSystem.obstacles this
    /\ (forall worldX' worldY',
          ObstacleSystem.hitTest σo' this' worldX' worldY' <> Some ref)
    /\ (forall herbieX herbieY herbieSize,
          ObstacleSystem.checkCollision σo' this' herbieX herbieY herbieSize
          <> Some ref).
Proof.
  intros Hhit. unfold ObstacleSystem.hitTest in Hhit.
  destruct (hitTestIn_Some _ _ _ _ _ Hhit)
    as (Hin & obstacle & Hobs & Hcleared & Hclearing & Hx & Hy).
  unfold ObstacleSystem.clearObstacle. rewrite Hobs.
  cbn [mbind option_bind]. rewrite Hcleared, Hclearing. cbn [orb].
  eexists obstacle, _, _, _.
  repeat split; try done; try lra.
  - intros worldX' worldY'. unfold ObstacleSystem.hitTest.
    cbn [ObstacleSystem.obstacles].
    eapply hitTestIn_skips.
    + apply list_lookup_insert_eq. by eapply lookup_lt_Some.
    + cbn. apply orb_true_r.
  - intros herbieX herbieY herbieSize Hcol.
    unfold ObstacleSystem.checkCollision in Hcol.
    destruct (checkCollisionIn_Some _ _ _ _ _ _ Hcol)
      as (_ & obstacle' & Hobs' & _ & Hclearing' & _).
    rewrite list_lookup_insert_eq in Hobs' by by eapply lookup_lt_Some.
    injection Hobs' as <-. discriminate.
Qed.

(** A tap just above the gap at 900 of [gapSpawned]. *)
Lemma tapped_obstacle_is_cleared_witness :
  exists σs' σo' this',
    ObstacleSystem.hitTest (obss gapSpawned) (osys gapSpawned) 950 410
    = Some 0%nat
    /\ ObstacleSystem.clearObstacle (segs gapSpawned) (obss gapSpawned)
         (osys gapSpawned) 0 1000
       = Some (true, (σs', σo', this'))
    /\ ObstacleSystem.hitTest σo' this' 950 410 <> Some 0%nat.
Proof.
  assert (Hhit : ObstacleSystem.hitTest (obss gapSpawned) (osys gapSpawned)
                   950 410 = Some 0%nat) by (vm_compute; reflexivity).
  destruct (tapped_obstacle_is_cleared (segs gapSpawned) (obss gapSpawned)
              (osys gapSpawned) 950 410 0 1000 Hhit)
    as (obstacle & σs' & σo' & this' & _ & _ & _ & _ & Hclear & _ & _
        & Hnohit & _).
  exists σs', σo', this'.
  split; [exact Hhit |]. split; [exact Hclear | apply Hnohit].
Defined.

(** ** The obstacles of the array are live *)

Lemma segment_level n σ this px r seg :
  terrain_inv n σ this ->
  Terrain.findSegment σ (Terrain.segments this) px = Some r ->
  σ !! r = Some seg ->
  Segment.y seg = Terrain.baseY this /\ Segment.width seg = 150.
Proof.
  intros Hinv Hfind Hseg.
  destruct (terrain_strip _ _ _ Hinv) as [first Hstrip].
  destruct (findSegment_Some _ _ _ _ Hfind) as (i & seg' & Hi & Hseg' & _).
  destruct (strip_lookup _ _ _ _ _ _ _ Hstrip Hi)
    as (seg2 & Hseg2 & _ & _ & Hy & Hw & _).
  rewrite Hseg in Hseg2. injection Hseg2 as <-. done.
Qed.

Lemma spawnObstacle_found σs σo this terrain distance rand :
  ObstacleSystem.spawnObstacle σs σo this terrain distance rand
  = (σs, σo, this)
  \/ exists ref segment,
       Terrain.findSegment σs (Terrain.segments terrain)
         (Terrain.cameraX terrain + Terrain.canvasWidth terrain + 200)
       = Some ref
       /\ σs !! ref = Some segment
       /\ let type :=
            ObstacleSystem.chooseType (ObstacleSystem.difficultyAt distance)
                                      rand in
          ObstacleSystem.spawnObstacle σs σo this terrain distance rand
          = (match type with
             | Obstacle.gap => alter (Segment.set_hasGap true) ref σs
             | _ => σs
             end,
             σo ++ [ObstacleSystem.makeObstacle type ref segment],
             ObstacleSystem.push (length σo) this).
Proof.
  unfold ObstacleSystem.spawnObstacle.
  destruct (Terrain.findSegment σs (Terrain.segments terrain)
              (Terrain.cameraX terrain + Terrain.canvasWidth terrain + 200))
    as [ref|] eqn:Hfind; [| by left].
  destruct (σs !! ref) as [segment|] eqn:Hseg; [| by left].
  right. by exists ref, segment.
Qed.

Lemma makeObstacle_good type ref segment :
  good (Segment.y segment) (ObstacleSystem.makeObstacle type ref segment)
  /\ Obstacle.cleared (ObstacleSystem.makeObstacle type ref segment) = false.
Proof.
  split; [| by destruct type].
  unfold good, anchored. destruct type; cbn; repeat split; try done; lra.
Qed.

Lemma age_good level deltaTime o :
  good level o -> good level (ObstacleSystem.age deltaTime o).
Proof.
  intros (Hanchor & Hidle & Hprogress). unfold good, anchored in *.
  cbn. split; [exact Hanchor |].
  destruct (Obstacle.clearing o) eqn:Hclearing; cbn.
  - split; [done |].
    js_case (JS.ge (Obstacle.clearProgress o + deltaTime * 2) 1.0);
      [done | intros _; lra].
  - destruct (Hidle eq_refl) as [Hcleared Hzero].
    split; [done |]. intros _. rewrite Hzero. lra.
Qed.

Lemma foldl_age_good level deltaTime refs :
  forall (σo : list Obstacle.t) (ref : nat),
    (exists o, σo !! ref = Some o /\ good level o) ->
    exists o',
      foldl (fun σ r => alter (ObstacleSystem.age deltaTime) r σ) σo refs
        !! ref = Some o'
      /\ good level o'.
Proof.
  induction refs as [|r rest IH]; intros σo ref (o & Ho & Hgood).
  - by exists o.
  - cbn [foldl]. apply IH.
    destruct (decide (r = ref)) as [-> | Hne].
    + exists (ObstacleSystem.age deltaTime o).
      split; [| by apply age_good].
      rewrite list_lookup_alter_eq, Ho. done.
    + exists o. split; [| done].
      by rewrite list_lookup_alter_ne.
Qed.

Lemma filter_keep_live level σo cameraX refs :
  array_good level σo refs ->
  array_live level σo (List.filter (ObstacleSystem.keep σo cameraX) refs).
Proof.
  unfold array_good, array_live.
  induction 1 as [|ref refs (o & Ho & Hgood) _ IH]; [constructor |].
  cbn [List.filter].
  destruct (ObstacleSystem.keep σo cameraX ref) eqn:Hkeep; [| exact IH].
  constructor; [| exact IH].
  exists o. unfold ObstacleSystem.keep in Hkeep. rewrite Ho in Hkeep.
  apply andb_true_iff in Hkeep as [Hcleared _].
  apply negb_true_iff in Hcleared. done.
Qed.

Lemma array_live_good level σo refs :
  array_live level σo refs -> array_good level σo refs.
Proof.
  intros H. eapply Forall_impl; [exact H |].
  intros ref (o & Ho & Hgood & _). by exists o.
Qed.

Lemma array_good_app level σo fresh refs :
  array_good level σo refs -> array_good level (σo ++ fresh) refs.
Proof.
  intros H. eapply Forall_impl; [exact H |].
  intros ref (o & Ho & Hgood). exists o.
  split; [| done]. by apply lookup_app_l_Some.
Qed.

Lemma update_array_live n σs σo this deltaTime terrain distance rand jitter :
  terrain_inv n σs terrain ->
  array_live (Terrain.baseY terrain) σo (ObstacleSystem.obstacles this) ->
  let '(_, σo', this') :=
    ObstacleSystem.update σs σo this deltaTime terrain distance rand jitter in
  array_live (Terrain.baseY terrain) σo' (ObstacleSystem.obstacles this').
Proof.
  intros Hinv Hlive. apply array_live_good in Hlive.
  unfold ObstacleSystem.update.
  set (level := Terrain.baseY terrain) in *.
  assert (Hspawned :
            let '(_, σo1, this1) :=
              ObstacleSystem.spawnObstacle σs σo this terrain distance rand in
            array_good level σo1 (ObstacleSystem.obstacles this1)).
  { destruct (spawnObstacle_found σs σo this terrain distance rand)
      as [-> | (ref & segment & Hfind & Hseg & ->)]; [exact Hlive |].
    cbn [ObstacleSystem.push ObstacleSystem.obstacles].
    apply Forall_app. split; [by apply array_good_app |].
    apply Forall_singleton. eexists. split.
    - apply list_lookup_middle. reflexivity.
    - destruct (segment_level _ _ _ _ _ _ Hinv Hfind Hseg) as [Hy _].
      unfold level. rewrite <- Hy. apply makeObstacle_good. }
  assert (Hstep : forall (σo1 : list Obstacle.t) this1,
             array_good level σo1 (ObstacleSystem.obstacles this1) ->
             array_live level
               (foldl (fun σ r => alter (ObstacleSystem.age deltaTime) r σ)
                      σo1 (ObstacleSystem.obstacles this1))
               (List.filter
                  (ObstacleSystem.keep
                     (foldl
                        (fun σ r => alter (ObstacleSystem.age deltaTime) r σ)
                        σo1 (ObstacleSystem.obstacles this1))
                     (Terrain.cameraX terrain))
                  (ObstacleSystem.obstacles this1))).
  { intros σo1 this1 Hgood. apply filter_keep_live.
    unfold array_good in *. rewrite Forall_forall in *.
    intros ref Hin. apply foldl_age_good. by apply Hgood. }
  destruct (JS.gt distance (ObstacleSystem.nextObstacleDistance this)).
  - destruct (ObstacleSystem.spawnObstacle σs σo this terrain distance rand)
      as [[σs' σo'] this'].
    cbn [ObstacleSystem.obstacles]. by apply (Hstep σo' this').
  - by apply (Hstep σo this).
Qed.

Lemma clearObstacle_array_live level σs σo this ref now hit σs' σo' this' :
  array_live level σo (ObstacleSystem.obstacles this) ->
  ObstacleSystem.clearObstacle σs σo this ref now
  = Some (hit, (σs', σo', this')) ->
  array_live level σo' (ObstacleSystem.obstacles this').
Proof.
  intros Hlive Hclear. unfold ObstacleSystem.clearObstacle in Hclear.
  destruct (σo !! ref) as [obstacle|] eqn:Hobs; [| discriminate].
  cbn [mbind option_bind] in Hclear.
  destruct (Obstacle.cleared obstacle || Obstacle.clearing obstacle)
    eqn:Hflags.
  { by injection Hclear as <- <- <- <-. }
  apply orb_false_iff in Hflags as [Hcleared Hclearing].
  injection Hclear as <- <- <- <-. cbn [ObstacleSystem.obstacles].
  eapply Forall_impl; [exact Hlive |].
  intros r (o & Ho & Hgood & Hc).
  destruct (decide (r = ref)) as [-> | Hne].
  - exists (Obstacle.set_clearing true obstacle).
    rewrite Hobs in Ho. injection Ho as <-.
    split; [apply list_lookup_insert_eq; by eapply lookup_lt_Some |].
    split; [| done].
    destruct Hgood as (Hanchor & Hidle & Hprogress).
    unfold good, anchored in *. cbn.
    split; [exact Hanchor |]. split; [done |]. by intros _; apply Hprogress.
  - exists o. by rewrite list_lookup_insert_ne.
Qed.

Lemma run_array_live n w :
  run n w ->
  array_live (Terrain.baseY (terr w)) (obss w)
             (ObstacleSystem.obstacles (osys w)).
Proof.
  induction 1 as [canvasWidth canvasHeight
                 | n w canvasWidth canvasHeight Hrun IH
                 | n w deltaTime distance herbieX Hrun IH
                 | n w deltaTime distance rand jitter Hrun IH
                 | n w ref now hit w' Hrun IH Htap].
  - unfold startGame.
    destruct (Terrain.init (segs newWorld) (terr newWorld) canvasWidth
                canvasHeight).
    constructor.
  - unfold startGame.
    destruct (Terrain.init (segs w) (terr w) canvasWidth canvasHeight).
    constructor.
  - unfold terrainUpdate.
    pose proof (update_fields (segs w) (terr w) deltaTime distance herbieX)
      as (_ & _ & Hbase & _).
    destruct (Terrain.update (segs w) (terr w) deltaTime distance herbieX).
    cbn in *. by rewrite Hbase.
  - unfold obstaclesUpdate.
    pose proof (update_array_live n (segs w) (obss w) (osys w) deltaTime
                  (terr w) distance rand jitter (run_terrain_inv _ _ Hrun) IH)
      as Hup.
    destruct (ObstacleSystem.update (segs w) (obss w) (osys w) deltaTime
                (terr w) distance rand jitter) as [[σs' σo'] this'].
    exact Hup.
  - unfold tapObstacle in Htap.
    destruct (ObstacleSystem.clearObstacle (segs w) (obss w) (osys w) ref now)
      as [[hit' [[σs' σo'] this']]|] eqn:Hclear; [| discriminate].
    cbn [mbind option_bind] in Htap. injection Htap as <- <-.
    cbn [terr obss osys].
    exact (clearObstacle_array_live _ _ _ _ _ _ _ _ _ _ IH Hclear).
Qed.

(** X11. In a run, every obstacle of the obstacle array is an object that is
    not cleared, whose clear progress is below 1 and is 0 until it is
    tapped, and that stands where the current ground puts it: a gap in the
    ground, a wall 60, a platform 50 and a barrier 80 above it. *)
Theorem array_obstacles_are_live n w ref :
  run n w ->
  ref ∈ ObstacleSystem.obstacles (osys w) ->
  exists obstacle,
    obss w !! ref = Some obstacle
    /\ Obstacle.cleared obstacle = false
    /\ Obstacle.clearProgress obstacle < 1
    /\ (Obstacle.clearing obstacle = false ->
        Obstacle.clearProgress obstacle = 0)
    /\ anchored (Terrain.canvasHeight (terr w) * 0.7) obstacle.
Proof.
  intros Hrun Hin.
  pose proof (run_array_live n w Hrun) as Hlive.
  unfold array_live in Hlive. rewrite Forall_forall in Hlive.
  destruct (Hlive ref Hin) as (o & Ho & (Hanchor & Hidle & Hprogress) & Hc).
  destruct (run_terrain_inv n w Hrun) as [_ Hlevel _ _ _].
  exists o. rewrite <- Hlevel.
  repeat split; try done; [by apply Hprogress | by apply Hidle].
Qed.

(** The gap of [gapSpawned]. *)
Lemma array_obstacles_are_live_witness :
  exists obstacle,
    obss gapSpawned !! 0%nat = Some obstacle
    /\ Obstacle.cleared obstacle = false
    /\ Obstacle.clearProgress obstacle < 1.
Proof.
  destruct (array_obstacles_are_live 0 gapSpawned 0)
    as (obstacle & Hobs & Hcleared & Hprogress & _).
  - apply run_obstacles, run_start.
  - vm_compute. apply elem_of_cons. by left.
  - exists obstacle.
    split; [exact Hobs | split; [exact Hcleared | exact Hprogress]].
Defined.

(** ** The state machine of a started game *)

Lemma frame_step elapsed :
  0 < elapsed -> 0 < Qmin (elapsed / 1000) 0.1 <= 0.1.
Proof.
  intros Hpos. split; [| apply Q.le_min_r].
  apply Q.min_glb_lt; [| lra]. apply Qlt_shift_div_l; lra.
Qed.

Lemma update_shell this deltaTime rand jitter now this' :
  Game.update this deltaTime rand jitter now = Some this' ->
  exists s1 ended,
    Game.updateState (Game.st this) deltaTime rand jitter now = Some s1
    /\ Game.checkFailureConditions s1 = Some ended
    /\ this' = Game.mk (if ended : bool then Game.gameover
                        else Game.gameState this)
                       s1
                       (if ended then InputSystem.disable (Game.input this)
                        else Game.input this)
                       (Game.ui this).
Proof.
  unfold Game.update. intros Hup.
  destruct (Game.updateState (Game.st this) deltaTime rand jitter now)
    as [s1|] eqn:Hs1; [| discriminate].
  cbn [mbind option_bind] in Hup.
  destruct (Game.checkFailureConditions s1) as [ended|] eqn:Hended;
    [| discriminate].
  cbn [mbind option_bind] in Hup. injection Hup as <-.
  exists s1, ended. by destruct ended.
Qed.

Lemma tap_shell g canvasX canvasY now g' :
  Taps.handlePointerDown g canvasX canvasY now = Some g' ->
  Game.gameState g' = Game.gameState g
  /\ Game.input g' = Game.input g
  /\ Game.ui g' = Game.ui g.
Proof.
  unfold Taps.handlePointerDown, Taps.handleObstacleTap, Taps.handleHikerTap.
  intros Htap.
  destruct (ObstacleSystem.hitTest _ _ _ _) as [ref|].
  - destruct (ObstacleSystem.clearObstacle _ _ _ _ _)
      as [[success [[σs σo] obstacles1]]|]; [| discriminate].
    cbn [mbind option_bind] in Htap. by injection Htap as <-.
  - destruct (Taps.hitTestHikers _ _ _) as [i|].
    + destruct (HikerSystem.offloadHiker _ _) as [hikers1|]; [| discriminate].
      cbn [mbind option_bind] in Htap. by injection Htap as <-.
    + by injection Htap as <-.
Qed.

Lemma startGame_shell this canvasWidth canvasHeight this' :
  Game.startGame this canvasWidth canvasHeight = Some this' ->
  Game.gameState this' = Game.playing
  /\ Game.input this' = InputSystem.enable (Game.input this)
  /\ Game.ui this' = UISystem.mk (Some true).
Proof.
  unfold Game.startGame. intros Hstart.
  destruct (Terrain.init _ _ _ _) as [σs terrain1].
  destruct (HikerSystem.hikers _ !! 0%nat) as [herbie|]; [| discriminate].
  cbn [mbind option_bind] in Hstart.
  unfold UISystem.showHUD in Hstart.
  destruct (UISystem.pauseOverlay (Game.ui this)); [| discriminate].
  cbn [mbind option_bind] in Hstart. by injection Hstart as <-.
Qed.

Lemma startGame_consistent this canvasWidth canvasHeight this' :
  Game.startGame this canvasWidth canvasHeight = Some this' ->
  consistent this'.
Proof.
  intros Hstart.
  destruct (startGame_shell _ _ _ _ Hstart) as (Htag & Hinput & Hui).
  unfold consistent. rewrite Htag, Hinput, Hui. split; [| reflexivity].
  destruct (Game.input this) as [[|]]; cbn; split; reflexivity.
Qed.

Lemma disabled_not_playing input tag :
  tag <> Game.playing ->
  InputSystem.isEnabled (InputSystem.disable input) = true
  <-> tag = Game.playing.
Proof.
  intros Htag. destruct input as [[|]]; cbn; split; intros H;
    try discriminate; by destruct Htag.
Qed.

Lemma played_consistent g : played g -> consistent g.
Proof.
  induction 1 as [ui0 cw ch g Hcw Hstart
                 | g cw ch g' _ _ Hcw Hstart
                 | g elapsed rand jitter now g' _ IH Hel Hframe
                 | g g' _ IH Hpause
                 | g g' _ IH Hresume
                 | g g' _ IH Htitle
                 | g cx cy now g' _ IH Hen Htap].
  - exact (startGame_consistent _ _ _ _ Hstart).
  - exact (startGame_consistent _ _ _ _ Hstart).
  - unfold Game.frame in Hframe.
    destruct (Game.tag_eqb (Game.gameState g) Game.playing) eqn:Htag.
    2: { by injection Hframe as <-. }
    destruct (update_shell _ _ _ _ _ _ Hframe) as (s1 & ended & _ & _ & ->).
    destruct IH as [Hin Hov]. unfold consistent.
    cbn [Game.gameState Game.input Game.ui].
    destruct (Game.gameState g); try discriminate.
    destruct ended.
    + split; [by apply disabled_not_playing | exact Hov].
    + split; [exact Hin | exact Hov].
  - unfold Game.pauseGame in Hpause. destruct IH as [Hin Hov].
    destruct (Game.gameState g) eqn:Htag; cbn in Hpause.
    1, 3, 4: injection Hpause as <-; unfold consistent; rewrite Htag;
      split; [exact Hin | exact Hov].
    unfold UISystem.showPause in Hpause. rewrite Hov in Hpause.
    cbn in Hpause. injection Hpause as <-. unfold consistent.
    cbn [Game.gameState Game.input Game.ui].
    split; [by apply disabled_not_playing | reflexivity].
  - unfold Game.resumeGame in Hresume. destruct IH as [Hin Hov].
    destruct (Game.gameState g) eqn:Htag; cbn in Hresume.
    1, 2, 4: injection Hresume as <-; unfold consistent; rewrite Htag;
      split; [exact Hin | exact Hov].
    unfold UISystem.hidePause in Hresume. rewrite Hov in Hresume.
    cbn in Hresume. injection Hresume as <-. unfold consistent.
    cbn [Game.gameState Game.input Game.ui].
    split; [| reflexivity].
    destruct (Game.input g) as [[|]]; cbn; split; reflexivity.
  - unfold Game.showTitle, UISystem.showTitle in Htitle.
    destruct IH as [Hin Hov]. rewrite Hov in Htitle. cbn in Htitle.
    injection Htitle as <-. unfold consistent.
    cbn [Game.gameState Game.input Game.ui].
    split; [by apply disabled_not_playing | reflexivity].
  - destruct (tap_shell _ _ _ _ _ Htap) as (Htag & Hinput & Hui).
    unfold consistent. rewrite Htag, Hinput, Hui. exact IH.
Qed.

(** X12. In a started game the input is enabled exactly while the game is
    playing, the pause overlay is shown exactly while it is paused, and a
    frame of the loop leaves a game that is not playing as it is. *)
Theorem input_and_overlay_follow_state g :
  played g ->
  (InputSystem.isEnabled (Game.input g) = true
   <-> Game.gameState g = Game.playing)
  /\ (UISystem.pauseOverlay (Game.ui g) = Some false
      <-> Game.gameState g = Game.paused)
  /\ (Game.gameState g <> Game.playing ->
      forall elapsed rand jitter now,
        Game.frame g elapsed rand jitter now = Some g).
Proof.
  intros Hplayed. destruct (played_consistent g Hplayed) as [Hin Hov].
  split; [exact Hin |]. split.
  - rewrite Hov. by destruct (Game.gameState g).
  - intros Htag elapsed rand jitter now. unfold Game.frame.
    by destruct (Game.gameState g).
Qed.

(** A game on a page whose pause overlay starts hidden, just started. *)
Lemma input_and_overlay_follow_state_witness :
  exists g,
    Game.startGame (Game.new (UISystem.mk (Some true))) 800 600 = Some g
    /\ InputSystem.isEnabled (Game.input g) = true
    /\ Game.gameState g = Game.playing.
Proof.
  destruct (Game.startGame (Game.new (UISystem.mk (Some true))) 800 600)
    as [g|] eqn:Hstart; [| vm_compute in Hstart; discriminate].
  assert (Hplayed : played g).
  { apply (played_start (UISystem.mk (Some true)) 800 600 g);
      [lra | exact Hstart]. }
  destruct (input_and_overlay_follow_state g Hplayed) as (Hin & _ & _).
  destruct (startGame_shell _ _ _ _ Hstart) as (Htag & _ & _).
  exists g. split; [reflexivity |]. split; [by apply Hin | exact Htag].
Defined.

(** X13. Pausing a playing game and resuming it gives the game back as it was;
    while it is paused, frames change nothing. *)
Theorem pause_then_resume g :
  played g ->
  Game.gameState g = Game.playing ->
  exists g1,
    Game.pauseGame g = Some g1
    /\ Game.gameState g1 = Game.paused
    /\ Game.st g1 = Game.st g
    /\ (forall elapsed rand jitter now,
          Game.frame g1 elapsed rand jitter now = Some g1)
    /\ Game.resumeGame g1 = Some g.
Proof.
  intros Hplayed Htag. destruct (played_consistent g Hplayed) as [Hin Hov].
  apply Hin in Htag as Henabled.
  destruct g as [tag s [enabled] [overlay]]. cbn in *. subst tag enabled.
  cbn in Hov. subst overlay.
  eexists. repeat split.
Qed.

Lemma pause_then_resume_witness :
  exists g g1,
    Game.startGame (Game.new (UISystem.mk (Some true))) 800 600 = Some g
    /\ Game.pauseGame g = Some g1
    /\ Game.resumeGame g1 = Some g.
Proof.
  destruct (Game.startGame (Game.new (UISystem.mk (Some true))) 800 600)
    as [g|] eqn:Hstart; [| vm_compute in Hstart; discriminate].
  assert (Hplayed : played g).
  { apply (played_start (UISystem.mk (Some true)) 800 600 g);
      [lra | exact Hstart]. }
  destruct (startGame_shell _ _ _ _ Hstart) as (Htag & _ & _).
  destruct (pause_then_resume g Hplayed Htag)
    as (g1 & Hpause & _ & _ & _ & Hresume).
  exists g, g1. split; [reflexivity |]. split; [exact Hpause | exact Hresume].
Defined.

(** ** The invariant of a started game *)

Lemma generateSegments_fields m :
  forall σ this,
    let σ' := (Terrain.generateSegments m σ this).1 in
    let this' := (Terrain.generateSegments m σ this).2 in
    Terrain.cameraX this' = Terrain.cameraX this
    /\ Terrain.canvasWidth this' = Terrain.canvasWidth this
    /\ Terrain.baseY this' = Terrain.baseY this
    /\ Terrain.segments this' = Terrain.segments this ++ seq (length σ) m
    /\ length σ' = (length σ + m)%nat
    /\ Terrain.nextSegmentX this'
       == Terrain.nextSegmentX this
          + inject_Z (Z.of_nat m) * Terrain.segmentWidth this.
Proof.
  induction m as [|m IH]; intros σ this.
  - cbn. rewrite app_nil_r, Nat.add_0_r. repeat split; try done. ring.
  - cbn [Terrain.generateSegments].
    destruct (Terrain.generateSegment σ this) as [σ1 this1] eqn:Hgen.
    unfold Terrain.generateSegment in Hgen. injection Hgen as <- <-.
    match goal with
    | |- context [Terrain.generateSegments m ?s ?t] =>
        destruct (IH s t) as (Hcam & Hcw & Hb & Hsegs & Hlen & Hnext)
    end.
    cbn [Terrain.cameraX Terrain.canvasWidth Terrain.segments Terrain.baseY
         Terrain.nextSegmentX Terrain.segmentWidth] in *.
    rewrite Hcam, Hcw, Hb, Hsegs, Hlen, Hnext.
    rewrite length_app, Nat.add_1_r. cbn [length seq].
    rewrite <- app_assoc. cbn [app].
    repeat split; try done; [lia |].
    rewrite Nat2Z.inj_succ. unfold Z.succ. rewrite inject_Z_plus. ring.
Qed.

Lemma strip_filter_first σ level refs :
  forall first next cam,
    strip σ level refs first next ->
    exists first',
      strip σ level (List.filter (Terrain.inView σ cam) refs) first' next
      /\ (first' = first \/ first' <= cam - 100).
Proof.
  induction refs as [|r rest IH]; intros first next cam Hstrip.
  - exists first. split; [exact Hstrip | by left].
  - pose proof Hstrip as (seg & Hseg & Hx & Hy & Hw & Hrest).
    destruct (Qlt_le_dec (cam - 100) (first + 150)) as [Hin | Hout].
    + exists first. split; [| by left].
      by rewrite (strip_all_in_view _ _ _ _ _ cam Hstrip Hin).
    + destruct (IH _ _ cam Hrest) as (first' & Hstrip' & Hfirst').
      exists first'. split.
      * cbn [List.filter]. unfold Terrain.inView at 1. rewrite Hseg.
        rewrite Hx, Hw.
        assert (Hgt : JS.gt (first + 150) (cam - 100) = false)
          by by apply gt_false.
        by rewrite Hgt.
      * right. destruct Hfirst' as [-> | Hle]; [exact Hout | exact Hle].
Qed.

Lemma generateWhile_strip fuel rightEdge level :
  forall σ this first,
    Terrain.segmentWidth this = 150 ->
    Terrain.baseY this = level ->
    strip σ level (Terrain.segments this) first (Terrain.nextSegmentX this) ->
    let σ' := (Terrain.generateWhile fuel rightEdge σ this).1 in
    let this' := (Terrain.generateWhile fuel rightEdge σ this).2 in
    strip σ' level (Terrain.segments this') first (Terrain.nextSegmentX this').
Proof.
  induction fuel as [|fuel IH]; intros σ this first Hw Hb Hstrip; [done |].
  cbn [Terrain.generateWhile].
  destruct (JS.lt (Terrain.nextSegmentX this) rightEdge); [| done].
  destruct (Terrain.generateSegment σ this) as [σ1 this1] eqn:Hgen.
  unfold Terrain.generateSegment in Hgen. injection Hgen as <- <-.
  apply IH; cbn; try done.
  rewrite Hw. by apply strip_snoc.
Qed.

Lemma update_strip σ this deltaTime distance herbieX first :
  Terrain.segmentWidth this = 150 ->
  strip σ (Terrain.baseY this) (Terrain.segments this) first
        (Terrain.nextSegmentX this) ->
  let σ' := (Terrain.update σ this deltaTime distance herbieX).1 in
  let this' := (Terrain.update σ this deltaTime distance herbieX).2 in
  exists first',
    strip σ' (Terrain.baseY this') (Terrain.segments this') first'
          (Terrain.nextSegmentX this')
    /\ (first' = first \/ first' <= Terrain.cameraX this' - 100).
Proof.
  intros Hw Hstrip. unfold Terrain.update.
  match goal with
  | |- context [Terrain.generateWhile ?f ?e ?s ?t] =>
      pose proof (generateWhile_strip f e (Terrain.baseY this) s t first
                    Hw eq_refl Hstrip) as Hgrown;
      pose proof (generateWhile_fields f e s t) as (Hb & _);
      destruct (Terrain.generateWhile f e s t) as [σ2 this2]
  end.
  cbn in *. rewrite Hb.
  exact (strip_filter_first _ _ _ _ _ (Terrain.cameraX this2) Hgrown).
Qed.

Lemma strip_covers σ level refs :
  forall first next px,
    strip σ level refs first next ->
    first <= px < next ->
    exists r seg,
      Terrain.findSegment σ refs px = Some r
      /\ σ !! r = Some seg
      /\ Segment.y seg = level
      /\ Terrain.covers px seg = true.
Proof.
  induction refs as [|r rest IH]; intros first next px Hstrip [Hlo Hhi].
  - cbn in Hstrip. subst next. lra.
  - destruct Hstrip as (seg & Hseg & Hx & Hy & Hw & Hrest).
    cbn [Terrain.findSegment]. rewrite Hseg.
    destruct (Terrain.covers px seg) eqn:Hcov.
    + by exists r, seg.
    + apply IH with (first + 150) next; [exact Hrest |].
      split; [| exact Hhi].
      apply not_true_iff_false in Hcov. rewrite covers_true in Hcov.
      rewrite Hx, Hw in Hcov.
      destruct (Qlt_le_dec px (first + 150)); [| done].
      exfalso. apply Hcov. by split.
Qed.

Lemma getYAtX_level n σ this px v :
  terrain_inv n σ this ->
  Terrain.getYAtX σ this px = Some v -> v = Terrain.baseY this.
Proof.
  intros Hinv. unfold Terrain.getYAtX.
  destruct (Terrain.findSegment σ (Terrain.segments this) px) as [r|] eqn:Hr;
    [| done].
  destruct (σ !! r) as [seg|] eqn:Hseg; [| done].
  destruct (segment_level _ _ _ _ _ _ Hinv Hr Hseg) as [Hy _].
  destruct (Segment.hasGap seg); cbn; [done |]. by intros [= <-].
Qed.

Lemma step_grounded this deltaTime σ terrain herbieSpeed ahead level hiker :
  (forall px v, Terrain.getYAtX σ terrain px = Some v -> v = level) ->
  grounded level hiker ->
  grounded level
    (HikerSystem.stepHiker this deltaTime σ terrain herbieSpeed ahead hiker).
Proof.
  intros Hground (Hy & Htarget & Hsize).
  unfold HikerSystem.stepHiker.
  destruct (HikerSystem.pace this herbieSpeed ahead hiker) as [w speed].
  unfold grounded. cbn.
  match goal with
  | |- context [Terrain.getYAtX σ terrain ?px] =>
      destruct (Terrain.getYAtX σ terrain px) as [g|] eqn:Hg
  end.
  - apply Hground in Hg. subst g. repeat split; try done.
    rewrite Hy. ring.
  - repeat split; try done. rewrite Hy, Htarget. ring.
Qed.

Lemma walk_grounded this deltaTime σ terrain herbieSpeed level hs :
  (forall px v, Terrain.getYAtX σ terrain px = Some v -> v = level) ->
  forall ahead,
    Forall (grounded level) hs ->
    Forall (grounded level)
           (walk this deltaTime σ terrain herbieSpeed ahead hs).
Proof.
  intros Hground. induction hs as [|hiker rest IH]; intros ahead Hall.
  - constructor.
  - apply Forall_cons in Hall as [Hh Hrest]. cbn [walk].
    constructor; [by apply step_grounded | by apply IH].
Qed.

Lemma init_herbie this startX startY :
  HikerSystem.hikers (HikerSystem.init this startX startY) !! 0%nat
  = Some {| Hiker.index := 0; Hiker.baseSpeed := 1.0;
            Hiker.currentSpeed := 1.0;
            Hiker.x := startX
                       - inject_Z (Z.of_nat 0) * HikerSystem.spacing this;
            Hiker.y := startY; Hiker.targetY := startY;
            Hiker.vx := 0; Hiker.vy := 0; Hiker.size := 16;
            Hiker.glowRadius := 16; Hiker.isWaiting := false;
            Hiker.offloadBoost := 0; Hiker.pulseTime := 0 |}.
Proof. reflexivity. Qed.

Lemma init_grounded this startX startY :
  Forall (grounded startY)
         (HikerSystem.hikers (HikerSystem.init this startX startY)).
Proof.
  unfold HikerSystem.init, HikerSystem.set_hikers, HikerSystem.baseSpeeds.
  cbn [HikerSystem.hikers imap].
  repeat (apply Forall_cons_2; [unfold grounded; cbn; by repeat split |]).
  apply Forall_nil_2.
Qed.

Lemma startGame_state this canvasWidth canvasHeight this' :
  Game.startGame this canvasWidth canvasHeight = Some this' ->
  let s := Game.st this in
  let world' :=
    Terrain.init (Game.segmentStore s) (Game.terrain s) canvasWidth
                 canvasHeight in
  Game.st this'
  = {| Game.segmentStore := world'.1;
       Game.obstacleStore := Game.obstacleStore s;
       Game.terrain := world'.2;
       Game.hikers :=
         HikerSystem.setHerbieLabel
           (HikerSystem.init (Game.hikers s) 200 (canvasHeight * 0.7)) 6;
       Game.obstacles := ObstacleSystem.init (Game.obstacles s);
       Game.distance := 0; Game.score := 0;
       Game.flowMultiplier := JS.Fin 1.0; Game.lastFlowUpdate := 0;
       Game.runStartX :=
         200 - inject_Z (Z.of_nat 0) * HikerSystem.spacing (Game.hikers s);
       Game.obstaclesCleared := 0 |}.
Proof.
  unfold Game.startGame. intros Hstart.
  destruct (Terrain.init (Game.segmentStore (Game.st this))
              (Game.terrain (Game.st this)) canvasWidth canvasHeight)
    as [σs terrain1].
  rewrite init_herbie in Hstart. cbn [mbind option_bind] in Hstart.
  destruct (UISystem.showHUD (Game.ui this)) as [ui1|]; [| discriminate].
  cbn [mbind option_bind] in Hstart. injection Hstart as <-.
  reflexivity.
Qed.

Lemma init_fields σ this canvasWidth canvasHeight :
  let σ' := (Terrain.init σ this canvasWidth canvasHeight).1 in
  let this' := (Terrain.init σ this canvasWidth canvasHeight).2 in
  Terrain.cameraX this' = 0
  /\ Terrain.canvasWidth this' = canvasWidth
  /\ Terrain.baseY this' = canvasHeight * 0.7
  /\ Terrain.segments this' = seq (length σ) 10
  /\ length σ' = (length σ + 10)%nat
  /\ Terrain.nextSegmentX this'
     == 0 + inject_Z (Z.of_nat 10) * Terrain.segmentWidth this.
Proof.
  unfold Terrain.init.
  exact (generateSegments_fields 10 σ
           (Terrain.mk 0 (Terrain.scrollSpeed this) []
              (Terrain.segmentWidth this) (canvasHeight * 0.7) 0
              canvasWidth canvasHeight)).
Qed.

Lemma startGame_eq w canvasWidth canvasHeight :
  startGame w canvasWidth canvasHeight
  = mkWorld (Terrain.init (segs w) (terr w) canvasWidth canvasHeight).1
            (obss w)
            (Terrain.init (segs w) (terr w) canvasWidth canvasHeight).2
            (ObstacleSystem.init (osys w)).
Proof.
  unfold startGame.
  by destruct (Terrain.init (segs w) (terr w) canvasWidth canvasHeight).
Qed.

Lemma terrainUpdate_eq w deltaTime distance herbieX :
  terrainUpdate w deltaTime distance herbieX
  = mkWorld
      (Terrain.update (segs w) (terr w) deltaTime distance herbieX).1
      (obss w)
      (Terrain.update (segs w) (terr w) deltaTime distance herbieX).2
      (osys w).
Proof.
  unfold terrainUpdate.
  by destruct (Terrain.update (segs w) (terr w) deltaTime distance herbieX).
Qed.

Lemma obstaclesUpdate_eq w deltaTime distance rand jitter :
  let r :=
    ObstacleSystem.update (segs w) (obss w) (osys w) deltaTime (terr w)
                          distance rand jitter in
  obstaclesUpdate w deltaTime distance rand jitter
  = mkWorld r.1.1 r.1.2 (terr w) r.2.
Proof.
  unfold obstaclesUpdate.
  by destruct (ObstacleSystem.update (segs w) (obss w) (osys w) deltaTime
                 (terr w) distance rand jitter) as [[σs σo] this'].
Qed.

Lemma startGame_inv this canvasWidth canvasHeight this' :
  (exists n,
      run n (startGame (worldOf (Game.st this)) canvasWidth canvasHeight)) ->
  reachable (HikerSystem.init (Game.hikers (Game.st this)) 200
                              (canvasHeight * 0.7)) ->
  Terrain.segmentWidth (Game.terrain (Game.st this)) = 150 ->
  0 < canvasWidth ->
  Game.startGame this canvasWidth canvasHeight = Some this' ->
  game_inv (Game.st this').
Proof.
  intros Hrun Hreach Hw Hcw Hstart.
  rewrite (startGame_state _ _ _ _ Hstart).
  rewrite startGame_eq in Hrun. unfold worldOf in Hrun.
  cbn [segs obss terr osys] in Hrun.
  pose proof (init_terrain_inv (Game.segmentStore (Game.st this)) (Game.terrain (Game.st this))
                canvasWidth canvasHeight Hw) as Hinv.
  pose proof (init_fields (Game.segmentStore (Game.st this)) (Game.terrain (Game.st this))
                canvasWidth canvasHeight)
    as (Hcam & Hwidth & Hb & Hsegs & Hlen & Hnext).
  destruct (Terrain.init (Game.segmentStore (Game.st this)) (Game.terrain (Game.st this)) canvasWidth
              canvasHeight) as [σs terrain1].
  cbn [fst snd] in Hcam, Hwidth, Hb, Hsegs, Hlen, Hnext, Hinv, Hrun |- *.
  destruct Hinv as [Hw1 Hlevel Hbase Hall Hwindow].
  split; cbn [Game.terrain Game.hikers Game.segmentStore Game.distance
              Game.score Game.runStartX].
  - exact Hrun.
  - by apply reach_label.
  - rewrite Hb. apply init_grounded.
  - by rewrite Hwidth.
  - eexists _, 0. split; [apply init_herbie |].
    cbn [Hiker.x]. rewrite Hcam, Hwidth.
    assert (Hx : 200 - inject_Z (Z.of_nat 0) * HikerSystem.spacing
                                                 (Game.hikers (Game.st this)) == 200).
    { change (Z.of_nat 0) with 0%Z. ring. }
    assert (Hstrip : strip σs (Terrain.baseY terrain1)
                       (Terrain.segments terrain1) 0
                       (Terrain.nextSegmentX terrain1)).
    { rewrite Hsegs.
      replace (length σs - length (Game.segmentStore (Game.st this)))%nat with 10%nat
        in Hall by lia.
      exact Hall. }
    rewrite Hw in Hnext.
    assert (Hfar : 200 < Terrain.nextSegmentX terrain1).
    { rewrite Hnext. reflexivity. }
    repeat split.
    + rewrite Hx. lra.
    + lra.
    + apply Q.le_max_l.
    + rewrite Hx. lra.
    + rewrite Hx. exact Hfar.
    + exact Hstrip.
    + apply Q.le_max_l.
    + rewrite Q.max_l by lra. reflexivity.
Qed.

Lemma camera_step x x1 cw c dt :
  0 < cw -> 0 < dt <= 0.1 -> 0 <= x -> x <= x1 -> x1 <= x + 200 * dt ->
  0 <= c -> c <= Qmax 0 (x - cw * 0.3) -> x - cw * 0.3 - c <= 200 ->
  let c1 := c + (Qmax 0 (x1 - cw * 0.3) - c) * Qmin 1 (dt * 4) in
  0 <= c1 /\ c <= c1 /\ c1 <= Qmax 0 (x1 - cw * 0.3)
  /\ x1 - cw * 0.3 - c1 <= 200.
Proof.
  intros Hcw Hdt Hx Hx1 Hfar Hc HcT Hlag c1. unfold c1.
  assert (Ha : Qmin 1 (dt * 4) == dt * 4) by (apply Q.min_r; lra).
  assert (HT : Qmax 0 (x - cw * 0.3) <= Qmax 0 (x1 - cw * 0.3))
    by (apply Q.max_le_compat_l; lra).
  assert (HT0 : 0 <= Qmax 0 (x1 - cw * 0.3)) by apply Q.le_max_l.
  assert (HT1 : x1 - cw * 0.3 <= Qmax 0 (x1 - cw * 0.3)) by apply Q.le_max_r.
  set (T1 := Qmax 0 (x1 - cw * 0.3)) in *.
  rewrite Ha.
  assert (Hgap : 0 <= T1 - c) by lra.
  assert (H1 : 0 <= (T1 - c) * dt) by (apply Qmult_le_0_compat; lra).
  assert (H2 : 0 <= (T1 - c) * (1 - 4 * dt))
    by (apply Qmult_le_0_compat; lra).
  assert (H3 : 0 <= dt * dt) by (apply Qmult_le_0_compat; lra).
  repeat split; try lra.
  destruct (Qlt_le_dec (x1 - cw * 0.3) c) as [Hbehind | Hahead]; [lra |].
  assert (H4 : 0 <= (200 + 200 * dt - (x1 - cw * 0.3 - c)) * (1 - 4 * dt))
    by (apply Qmult_le_0_compat; lra).
  assert (H5 : 0 <= (T1 - (x1 - cw * 0.3)) * dt)
    by (apply Qmult_le_0_compat; lra).
  lra.
Qed.

Lemma herbie_step this deltaTime σ terrain this' herbie :
  caravan_inv this ->
  0 < deltaTime <= 0.1 ->
  HikerSystem.update this deltaTime σ terrain = Some this' ->
  HikerSystem.hikers this !! 0%nat = Some herbie ->
  exists herbie',
    HikerSystem.hikers this' !! 0%nat = Some herbie'
    /\ HikerSystem.hikers this'
       = walk this deltaTime σ terrain
              (Hiker.baseSpeed herbie + Hiker.offloadBoost herbie) None
              (HikerSystem.hikers this)
    /\ Hiker.x herbie <= Hiker.x herbie'
    /\ Hiker.x herbie' <= Hiker.x herbie + 200 * deltaTime.
Proof.
  intros Hinv Hdt Hup Hherbie. rewrite update_walk in Hup.
  destruct Hinv as [_ Hindex _ Htuned _]. rewrite Hindex, Hherbie in Hup.
  cbn [mbind option_bind] in Hup. injection Hup as <-.
  cbn [HikerSystem.hikers].
  eexists. split; [by apply walk_lookup_0 |]. split; [reflexivity |].
  rewrite step_x. cbn [HikerSystem.pace snd].
  rewrite Forall_lookup in Htuned.
  destruct (Htuned _ _ Hherbie) as [[Hb1 Hb2] [Ho1 Ho2]].
  set (v := Hiker.baseSpeed herbie + Hiker.offloadBoost herbie).
  assert (Hv : 0 <= v <= 2) by (unfold v; lra).
  assert (H1 : 0 <= v * deltaTime) by (apply Qmult_le_0_compat; lra).
  assert (H2 : 0 <= (2 - v) * deltaTime) by (apply Qmult_le_0_compat; lra).
  split; lra.
Qed.

Lemma updateState_eq s deltaTime rand jitter now s' :
  Game.updateState s deltaTime rand jitter now = Some s' ->
  exists hikers1 herbie flow,
    HikerSystem.update (Game.hikers s) deltaTime (Game.segmentStore s)
                       (Game.terrain s) = Some hikers1
    /\ HikerSystem.hikers hikers1 !! 0%nat = Some herbie
    /\ HikerSystem.getFlowMultiplier hikers1 = Some flow
    /\ let distance1 := Qmax 0 (Hiker.x herbie - Game.runStartX s) in
       let tu :=
         Terrain.update (Game.segmentStore s) (Game.terrain s) deltaTime
                        distance1 (Some (Hiker.x herbie)) in
       let ou :=
         ObstacleSystem.update tu.1 (Game.obstacleStore s) (Game.obstacles s)
                               deltaTime tu.2 distance1 rand jitter in
       s' = {| Game.segmentStore := ou.1.1; Game.obstacleStore := ou.1.2;
               Game.terrain := tu.2; Game.hikers := hikers1;
               Game.obstacles := ou.2;
               Game.distance := distance1; Game.score := distance1 / 10;
               Game.flowMultiplier := flow;
               Game.lastFlowUpdate :=
                 if JS.gt (now - Game.lastFlowUpdate s) 100 then now
                 else Game.lastFlowUpdate s;
               Game.runStartX := Game.runStartX s;
               Game.obstaclesCleared :=
                 ObstacleSystem.getClearedCount ou.2 |}.
Proof.
  unfold Game.updateState. intros Hup.
  destruct (HikerSystem.update (Game.hikers s) deltaTime (Game.segmentStore s)
              (Game.terrain s)) as [hikers1|]; [| discriminate].
  cbn [mbind option_bind] in Hup.
  destruct (HikerSystem.hikers hikers1 !! 0%nat) as [herbie|] eqn:Hherbie;
    [| discriminate].
  cbn [mbind option_bind] in Hup.
  destruct (Terrain.update (Game.segmentStore s) (Game.terrain s) deltaTime
              (Qmax 0 (Hiker.x herbie - Game.runStartX s))
              (Some (Hiker.x herbie))) as [σs1 terrain1] eqn:Htu.
  destruct (ObstacleSystem.update σs1 (Game.obstacleStore s)
              (Game.obstacles s) deltaTime terrain1
              (Qmax 0 (Hiker.x herbie - Game.runStartX s)) rand jitter)
    as [[σs2 σo2] obstacles1] eqn:Hou.
  destruct (HikerSystem.getFlowMultiplier hikers1) as [flow|] eqn:Hflow;
    [| discriminate].
  cbn [mbind option_bind] in Hup. injection Hup as <-.
  exists hikers1, herbie, flow.
  split; [reflexivity |]. split; [exact Hherbie |]. split; [exact Hflow |].
  cbn zeta. rewrite Htu. cbn [fst snd]. rewrite Hou. reflexivity.
Qed.

Lemma updateState_inv s deltaTime rand jitter now s' :
  game_inv s ->
  0 < deltaTime <= 0.1 ->
  Game.updateState s deltaTime rand jitter now = Some s' ->
  game_inv s'.
Proof.
  intros [[n Hrun] Hreach Hlevel Hcw
            (herbie & first & Hherbie & Hx & Hc & HcT & Hlag & Hnext
             & Hstrip & Hfirst & Hdist & Hscore)] Hdt Hup.
  destruct (updateState_eq _ _ _ _ _ _ Hup)
    as (hikers1 & herbie1 & flow & Hhup & Hherbie1 & Hflow & ->).
  pose proof (run_terrain_inv n _ Hrun) as Htinv.
  unfold worldOf in Htinv. cbn [segs terr] in Htinv.
  pose proof (reachable_inv _ Hreach) as Hcinv.
  destruct (herbie_step _ _ _ _ _ _ Hcinv Hdt Hhup Hherbie)
    as (herbie1' & Hh1' & Hwalk & Hfwd & Hfar).
  rewrite Hherbie1 in Hh1'. injection Hh1' as <-.
  set (distance1 := Qmax 0 (Hiker.x herbie1 - Game.runStartX s)).
  assert (Hw : Terrain.segmentWidth (Game.terrain s) = 150)
    by by destruct Htinv.
  pose proof (update_fields (Game.segmentStore s) (Game.terrain s) deltaTime
                distance1 (Some (Hiker.x herbie1)))
    as (Hcam & Hcw1 & Hb1 & Hw1 & _).
  pose proof (update_generates_ahead (Game.segmentStore s) (Game.terrain s)
                deltaTime distance1 (Some (Hiker.x herbie1))
                ltac:(rewrite Hw; lra)) as Hahead.
  destruct (update_strip (Game.segmentStore s) (Game.terrain s) deltaTime
              distance1 (Some (Hiker.x herbie1)) first Hw Hstrip)
    as (first' & Hstrip' & Hfirst').
  cbn zeta in Hcam, Hcw1, Hb1, Hw1, Hahead, Hstrip', Hfirst'.
  set (tu := Terrain.update (Game.segmentStore s) (Game.terrain s) deltaTime
                            distance1 (Some (Hiker.x herbie1))) in *.
  pose proof (update_segs tu.1 (Game.obstacleStore s) (Game.obstacles s)
                deltaTime tu.2 distance1 rand jitter) as Hflag.
  set (ou := ObstacleSystem.update tu.1 (Game.obstacleStore s)
               (Game.obstacles s) deltaTime tu.2 distance1 rand jitter) in *.
  destruct (camera_step (Hiker.x herbie) (Hiker.x herbie1)
              (Terrain.canvasWidth (Game.terrain s))
              (Terrain.cameraX (Game.terrain s)) deltaTime
              Hcw Hdt Hx Hfwd Hfar Hc HcT Hlag)
    as (Hc1 & Hcc1 & Hc1T & Hlag1).
  rewrite <- Hcam in Hc1, Hcc1, Hc1T, Hlag1.
  split; cbn [Game.terrain Game.hikers Game.segmentStore Game.obstacleStore
              Game.obstacles Game.distance Game.score Game.runStartX].
  - exists n.
    assert (Heq : worldOf
                    {| Game.segmentStore := ou.1.1;
                       Game.obstacleStore := ou.1.2;
                       Game.terrain := tu.2; Game.hikers := hikers1;
                       Game.obstacles := ou.2;
                       Game.distance := distance1;
                       Game.score := distance1 / 10;
                       Game.flowMultiplier := flow;
                       Game.lastFlowUpdate :=
                         if JS.gt (now - Game.lastFlowUpdate s) 100 then now
                         else Game.lastFlowUpdate s;
                       Game.runStartX := Game.runStartX s;
                       Game.obstaclesCleared :=
                         ObstacleSystem.getClearedCount ou.2 |}
                  = obstaclesUpdate
                      (terrainUpdate (worldOf s) deltaTime distance1
                                     (Some (Hiker.x herbie1)))
                      deltaTime distance1 rand jitter).
    { rewrite obstaclesUpdate_eq, terrainUpdate_eq. reflexivity. }
    rewrite Heq. by apply run_obstacles, run_terrain.
  - by apply (reach_update (Game.hikers s) deltaTime (Game.segmentStore s)
                (Game.terrain s)).
  - rewrite Hb1, Hwalk. apply walk_grounded; [| exact Hlevel].
    intros px v. by apply (getYAtX_level n).
  - by rewrite Hcw1.
  - exists herbie1, first'. rewrite Hcw1.
    split; [exact Hherbie1 |]. split; [lra |]. split; [exact Hc1 |].
    split; [exact Hc1T |]. split; [exact Hlag1 |].
    split; [rewrite Hcw1 in Hahead; lra |].
    split.
    { destruct Hflag as [Heq | (b & r & Heq)]; rewrite Heq;
        [exact Hstrip' | by apply strip_alter]. }
    split; [| split; reflexivity].
    destruct Hfirst' as [-> | Hle].
    + eapply Qle_trans; [exact Hfirst |]. apply Q.max_le_compat_l. lra.
    + eapply Qle_trans; [exact Hle |]. apply Q.le_max_r.
Qed.

Lemma same_places_refl hs : Forall2 same_place hs hs.
Proof. induction hs; constructor; [by repeat split | done]. Qed.

Lemma same_places_insert hs i h h' :
  hs !! i = Some h -> same_place h h' ->
  Forall2 same_place hs (<[i := h']> hs).
Proof.
  intros Hh Hsame. apply Forall2_same_length_lookup.
  split; [by rewrite length_insert |].
  intros j a b Ha Hb.
  apply list_lookup_insert_Some in Hb as [(-> & <- & _) | [_ Hb]].
  - rewrite Hh in Ha. by injection Ha as <-.
  - rewrite Ha in Hb. injection Hb as <-. by repeat split.
Qed.

Lemma same_places_map (f : Hiker.t -> Hiker.t) hs :
  (forall h, same_place h (f h)) -> Forall2 same_place hs (map f hs).
Proof. intros Hf. induction hs; constructor; [apply Hf | done]. Qed.

Lemma same_places_trans hs1 hs2 hs3 :
  Forall2 same_place hs1 hs2 -> Forall2 same_place hs2 hs3 ->
  Forall2 same_place hs1 hs3.
Proof.
  intros H12. revert hs3. induction H12 as [|a b l k Hab _ IH]; intros hs3 H23.
  - by inversion H23.
  - inversion H23 as [|b' c k' m Hbc Hkm]; subst.
    constructor; [| by apply IH].
    destruct Hab as (H1 & H2 & H3 & H4), Hbc as (H5 & H6 & H7 & H8).
    unfold same_place. by rewrite H5, H6, H7, H8.
Qed.

Lemma offload_places this hikerIndex this' :
  HikerSystem.offloadHiker this hikerIndex = Some this' ->
  Forall2 same_place (HikerSystem.hikers this) (HikerSystem.hikers this').
Proof.
  unfold HikerSystem.offloadHiker. intros Hoff.
  destruct (Nat.eqb hikerIndex (HikerSystem.herbieIndex this)).
  { injection Hoff as <-. apply same_places_refl. }
  destruct (HikerSystem.hikers this !! hikerIndex) as [hiker|] eqn:Hhiker;
    [| discriminate].
  cbn [mbind option_bind] in Hoff.
  match type of Hoff with
  | context [?l !! HikerSystem.herbieIndex this] =>
      destruct (l !! HikerSystem.herbieIndex this) as [herbie|] eqn:Hherbie;
        [| discriminate]
  end.
  cbn [mbind option_bind] in Hoff. injection Hoff as <-.
  cbn [HikerSystem.triggerPulse HikerSystem.set_hikers HikerSystem.hikers].
  eapply same_places_trans;
    [| apply same_places_map; intros h; by repeat split].
  eapply same_places_trans;
    [| eapply same_places_insert; [exact Hherbie | by repeat split]].
  eapply same_places_insert; [exact Hhiker | by repeat split].
Qed.

Lemma pulse_places this :
  Forall2 same_place (HikerSystem.hikers this)
          (HikerSystem.hikers (HikerSystem.triggerPulse this)).
Proof.
  cbn [HikerSystem.triggerPulse HikerSystem.set_hikers HikerSystem.hikers].
  apply same_places_map. intros h. by repeat split.
Qed.

Lemma same_places_grounded level hs hs' :
  Forall2 same_place hs hs' ->
  Forall (grounded level) hs -> Forall (grounded level) hs'.
Proof.
  induction 1 as [|h h' l k (Hx & Hy & Ht & Hs) _ IH]; [done |].
  intros Hall. apply Forall_cons in Hall as [(Gy & Gt & Gs) Hrest].
  constructor; [| by apply IH].
  unfold grounded. by rewrite Hy, Ht, Hs.
Qed.

(** A change of the state that moves neither hikers nor terrain: taps. *)
Lemma still_inv s s' :
  game_inv s ->
  (exists n, run n (worldOf s')) ->
  reachable (Game.hikers s') ->
  Forall2 same_place (HikerSystem.hikers (Game.hikers s))
          (HikerSystem.hikers (Game.hikers s')) ->
  Game.terrain s' = Game.terrain s ->
  reflagged (Game.segmentStore s) (Game.segmentStore s') ->
  Game.distance s' = Game.distance s ->
  Game.score s' = Game.score s ->
  Game.runStartX s' = Game.runStartX s ->
  game_inv s'.
Proof.
  intros [_ _ Hlevel Hcw
            (herbie & first & Hherbie & Hx & Hc & HcT & Hlag & Hnext
             & Hstrip & Hfirst & Hdist & Hscore)]
         Hrun Hreach Hsame Hterrain Hflag Hd Hs Hr.
  destruct (Forall2_lookup_l _ _ _ _ _ Hsame Hherbie)
    as (herbie' & Hherbie' & (Hx' & _)).
  split.
  - exact Hrun.
  - exact Hreach.
  - rewrite Hterrain. by apply (same_places_grounded _ _ _ Hsame).
  - by rewrite Hterrain.
  - exists herbie', first. rewrite Hterrain, Hx', Hd, Hs, Hr.
    repeat split; try done.
    destruct Hflag as [Heq | (b & r & Heq)]; rewrite Heq;
      [exact Hstrip | by apply strip_alter].
Qed.

Lemma handleObstacleTap_inv g obstacle now g' :
  game_inv (Game.st g) ->
  Taps.handleObstacleTap g obstacle now = Some g' ->
  game_inv (Game.st g').
Proof.
  intros Hinv Htap. unfold Taps.handleObstacleTap in Htap.
  destruct (ObstacleSystem.clearObstacle (Game.segmentStore (Game.st g))
              (Game.obstacleStore (Game.st g)) (Game.obstacles (Game.st g))
              obstacle now)
    as [[success [[σs σo] obstacles1]]|] eqn:Hclear; [| discriminate].
  cbn [mbind option_bind] in Htap. injection Htap as <-.
  pose proof Hinv as [[n Hrun] Hreach _ _ _].
  apply (still_inv (Game.st g)); cbn [Game.st Game.hikers Game.terrain
    Game.segmentStore Game.distance Game.score Game.runStartX]; try done.
  - exists n. apply (run_tap n (worldOf (Game.st g)) obstacle now success);
      [exact Hrun |].
    unfold tapObstacle, worldOf. cbn [segs obss terr osys].
    by rewrite Hclear.
  - destruct success; [by apply reach_pulse | exact Hreach].
  - destruct success; [apply pulse_places | apply same_places_refl].
  - exact (clearObstacle_segs _ _ _ _ _ _ _ _ _ Hclear).
Qed.

Lemma handleHikerTap_inv g hikerIndex g' :
  game_inv (Game.st g) ->
  Taps.handleHikerTap g hikerIndex = Some g' ->
  game_inv (Game.st g').
Proof.
  intros Hinv Htap. unfold Taps.handleHikerTap in Htap.
  destruct (HikerSystem.offloadHiker (Game.hikers (Game.st g)) hikerIndex)
    as [hikers1|] eqn:Hoff; [| discriminate].
  cbn [mbind option_bind] in Htap. injection Htap as <-.
  pose proof Hinv as [Hrun Hreach _ _ _].
  apply (still_inv (Game.st g)); cbn [Game.st Game.hikers Game.terrain
    Game.segmentStore Game.distance Game.score Game.runStartX]; try done.
  - by apply (reach_offload (Game.hikers (Game.st g)) hikerIndex).
  - by apply offload_places with hikerIndex.
  - by left.
Qed.

Lemma handlePointerDown_inv g canvasX canvasY now g' :
  game_inv (Game.st g) ->
  Taps.handlePointerDown g canvasX canvasY now = Some g' ->
  game_inv (Game.st g').
Proof.
  intros Hinv Htap. unfold Taps.handlePointerDown in Htap.
  destruct (ObstacleSystem.hitTest _ _ _ _) as [ref|].
  - by apply (handleObstacleTap_inv g ref now).
  - destruct (Taps.hitTestHikers _ _ _) as [i|].
    + by apply (handleHikerTap_inv g i).
    + by injection Htap as <-.
Qed.

Lemma played_inv g : played g -> game_inv (Game.st g).
Proof.
  induction 1 as [ui0 cw ch g Hcw Hstart
                 | g cw ch g' Hplayed IH Hcw Hstart
                 | g elapsed rand jitter now g' _ IH Hel Hframe
                 | g g' _ IH Hpause
                 | g g' _ IH Hresume
                 | g g' _ IH Htitle
                 | g cx cy now g' _ IH Hen Htap].
  - apply (startGame_inv (Game.new ui0) cw ch g);
      [| apply reach_init | reflexivity | exact Hcw | exact Hstart].
    exists 0%nat. apply run_start.
  - pose proof IH as [[n Hrun] Hreach _ _ _].
    apply (startGame_inv g cw ch g');
      [| apply reach_restart; exact Hreach | | exact Hcw | exact Hstart].
    + exists (length (segs (worldOf (Game.st g)))).
      apply (run_restart n). exact Hrun.
    + by destruct (run_terrain_inv n _ Hrun).
  - unfold Game.frame in Hframe.
    destruct (Game.tag_eqb (Game.gameState g) Game.playing).
    2: { by injection Hframe as <-. }
    destruct (update_shell _ _ _ _ _ _ Hframe) as (s1 & ended & Hs1 & _ & ->).
    cbn [Game.st].
    exact (updateState_inv _ _ _ _ _ _ IH (frame_step _ Hel) Hs1).
  - unfold Game.pauseGame in Hpause.
    destruct (negb _); [by injection Hpause as <- |].
    destruct (UISystem.showPause _); [| discriminate].
    cbn in Hpause. by injection Hpause as <-.
  - unfold Game.resumeGame in Hresume.
    destruct (negb _); [by injection Hresume as <- |].
    destruct (UISystem.hidePause _); [| discriminate].
    cbn in Hresume. by injection Hresume as <-.
  - unfold Game.showTitle in Htitle.
    destruct (UISystem.showTitle _); [| discriminate].
    cbn in Htitle. by injection Htitle as <-.
  - exact (handlePointerDown_inv _ _ _ _ _ IH Htap).
Qed.

(** ** What a frame of a started game does *)

Lemma no_collision s h px :
  game_inv s ->
  h ∈ HikerSystem.hikers (Game.hikers s) ->
  ObstacleSystem.checkCollision (Game.obstacleStore s) (Game.obstacles s)
    px (Hiker.y h) (Hiker.size h) = None.
Proof.
  intros [[n Hrun] _ Hlevel _ _] Hin.
  rewrite Forall_forall in Hlevel.
  destruct (Hlevel h Hin) as (Hy & _ & Hsize).
  pose proof (run_array_live n _ Hrun) as Hlive.
  unfold worldOf in Hlive. cbn [terr obss osys] in Hlive.
  unfold array_live in Hlive. rewrite Forall_forall in Hlive.
  unfold ObstacleSystem.checkCollision.
  destruct (ObstacleSystem.checkCollisionIn _ _ _ _ _) as [ref|] eqn:Hcol;
    [| reflexivity].
  exfalso.
  destruct (checkCollisionIn_Some _ _ _ _ _ _ Hcol)
    as (Hrefs & o & Ho & _ & _ & Htype & _ & _ & _ & Htop).
  destruct (Hlive ref Hrefs) as (o' & Ho' & (Hanchor & _) & _).
  rewrite Ho in Ho'. injection Ho' as <-.
  rewrite Hsize in Htop.
  assert (Hhalf : 16 / 2 == 8) by reflexivity.
  rewrite Hhalf, Hy in Htop.
  unfold anchored in Hanchor.
  destruct (Obstacle.type o); [done | | |];
    destruct Hanchor as (Hoy & _); rewrite Hoy in Htop; lra.
Qed.

Lemma herbie_over_ground s :
  game_inv s ->
  exists herbie,
    HikerSystem.hikers (Game.hikers s) !! 0%nat = Some herbie
    /\ Qmax 0 (Terrain.cameraX (Game.terrain s) - 100) <= Hiker.x herbie
    /\ Hiker.x herbie < Terrain.nextSegmentX (Game.terrain s).
Proof.
  intros [_ _ _ Hcw
            (herbie & first & Hherbie & Hx & Hc & HcT & Hlag & Hnext & _)].
  exists herbie. split; [exact Hherbie |]. split; [| exact Hnext].
  assert (HT : Qmax 0 (Hiker.x herbie
                       - Terrain.canvasWidth (Game.terrain s) * 0.3)
               <= Hiker.x herbie) by (apply Q.max_lub; lra).
  apply Q.max_lub; lra.
Qed.

Lemma ground_at s px :
  game_inv s ->
  Qmax 0 (Terrain.cameraX (Game.terrain s) - 100) <= px
  < Terrain.nextSegmentX (Game.terrain s) ->
  exists r seg,
    Terrain.findSegment (Game.segmentStore s)
      (Terrain.segments (Game.terrain s)) px = Some r
    /\ Game.segmentStore s !! r = Some seg
    /\ Segment.y seg = Terrain.baseY (Game.terrain s)
    /\ Segment.x seg <= px < Segment.x seg + Segment.width seg
    /\ Terrain.getYAtX (Game.segmentStore s) (Game.terrain s) px
       = (if Segment.hasGap seg then None
          else Some (Terrain.baseY (Game.terrain s)))
    /\ (Segment.hasGap seg = true ->
        untappedGapOn (Game.obstacleStore s) r).
Proof.
  intros [[n Hrun] _ _ _
            (herbie & first & _ & _ & _ & _ & _ & _ & Hstrip & Hfirst & _)]
         [Hlo Hhi].
  destruct (strip_covers _ _ _ _ _ px Hstrip ltac:(split; lra))
    as (r & seg & Hfind & Hseg & Hy & Hcov).
  exists r, seg. split; [exact Hfind |]. split; [exact Hseg |].
  split; [exact Hy |]. split; [by apply covers_true |]. split.
  - unfold Terrain.getYAtX. rewrite Hfind, Hseg, Hy.
    by destruct (Segment.hasGap seg).
  - intros Hgap. pose proof (run_gaps_owned n _ Hrun) as Howned.
    unfold worldOf in Howned. cbn [segs obss] in Howned.
    exact (Howned r seg Hseg Hgap).
Qed.

Lemma checkFailure_result s :
  game_inv s ->
  exists herbie r seg,
    HikerSystem.hikers (Game.hikers s) !! 0%nat = Some herbie
    /\ Terrain.findSegment (Game.segmentStore s)
         (Terrain.segments (Game.terrain s)) (Hiker.x herbie) = Some r
    /\ Game.segmentStore s !! r = Some seg
    /\ (Segment.hasGap seg = true -> untappedGapOn (Game.obstacleStore s) r)
    /\ Game.checkFailureConditions s
       = Some (Segment.hasGap seg
               || HikerSystem.isTooStretched (Game.hikers s)).
Proof.
  intros Hinv.
  destruct (herbie_over_ground s Hinv) as (herbie & Hherbie & Hrange).
  destruct (ground_at s (Hiker.x herbie) Hinv Hrange)
    as (r & seg & Hfind & Hseg & Hy & _ & _ & Howned).
  exists herbie, r, seg.
  split; [exact Hherbie |]. split; [exact Hfind |]. split; [exact Hseg |].
  split; [exact Howned |].
  unfold Game.checkFailureConditions. rewrite Hherbie.
  cbn [mbind option_bind].
  rewrite (no_collision s herbie (Hiker.x herbie) Hinv)
    by by eapply list_elem_of_lookup_2.
  pose proof Hinv as [_ Hreach Hlevel _ _].
  destruct (reachable_inv _ Hreach) as [_ Hindex _ _ _].
  unfold HikerSystem.isHerbieOnGround. rewrite Hindex, Hherbie.
  cbn [mbind option_bind].
  unfold Terrain.isOnGround. rewrite Hfind, Hseg.
  destruct (Segment.hasGap seg); [reflexivity |].
  rewrite Forall_lookup in Hlevel.
  destruct (Hlevel _ _ Hherbie) as (Hhy & _).
  assert (Hnear : JS.lt (Qabs (Hiker.y herbie - Segment.y seg)) 5 = true).
  { apply lt_true. rewrite Hy. apply Qabs_Qlt_condition. split; lra. }
  rewrite Hnear. cbn [negb orb].
  by destruct (HikerSystem.isTooStretched (Game.hikers s)).
Qed.

Lemma updateState_total s deltaTime rand jitter now :
  game_inv s ->
  0 < deltaTime <= 0.1 ->
  exists s', Game.updateState s deltaTime rand jitter now = Some s'.
Proof.
  intros [_ Hreach _ _ _] Hdt.
  pose proof (reachable_inv _ Hreach) as Hcinv.
  destruct (update_total (Game.hikers s) deltaTime (Game.segmentStore s)
              (Game.terrain s) Hcinv) as [hikers1 Hup].
  pose proof (update_inv _ _ _ _ _ Hcinv Hdt Hup) as [Hsp _ Hcount _ _].
  destruct (HikerSystem.hikers hikers1) as [|herbie rest] eqn:Hlist;
    [discriminate |].
  destruct (flow_value hikers1 herbie rest Hlist)
    as (total & count & _ & _ & _ & Hflow).
  { intros ->. discriminate. }
  unfold Game.updateState. rewrite Hup. cbn [mbind option_bind].
  rewrite Hlist. cbn [lookup list_lookup mbind option_bind].
  destruct (Terrain.update _ _ _ _ _) as [σs1 terrain1].
  destruct (ObstacleSystem.update _ _ _ _ _ _ _ _) as [[σs2 σo2] obstacles1].
  rewrite Hflow. cbn [mbind option_bind]. by eexists.
Qed.

Lemma frame_result g elapsed rand jitter now :
  played g ->
  Game.gameState g = Game.playing ->
  0 < elapsed ->
  exists s1 herbie r seg,
    Game.updateState (Game.st g) (Qmin (elapsed / 1000) 0.1) rand jitter now
    = Some s1
    /\ game_inv s1
    /\ HikerSystem.hikers (Game.hikers s1) !! 0%nat = Some herbie
    /\ Terrain.findSegment (Game.segmentStore s1)
         (Terrain.segments (Game.terrain s1)) (Hiker.x herbie) = Some r
    /\ Game.segmentStore s1 !! r = Some seg
    /\ (Segment.hasGap seg = true ->
        untappedGapOn (Game.obstacleStore s1) r)
    /\ Game.frame g elapsed rand jitter now
       = Some (if Segment.hasGap seg
                  || HikerSystem.isTooStretched (Game.hikers s1)
               then Game.mk Game.gameover s1
                            (InputSystem.disable (Game.input g)) (Game.ui g)
               else Game.mk Game.playing s1 (Game.input g) (Game.ui g)).
Proof.
  intros Hplayed Htag Hel.
  pose proof (played_inv g Hplayed) as Hinv.
  pose proof (frame_step elapsed Hel) as Hdt.
  destruct (updateState_total (Game.st g) _ rand jitter now Hinv Hdt)
    as [s1 Hs1].
  pose proof (updateState_inv _ _ _ _ _ _ Hinv Hdt Hs1) as Hinv1.
  destruct (checkFailure_result s1 Hinv1)
    as (herbie & r & seg & Hherbie & Hfind & Hseg & Howned & Hcheck).
  exists s1, herbie, r, seg.
  repeat (split; [assumption |]).
  unfold Game.frame, Game.update. rewrite Htag. cbn [Game.tag_eqb].
  rewrite Hs1. cbn [mbind option_bind]. rewrite Hcheck.
  cbn [mbind option_bind]. reflexivity.
Qed.

(** ** Solid obstacles are out of reach *)

(** X14. In a run, whoever stands at the height of the ground, with a size of
    at most 110, collides with nothing, wherever along the ground:
    [checkCollision] returns [null].  The walls, platforms and barriers of
    the array end 50 or more above the ground. *)
Theorem walker_on_the_ground_hits_nothing n w px py size :
  run n w ->
  py == Terrain.baseY (terr w) ->
  size <= 110 ->
  ObstacleSystem.checkCollision (obss w) (osys w) px py size = None.
Proof.
  intros Hrun Hy Hsize.
  pose proof (run_array_live n _ Hrun) as Hlive.
  unfold array_live in Hlive. rewrite Forall_forall in Hlive.
  unfold ObstacleSystem.checkCollision.
  destruct (ObstacleSystem.checkCollisionIn _ _ _ _ _) as [ref|] eqn:Hcol;
    [| reflexivity].
  exfalso.
  destruct (checkCollisionIn_Some _ _ _ _ _ _ Hcol)
    as (Hrefs & o & Ho & _ & _ & Htype & _ & _ & _ & Htop).
  destruct (Hlive ref Hrefs) as (o' & Ho' & (Hanchor & _) & _).
  rewrite Ho in Ho'. injection Ho' as <-.
  assert (Hhalf : size / 2 == size * (1 # 2)) by (unfold Qdiv; reflexivity).
  rewrite Hhalf, Hy in Htop.
  unfold anchored in Hanchor.
  destruct (Obstacle.type o); [done | | |];
    destruct Hanchor as (Hoy & _); rewrite Hoy in Htop; lra.
Qed.

(** Herbie standing at 950, inside the span of the wall of [wallSpawned]. *)
Lemma walker_on_the_ground_hits_nothing_witness :
  exists wall,
    obss wallSpawned !! 0%nat = Some wall
    /\ Obstacle.type wall = Obstacle.wall
    /\ Obstacle.x wall < 950 < Obstacle.x wall + Obstacle.width wall
    /\ ObstacleSystem.checkCollision (obss wallSpawned) (osys wallSpawned)
         950 420 16 = None.
Proof.
  destruct (obss wallSpawned !! 0%nat) as [wall|] eqn:Hwall;
    [| vm_compute in Hwall; discriminate].
  exists wall. split; [reflexivity |].
  assert (Hsame : Some wall = obss wallSpawned !! 0%nat) by by rewrite Hwall.
  vm_compute in Hsame. injection Hsame as ->.
  split; [reflexivity |]. split; [split; reflexivity |].
  apply (walker_on_the_ground_hits_nothing 0).
  - apply run_obstacles, run_start.
  - vm_compute. reflexivity.
  - vm_compute. discriminate.
Defined.

(** ** The outcome of a frame *)

(** X15. A frame of a playing, started game always produces the next game.  In
    it Herbie stands over a segment of the terrain and collides with
    nothing, and the game is over exactly when that segment has a gap or
    the caravan is too stretched; otherwise it goes on playing.  A gap
    under Herbie belongs to a gap obstacle that was never tapped. *)
Theorem frame_outcome g elapsed rand jitter now :
  played g ->
  Game.gameState g = Game.playing ->
  0 < elapsed ->
  exists g' herbie r seg,
    Game.frame g elapsed rand jitter now = Some g'
    /\ HikerSystem.hikers (Game.hikers (Game.st g')) !! 0%nat = Some herbie
    /\ Terrain.findSegment (Game.segmentStore (Game.st g'))
         (Terrain.segments (Game.terrain (Game.st g'))) (Hiker.x herbie)
       = Some r
    /\ Game.segmentStore (Game.st g') !! r = Some seg
    /\ ObstacleSystem.checkCollision (Game.obstacleStore (Game.st g'))
         (Game.obstacles (Game.st g')) (Hiker.x herbie) (Hiker.y herbie)
         (Hiker.size herbie) = None
    /\ Game.gameState g'
       = (if Segment.hasGap seg
             || HikerSystem.isTooStretched (Game.hikers (Game.st g'))
          then Game.gameover else Game.playing)
    /\ (Segment.hasGap seg = true ->
        untappedGapOn (Game.obstacleStore (Game.st g')) r).
Proof.
  intros Hplayed Htag Hel.
  destruct (frame_result g elapsed rand jitter now Hplayed Htag Hel)
    as (s1 & herbie & r & seg & Hs1 & Hinv1 & Hherbie & Hfind & Hseg
        & Howned & Hframe).
  eexists _, herbie, r, seg. split; [exact Hframe |].
  assert (Hst : forall a b : Game.t, Game.st a = s1 -> Game.st b = s1 ->
                forall c : bool, Game.st (if c then a else b) = s1)
    by (by intros a b Ha Hb [|]).
  rewrite Hst by reflexivity.
  split; [exact Hherbie |]. split; [exact Hfind |]. split; [exact Hseg |].
  split.
  { apply no_collision; [exact Hinv1 |]. by eapply list_elem_of_lookup_2. }
  split; [| exact Howned].
  by destruct (Segment.hasGap seg || HikerSystem.isTooStretched _).
Qed.

(** The first frame, 16 ms after the start. *)
Lemma frame_outcome_witness :
  exists g', Game.frame firstGame 16 0.5 0.5 16 = Some g'
             /\ Game.gameState g' = Game.playing.
Proof.
  assert (Hplayed : played firstGame).
  { apply (played_start page 800 600); [lra | vm_compute; reflexivity]. }
  destruct (frame_outcome firstGame 16 0.5 0.5 16 Hplayed eq_refl)
    as (g' & herbie & r & seg & Hframe & _ & _ & _ & _ & Htag & _); [lra |].
  exists g'. split; [exact Hframe |].
  assert (Hcheck : Game.gameState <$> Game.frame firstGame 16 0.5 0.5 16
                   = Some Game.playing) by (vm_compute; reflexivity).
  rewrite Hframe in Hcheck. by injection Hcheck.
Defined.

(** ** Distance and score *)

Lemma frame_playing g elapsed rand jitter now g' :
  Game.gameState g = Game.playing ->
  Game.frame g elapsed rand jitter now = Some g' ->
  Game.updateState (Game.st g) (Qmin (elapsed / 1000) 0.1) rand jitter now
  = Some (Game.st g').
Proof.
  intros Htag Hframe. unfold Game.frame in Hframe. rewrite Htag in Hframe.
  cbn [Game.tag_eqb] in Hframe.
  destruct (update_shell _ _ _ _ _ _ Hframe) as (s1 & ended & Hs1 & _ & ->).
  exact Hs1.
Qed.

(** X16. Over a frame of a playing, started game the distance does not
    decrease and grows by 20 at most; it is never negative, and the score
    is a tenth of it. *)
Theorem distance_never_decreases g elapsed rand jitter now g' :
  played g ->
  Game.gameState g = Game.playing ->
  0 < elapsed ->
  Game.frame g elapsed rand jitter now = Some g' ->
  Game.distance (Game.st g) <= Game.distance (Game.st g')
  /\ Game.distance (Game.st g') <= Game.distance (Game.st g) + 20
  /\ 0 <= Game.distance (Game.st g')
  /\ Game.score (Game.st g') == Game.distance (Game.st g') / 10.
Proof.
  intros Hplayed Htag Hel Hframe.
  pose proof (frame_playing _ _ _ _ _ _ Htag Hframe) as Hup.
  pose proof (played_inv g Hplayed) as Hinv.
  pose proof (frame_step elapsed Hel) as Hdt.
  destruct (updateState_eq _ _ _ _ _ _ Hup)
    as (hikers1 & herbie1 & flow & Hhup & Hherbie1 & _ & Hst).
  cbn zeta in Hst. rewrite Hst. cbn [Game.distance Game.score].
  destruct Hinv as [_ Hreach _ _
                      (herbie & first & Hherbie & _ & _ & _ & _ & _ & _ & _
                       & Hdist & _)].
  destruct (herbie_step _ _ _ _ _ _ (reachable_inv _ Hreach) Hdt Hhup Hherbie)
    as (herbie1' & Hh1' & _ & Hfwd & Hfar).
  rewrite Hherbie1 in Hh1'. injection Hh1' as <-.
  rewrite Hdist.
  set (start := Game.runStartX (Game.st g)).
  set (dt := Qmin (elapsed / 1000) 0.1) in *.
  repeat split.
  - apply Q.max_le_compat_l. lra.
  - apply Q.max_lub.
    + pose proof (Q.le_max_l 0 (Hiker.x herbie - start)). lra.
    + pose proof (Q.le_max_r 0 (Hiker.x herbie - start)). lra.
  - apply Q.le_max_l.
Qed.

Lemma distance_never_decreases_witness :
  exists g',
    Game.frame firstGame 16 0.5 0.5 16 = Some g'
    /\ Game.distance (Game.st firstGame) <= Game.distance (Game.st g').
Proof.
  assert (Hplayed : played firstGame).
  { apply (played_start page 800 600); [lra | vm_compute; reflexivity]. }
  destruct (frame_result firstGame 16 0.5 0.5 16 Hplayed eq_refl)
    as (s1 & herbie & r & seg & _ & _ & _ & _ & _ & _ & Hframe); [lra |].
  eexists. split; [exact Hframe |].
  refine (proj1 (distance_never_decreases firstGame 16 0.5 0.5 16 _
                   Hplayed eq_refl _ Hframe)).
  lra.
Defined.

(** ** The ground in view *)

(** X17. After a frame of a playing, started game, the terrain has a segment
    under every point from the left edge of the kept ground, 100 behind
    the camera or 0, to 200 past the right edge of the canvas.  The ground
    is missing there only where that segment has a gap, and such a gap
    belongs to a gap obstacle that was never tapped. *)
Theorem view_is_covered g elapsed rand jitter now g' px :
  played g ->
  Game.gameState g = Game.playing ->
  0 < elapsed ->
  Game.frame g elapsed rand jitter now = Some g' ->
  let s := Game.st g' in
  Qmax 0 (Terrain.cameraX (Game.terrain s) - 100) <= px
  < Terrain.cameraX (Game.terrain s) + Terrain.canvasWidth (Game.terrain s)
    + 200 ->
  exists r seg,
    Terrain.findSegment (Game.segmentStore s)
      (Terrain.segments (Game.terrain s)) px = Some r
    /\ Game.segmentStore s !! r = Some seg
    /\ Segment.x seg <= px < Segment.x seg + Segment.width seg
    /\ Terrain.getYAtX (Game.segmentStore s) (Game.terrain s) px
       = (if Segment.hasGap seg then None
          else Some (Terrain.canvasHeight (Game.terrain s) * 0.7))
    /\ (Segment.hasGap seg = true ->
        untappedGapOn (Game.obstacleStore s) r).
Proof.
  intros Hplayed Htag Hel Hframe s [Hlo Hhi].
  pose proof (frame_playing _ _ _ _ _ _ Htag Hframe) as Hup.
  pose proof (played_inv g Hplayed) as Hinv.
  pose proof (frame_step elapsed Hel) as Hdt.
  pose proof (updateState_inv _ _ _ _ _ _ Hinv Hdt Hup) as Hinv'.
  fold s in Hup, Hinv'.
  assert (Hahead : Terrain.cameraX (Game.terrain s)
                   + Terrain.canvasWidth (Game.terrain s) + 200
                   <= Terrain.nextSegmentX (Game.terrain s)).
  { destruct (updateState_eq _ _ _ _ _ _ Hup)
      as (hikers1 & herbie1 & flow & _ & _ & _ & Hst).
    cbn zeta in Hst. rewrite Hst. cbn [Game.terrain].
    apply update_generates_ahead.
    destruct Hinv as [[n Hrun] _ _ _ _].
    destruct (run_terrain_inv n _ Hrun) as [Hw _ _ _ _].
    unfold worldOf in Hw. cbn [terr] in Hw. rewrite Hw. lra. }
  destruct (ground_at s px Hinv' ltac:(split; lra))
    as (r & seg & Hfind & Hseg & Hy & Hcov & Hground & Howned).
  exists r, seg. repeat split; try assumption; try apply Hcov.
  rewrite Hground.
  destruct Hinv' as [[n Hrun] _ _ _ _].
  destruct (run_terrain_inv n _ Hrun) as [_ Hlevel _ _ _].
  unfold worldOf in Hlevel. cbn [terr] in Hlevel. by rewrite Hlevel.
Qed.

Lemma view_is_covered_witness :
  exists g' r,
    Game.frame firstGame 16 0.5 0.5 16 = Some g'
    /\ Terrain.findSegment (Game.segmentStore (Game.st g'))
         (Terrain.segments (Game.terrain (Game.st g'))) 700 = Some r.
Proof.
  assert (Hplayed : played firstGame).
  { apply (played_start page 800 600); [lra | vm_compute; reflexivity]. }
  assert (Hin : (fun g' =>
                   JS.ge 700 (Qmax 0 (Terrain.cameraX
                                        (Game.terrain (Game.st g')) - 100))
                   && JS.lt 700 (Terrain.cameraX (Game.terrain (Game.st g'))
                                 + Terrain.canvasWidth
                                     (Game.terrain (Game.st g')) + 200))
                <$> Game.frame firstGame 16 0.5 0.5 16 = Some true)
    by (vm_compute; reflexivity).
  destruct (Game.frame firstGame 16 0.5 0.5 16) as [g'|] eqn:Hframe;
    [| discriminate].
  cbn [fmap option_fmap option_map] in Hin.
  injection Hin as Hin. apply andb_true_iff in Hin as [Hlo Hhi].
  apply ge_true in Hlo. apply lt_true in Hhi.
  destruct (view_is_covered firstGame 16 0.5 0.5 16 g' 700 Hplayed eq_refl
              ltac:(lra) Hframe (conj Hlo Hhi)) as (r & seg & Hfind & _).
  exists g', r. split; [reflexivity | exact Hfind].
Defined.

(** ** The caravan of a started game *)

(** X18. In a started game there are five hikers, in order with Herbie in front,
    all of size 16 and at the height of the ground, 70% down the canvas,
    whether the ground under them has a gap or not. *)
Theorem caravan_stays_level g :
  played g ->
  let hikers := HikerSystem.hikers (Game.hikers (Game.st g)) in
  length hikers = 5%nat
  /\ HikerSystem.herbieIndex (Game.hikers (Game.st g)) = 0%nat
  /\ descending (map Hiker.x hikers)
  /\ Forall (fun h =>
               Hiker.y h == Terrain.canvasHeight (Game.terrain (Game.st g))
                            * 0.7
               /\ Hiker.targetY h == Hiker.y h
               /\ Hiker.size h = 16) hikers.
Proof.
  intros Hplayed hikers.
  destruct (played_inv g Hplayed) as [[n Hrun] Hreach Hlevel _ _].
  destruct (reachable_inv _ Hreach) as [_ Hindex Hcount _ Horder].
  destruct (run_terrain_inv n _ Hrun) as [_ Hbase _ _ _].
  unfold worldOf in Hbase. cbn [terr] in Hbase.
  repeat split; try assumption.
  eapply Forall_impl; [exact Hlevel |].
  intros h (Hy & Ht & Hs). rewrite <- Hbase, Hy, Ht. by repeat split.
Qed.

Lemma caravan_stays_level_witness :
  length (HikerSystem.hikers (Game.hikers (Game.st firstGame))) = 5%nat.
Proof.
  refine (proj1 (caravan_stays_level firstGame _)).
  apply (played_start page 800 600); [lra | vm_compute; reflexivity].
Defined.

(** ** Taps *)

Lemma handlePointerDown_still g canvasX canvasY now g' :
  Taps.handlePointerDown g canvasX canvasY now = Some g' ->
  Forall2 same_place (HikerSystem.hikers (Game.hikers (Game.st g)))
          (HikerSystem.hikers (Game.hikers (Game.st g')))
  /\ Game.terrain (Game.st g') = Game.terrain (Game.st g)
  /\ Game.distance (Game.st g') = Game.distance (Game.st g)
  /\ Game.score (Game.st g') = Game.score (Game.st g)
  /\ ObstacleSystem.obstacles (Game.obstacles (Game.st g'))
     = ObstacleSystem.obstacles (Game.obstacles (Game.st g)).
Proof.
  unfold Taps.handlePointerDown, Taps.handleObstacleTap, Taps.handleHikerTap.
  intros Htap.
  destruct (ObstacleSystem.hitTest _ _ _ _) as [ref|].
  - destruct (ObstacleSystem.clearObstacle _ _ _ _ _)
      as [[success [[σs σo] obstacles1]]|] eqn:Hclear; [| discriminate].
    cbn [mbind option_bind] in Htap. injection Htap as <-.
    cbn [Game.st Game.hikers Game.terrain Game.distance Game.score
         Game.obstacles].
    split; [destruct success; [apply pulse_places | apply same_places_refl] |].
    repeat split.
    unfold ObstacleSystem.clearObstacle in Hclear.
    destruct (_ !! ref) as [o|]; [| discriminate].
    cbn [mbind option_bind] in Hclear.
    destruct (Obstacle.cleared o || Obstacle.clearing o);
      by injection Hclear as <- <- <- <-.
  - destruct (Taps.hitTestHikers _ _ _) as [i|].
    + destruct (HikerSystem.offloadHiker _ _) as [hikers1|] eqn:Hoff;
        [| discriminate].
      cbn [mbind option_bind] in Htap. injection Htap as <-.
      cbn [Game.st Game.hikers Game.terrain Game.distance Game.score
           Game.obstacles].
      split; [by apply offload_places with i | done].
    + injection Htap as <-. split; [apply same_places_refl | done].
Qed.

(** X19. A tap on the canvas moves nothing: every hiker keeps its place, the
    terrain object (its camera, its array of segments), the distance, the
    score and the obstacle array stay as they are, and so does the state of
    the state machine.  Of the segment objects a tap changes at most one
    field: when it hits a gap obstacle, the [hasGap] flag of the segment of
    that obstacle becomes false.  A tap that hits an obstacle does not
    reach the hikers behind it. *)
Theorem tap_moves_nothing g canvasX canvasY now g' :
  Taps.handlePointerDown g canvasX canvasY now = Some g' ->
  Forall2 (fun h h' => Hiker.x h' = Hiker.x h /\ Hiker.y h' = Hiker.y h)
          (HikerSystem.hikers (Game.hikers (Game.st g)))
          (HikerSystem.hikers (Game.hikers (Game.st g')))
  /\ Game.terrain (Game.st g') = Game.terrain (Game.st g)
  /\ Game.distance (Game.st g') = Game.distance (Game.st g)
  /\ Game.score (Game.st g') = Game.score (Game.st g)
  /\ ObstacleSystem.obstacles (Game.obstacles (Game.st g'))
     = ObstacleSystem.obstacles (Game.obstacles (Game.st g))
  /\ Game.gameState g' = Game.gameState g
  /\ (Game.segmentStore (Game.st g') = Game.segmentStore (Game.st g)
      \/ exists ref obstacle r,
           ObstacleSystem.hitTest (Game.obstacleStore (Game.st g))
             (Game.obstacles (Game.st g))
             (canvasX + Terrain.cameraX (Game.terrain (Game.st g))) canvasY
           = Some ref
           /\ Game.obstacleStore (Game.st g) !! ref = Some obstacle
           /\ Obstacle.type obstacle = Obstacle.gap
           /\ Obstacle.segment obstacle = Some r
           /\ Game.segmentStore (Game.st g')
              = alter (Segment.set_hasGap false) r
                      (Game.segmentStore (Game.st g)))
  /\ (forall ref,
        ObstacleSystem.hitTest (Game.obstacleStore (Game.st g))
          (Game.obstacles (Game.st g))
          (canvasX + Terrain.cameraX (Game.terrain (Game.st g))) canvasY
        = Some ref ->
        Forall2 (fun h h' => Hiker.offloadBoost h' = Hiker.offloadBoost h)
                (HikerSystem.hikers (Game.hikers (Game.st g)))
                (HikerSystem.hikers (Game.hikers (Game.st g')))).
Proof.
  intros Htap.
  destruct (handlePointerDown_still _ _ _ _ _ Htap)
    as (Hsame & Hterrain & Hdist & Hscore & Harray).
  destruct (tap_shell _ _ _ _ _ Htap) as (Htag & _ & _).
  split.
  { eapply Forall2_impl; [exact Hsame |]. by intros h h' (Hx & Hy & _). }
  repeat (split; [assumption |]).
  split.
  { clear Hsame Hterrain Hdist Hscore Harray Htag.
    unfold Taps.handlePointerDown in Htap.
    destruct (ObstacleSystem.hitTest _ _ _ _) as [ref|] eqn:Hhit.
    - unfold Taps.handleObstacleTap, ObstacleSystem.clearObstacle in Htap.
      destruct (Game.obstacleStore (Game.st g) !! ref) as [o|] eqn:Ho;
        [| discriminate].
      cbn [mbind option_bind] in Htap.
      destruct (Obstacle.cleared o || Obstacle.clearing o).
      { cbn [mbind option_bind] in Htap. injection Htap as <-. by left. }
      cbn [mbind option_bind] in Htap. injection Htap as <-.
      cbn [Game.st Game.segmentStore].
      destruct (Obstacle.type o) eqn:Hty; try by left.
      destruct (Obstacle.segment o) as [r|] eqn:Hseg; [| by left].
      right. by exists ref, o, r.
    - destruct (Taps.hitTestHikers _ _ _) as [i|].
      + unfold Taps.handleHikerTap in Htap.
        destruct (HikerSystem.offloadHiker _ _) as [hikers1|];
          [| discriminate].
        cbn [mbind option_bind] in Htap. injection Htap as <-. by left.
      + injection Htap as <-. by left. }
  intros ref Hhit. unfold Taps.handlePointerDown in Htap.
  rewrite Hhit in Htap. unfold Taps.handleObstacleTap in Htap.
  destruct (ObstacleSystem.clearObstacle _ _ _ _ _)
    as [[success [[σs σo] obstacles1]]|]; [| discriminate].
  cbn [mbind option_bind] in Htap. injection Htap as <-.
  cbn [Game.st Game.hikers].
  destruct success.
  - cbn [HikerSystem.triggerPulse HikerSystem.set_hikers HikerSystem.hikers].
    generalize (HikerSystem.hikers (Game.hikers (Game.st g))).
    intros l. induction l; constructor; done.
  - generalize (HikerSystem.hikers (Game.hikers (Game.st g))).
    intros l. induction l; constructor; done.
Qed.

(** A tap in the sky of the first game. *)
Lemma tap_moves_nothing_witness :
  exists g',
    Taps.handlePointerDown firstGame 400 100 0 = Some g'
    /\ Game.distance (Game.st g') = Game.distance (Game.st firstGame).
Proof.
  destruct (Taps.handlePointerDown firstGame 400 100 0) as [g'|] eqn:Htap;
    [| vm_compute in Htap; discriminate].
  exists g'. split; [reflexivity |].
  by destruct (tap_moves_nothing firstGame 400 100 0 g' Htap)
    as (_ & _ & Hdist & _).
Defined.

(** ** Where obstacles appear *)

(** X20. In a run, [spawnObstacle] either finds no segment at the spawn
    position and changes nothing, or adds one obstacle, of the type drawn,
    untouched, standing where the ground puts it, and between 50 and 260
    past the right edge of the canvas: obstacles never appear inside the
    view. *)
Theorem obstacles_spawn_off_screen n w distance rand :
  run n w ->
  let spawned :=
    ObstacleSystem.spawnObstacle (segs w) (obss w) (osys w) (terr w)
                                 distance rand in
  let edge := Terrain.cameraX (terr w) + Terrain.canvasWidth (terr w) in
  spawned = (segs w, obss w, osys w)
  \/ exists obstacle,
       spawned.1.2 = obss w ++ [obstacle]
       /\ ObstacleSystem.obstacles spawned.2
          = ObstacleSystem.obstacles (osys w) ++ [length (obss w)]
       /\ Obstacle.type obstacle
          = ObstacleSystem.chooseType (ObstacleSystem.difficultyAt distance)
                                      rand
       /\ Obstacle.cleared obstacle = false
       /\ Obstacle.clearing obstacle = false
       /\ anchored (Terrain.baseY (terr w)) obstacle
       /\ edge + 50 < Obstacle.x obstacle <= edge + 260.
Proof.
  intros Hrun spawned edge. unfold spawned.
  destruct (spawnObstacle_found (segs w) (obss w) (osys w) (terr w) distance
              rand) as [-> | (ref & segment & Hfind & Hseg & Hspawn)];
    [by left | right].
  cbn zeta in Hspawn. rewrite Hspawn. cbn [fst snd].
  pose proof (run_terrain_inv n w Hrun) as Hinv.
  destruct (segment_level _ _ _ _ _ _ Hinv Hfind Hseg) as [Hy Hw].
  destruct (findSegment_Some _ _ _ _ Hfind) as (i & seg' & _ & Hseg' & Hcov).
  rewrite Hseg in Hseg'. injection Hseg' as <-.
  apply covers_true in Hcov. rewrite Hw in Hcov.
  eexists. split; [reflexivity |]. split; [reflexivity |].
  split; [apply makeObstacle_type |].
  destruct (makeObstacle_good
              (ObstacleSystem.chooseType (ObstacleSystem.difficultyAt distance)
                                         rand) ref segment)
    as [(Hanchor & _) Hcleared].
  split; [exact Hcleared |].
  split; [by destruct (ObstacleSystem.chooseType _ _) |].
  split; [by rewrite <- Hy |].
  unfold edge.
  destruct (ObstacleSystem.chooseType _ _); cbn; rewrite ?Hw; split; lra.
Qed.

(** The wall of [wallSpawned], spawned from [startWorld]. *)
Lemma obstacles_spawn_off_screen_witness :
  exists obstacle,
    (ObstacleSystem.spawnObstacle (segs startWorld) (obss startWorld)
       (osys startWorld) (terr startWorld) 500 0.3).1.2 = [obstacle]
    /\ 800 + 50 < Obstacle.x obstacle <= 800 + 260.
Proof.
  destruct (obstacles_spawn_off_screen 0 startWorld 500 0.3 (run_start 800 600))
    as [Hnone | (obstacle & Hstore & _ & _ & _ & _ & _ & Hx)].
  - vm_compute in Hnone. discriminate.
  - exists obstacle. split; [exact Hstore |].
    assert (Hedge : Terrain.cameraX (terr startWorld)
                    + Terrain.canvasWidth (terr startWorld) == 800)
      by reflexivity.
    rewrite Hedge in Hx. exact Hx.
Defined.

(** ** Taps are always handled *)

Lemma hitTestHikersFrom_Some hs :
  forall start worldX worldY i,
    Taps.hitTestHikersFrom start hs worldX worldY = Some i ->
    (start <= i)%nat /\ is_Some (hs !! (i - start)%nat).
Proof.
  induction hs as [|h rest IH]; intros start worldX worldY i Hhit;
    [discriminate |].
  cbn [Taps.hitTestHikersFrom] in Hhit.
  destruct (Taps.within _ _ _).
  - injection Hhit as <-. rewrite Nat.sub_diag. split; [lia | by eexists].
  - destruct (IH _ _ _ _ Hhit) as [Hle Hsome]. split; [lia |].
    replace (i - start)%nat with (S (i - S start)) by lia. exact Hsome.
Qed.

(** X21. A tap on the canvas of a started game is always handled, whatever it
    lands on; a tap that hits no obstacle and lands on Herbie or on nothing
    leaves the game as it is. *)
Theorem tap_always_handled g canvasX canvasY now :
  played g ->
  let worldX := canvasX + Terrain.cameraX (Game.terrain (Game.st g)) in
  exists g',
    Taps.handlePointerDown g canvasX canvasY now = Some g'
    /\ (ObstacleSystem.hitTest (Game.obstacleStore (Game.st g))
          (Game.obstacles (Game.st g)) worldX canvasY = None ->
        Taps.hitTestHikers g worldX canvasY = None
        \/ Taps.hitTestHikers g worldX canvasY = Some 0%nat ->
        g' = g).
Proof.
  intros Hplayed worldX.
  destruct (played_inv g Hplayed) as [_ Hreach _ _ _].
  destruct (reachable_inv _ Hreach) as [_ Hindex Hcount _ _].
  unfold Taps.handlePointerDown. fold worldX.
  destruct (ObstacleSystem.hitTest _ _ worldX canvasY) as [ref|] eqn:Hhit.
  - unfold ObstacleSystem.hitTest in Hhit.
    destruct (hitTestIn_Some _ _ _ _ _ Hhit) as (_ & o & Ho & _).
    unfold Taps.handleObstacleTap, ObstacleSystem.clearObstacle.
    rewrite Ho. cbn [mbind option_bind].
    destruct (Obstacle.cleared o || Obstacle.clearing o);
      cbn [mbind option_bind]; eexists; (split; [reflexivity | done]).
  - destruct (Taps.hitTestHikers g worldX canvasY) as [i|] eqn:Hhiker.
    + unfold Taps.hitTestHikers in Hhiker.
      destruct (hitTestHikersFrom_Some _ _ _ _ _ Hhiker) as [_ [h Hh]].
      rewrite Nat.sub_0_r in Hh.
      unfold Taps.handleHikerTap, HikerSystem.offloadHiker.
      rewrite Hindex.
      destruct i as [|i].
      * cbn [Nat.eqb mbind option_bind]. exists g.
        split; [by destruct g as [? []] | done].
      * cbn [Nat.eqb]. rewrite Hh. cbn [mbind option_bind].
        destruct (HikerSystem.hikers (Game.hikers (Game.st g)))
          as [|herbie rest] eqn:Hlist; [discriminate |].
        cbn [insert list_insert lookup list_lookup mbind option_bind].
        eexists. split; [reflexivity |].
        intros _ [Hnone | Hzero]; discriminate.
    + exists g. by split.
Qed.

Lemma tap_always_handled_witness :
  Taps.handlePointerDown firstGame 400 100 0 = Some firstGame.
Proof.
  assert (Hplayed : played firstGame).
  { apply (played_start page 800 600); [lra | vm_compute; reflexivity]. }
  destruct (tap_always_handled firstGame 400 100 0 Hplayed)
    as (g' & Htap & Hsame).
  rewrite Htap. f_equal. apply Hsame.
  - vm_compute. reflexivity.
  - left. vm_compute. reflexivity.
Defined.

(** ** Starting again *)

Lemma init_extended σ this canvasWidth canvasHeight :
  extended σ (Terrain.init σ this canvasWidth canvasHeight).1.
Proof. unfold Terrain.init. apply generateSegments_extended. Qed.

(** X22. Starting a game again resets it: the game is playing at distance and
    score 0 with no obstacle in the array and none counted, the camera is
    back at 0, the five hikers stand in line from 200 backwards at the
    height of the ground, and the first 1500 of ground are solid, whatever
    gaps the earlier runs left behind. *)
Theorem restart_starts_afresh g canvasWidth canvasHeight g' :
  played g ->
  0 < canvasWidth ->
  Game.startGame g canvasWidth canvasHeight = Some g' ->
  let s := Game.st g' in
  Game.gameState g' = Game.playing
  /\ Game.distance s = 0 /\ Game.score s = 0
  /\ ObstacleSystem.obstacles (Game.obstacles s) = []
  /\ ObstacleSystem.obstaclesCleared (Game.obstacles s) = 0%nat
  /\ ObstacleSystem.nextObstacleDistance (Game.obstacles s) = 400
  /\ Terrain.cameraX (Game.terrain s) = 0
  /\ HikerSystem.hikers (Game.hikers s)
     = HikerSystem.hikers
         (HikerSystem.init HikerSystem.new 200 (canvasHeight * 0.7))
  /\ (forall px,
        0 <= px < 1500 ->
        Terrain.getYAtX (Game.segmentStore s) (Game.terrain s) px
        = Some (canvasHeight * 0.7)).
Proof.
  intros Hplayed Hcw Hstart s.
  pose proof (played_restart g canvasWidth canvasHeight g' Hplayed Hcw Hstart)
    as Hplayed'.
  pose proof (played_inv g' Hplayed') as Hinv'.
  destruct (played_inv g Hplayed) as [_ Hreach _ _ _].
  destruct (reachable_inv _ Hreach) as [Hsp _ _ _ _].
  destruct (startGame_shell _ _ _ _ Hstart) as (Htag & _ & _).
  pose proof (startGame_state _ _ _ _ Hstart) as Hst. cbn zeta in Hst.
  pose proof (init_fields (Game.segmentStore (Game.st g))
                (Game.terrain (Game.st g)) canvasWidth canvasHeight)
    as (Hcam & Hwidth & Hb & Hsegs & Hlen & Hnext).
  pose proof (init_extended (Game.segmentStore (Game.st g))
                (Game.terrain (Game.st g)) canvasWidth canvasHeight)
    as (fresh & Hfresh & Hsolid).
  fold s in Hst, Hinv'.
  assert (Hterrain : Game.terrain s
                     = (Terrain.init (Game.segmentStore (Game.st g))
                          (Game.terrain (Game.st g)) canvasWidth
                          canvasHeight).2) by by rewrite Hst.
  assert (Hstore : Game.segmentStore s
                   = (Terrain.init (Game.segmentStore (Game.st g))
                        (Game.terrain (Game.st g)) canvasWidth
                        canvasHeight).1) by by rewrite Hst.
  split; [exact Htag |].
  split; [by rewrite Hst |]. split; [by rewrite Hst |].
  split; [by rewrite Hst |]. split; [by rewrite Hst |].
  split; [by rewrite Hst |].
  split; [by rewrite Hterrain |].
  split.
  { rewrite Hst. cbn [Game.hikers HikerSystem.setHerbieLabel
                      HikerSystem.hikers].
    unfold HikerSystem.init, HikerSystem.set_hikers.
    cbn [HikerSystem.hikers]. by rewrite Hsp. }
  intros px [Hlo Hhi].
  destruct (ground_at s px Hinv') as (r & seg & Hfind & Hseg & _ & _ & Hy & _).
  { rewrite Hterrain, Hcam. split.
    - rewrite Q.max_l by lra. exact Hlo.
    - rewrite Hnext.
      destruct (played_inv g Hplayed) as [[n Hrun] _ _ _ _].
      destruct (run_terrain_inv n _ Hrun) as [Hw _ _ _ _].
      unfold worldOf in Hw. cbn [terr] in Hw. rewrite Hw.
      eapply Qlt_le_trans; [exact Hhi |]. vm_compute. discriminate. }
  rewrite Hy.
  assert (Hnogap : Segment.hasGap seg = false).
  { destruct (findSegment_Some _ _ _ _ Hfind) as (i & seg' & Hi & _).
    rewrite Hterrain, Hsegs in Hi.
    apply lookup_seq in Hi as [-> Hi10].
    rewrite Hstore, Hfresh in Hseg.
    rewrite lookup_app_r in Hseg by lia.
    rewrite Forall_lookup in Hsolid. exact (Hsolid _ _ Hseg). }
  rewrite Hnogap, Hterrain, Hb. reflexivity.
Qed.

Lemma restart_starts_afresh_witness :
  exists g',
    Game.startGame firstGame 1024 768 = Some g'
    /\ Game.distance (Game.st g') = 0
    /\ Terrain.getYAtX (Game.segmentStore (Game.st g'))
         (Game.terrain (Game.st g')) 1000 = Some (768 * 0.7).
Proof.
  assert (Hplayed : played firstGame).
  { apply (played_start page 800 600); [lra | vm_compute; reflexivity]. }
  destruct (Game.startGame firstGame 1024 768) as [g'|] eqn:Hstart;
    [| vm_compute in Hstart; discriminate].
  destruct (restart_starts_afresh firstGame 1024 768 g' Hplayed ltac:(lra)
              Hstart) as (_ & Hdist & _ & _ & _ & _ & _ & _ & Hground).
  exists g'. split; [reflexivity |]. split; [exact Hdist |].
  apply Hground. lra.
Defined.

(** ** Flow feedback in a started game *)

Lemma flow_in_range this :
  caravan_inv this ->
  exists q, HikerSystem.getFlowMultiplier this = Some (JS.Fin q)
            /\ 1 <= q <= 3.
Proof.
  intros [Hsp _ Hcount _ _].
  destruct (HikerSystem.hikers this) as [|herbie rest] eqn:Hlist;
    [discriminate |].
  destruct (flow_value this herbie rest Hlist)
    as (total & count & _ & _ & _ & Hflow).
  { intros ->. discriminate. }
  rewrite Hflow, Hsp. cbn.
  eexists. split; [reflexivity |]. split.
  - apply Q.min_glb; [lra |].
    eapply Qle_trans; [| apply Q.le_max_l]. lra.
  - eapply Qle_trans; [apply Q.le_min_l | lra].
Qed.

Lemma played_flow g :
  played g ->
  exists q, Game.flowMultiplier (Game.st g) = JS.Fin q /\ 1 <= q <= 3.
Proof.
  induction 1 as [ui0 cw ch g Hcw Hstart
                 | g cw ch g' _ _ Hcw Hstart
                 | g elapsed rand jitter now g' Hplayed IH Hel Hframe
                 | g g' _ IH Hpause
                 | g g' _ IH Hresume
                 | g g' _ IH Htitle
                 | g cx cy now g' _ IH Hen Htap].
  - rewrite (startGame_state _ _ _ _ Hstart). exists 1.0. split; [done | lra].
  - rewrite (startGame_state _ _ _ _ Hstart). exists 1.0. split; [done | lra].
  - unfold Game.frame in Hframe.
    destruct (Game.tag_eqb (Game.gameState g) Game.playing).
    2: { by injection Hframe as <-. }
    destruct (update_shell _ _ _ _ _ _ Hframe) as (s1 & ended & Hs1 & _ & ->).
    cbn [Game.st].
    destruct (updateState_eq _ _ _ _ _ _ Hs1)
      as (hikers1 & herbie1 & flow & Hhup & _ & Hflow & Hst).
    cbn zeta in Hst. rewrite Hst. cbn [Game.flowMultiplier].
    destruct (played_inv g Hplayed) as [_ Hreach _ _ _].
    pose proof (update_inv _ _ _ _ _ (reachable_inv _ Hreach)
                  (frame_step _ Hel) Hhup) as Hcinv.
    destruct (flow_in_range hikers1 Hcinv) as (q & Hq & Hrange).
    rewrite Hq in Hflow. injection Hflow as <-. by exists q.
  - unfold Game.pauseGame in Hpause.
    destruct (negb _); [by injection Hpause as <- |].
    destruct (UISystem.showPause _); [| discriminate].
    cbn in Hpause. by injection Hpause as <-.
  - unfold Game.resumeGame in Hresume.
    destruct (negb _); [by injection Hresume as <- |].
    destruct (UISystem.hidePause _); [| discriminate].
    cbn in Hresume. by injection Hresume as <-.
  - unfold Game.showTitle in Htitle.
    destruct (UISystem.showTitle _); [| discriminate].
    cbn in Htitle. by injection Htitle as <-.
  - unfold Taps.handlePointerDown, Taps.handleObstacleTap,
      Taps.handleHikerTap in Htap.
    destruct (ObstacleSystem.hitTest _ _ _ _) as [ref|].
    + destruct (ObstacleSystem.clearObstacle _ _ _ _ _)
        as [[success [[σs σo] obstacles1]]|]; [| discriminate].
      cbn [mbind option_bind] in Htap. by injection Htap as <-.
    + destruct (Taps.hitTestHikers _ _ _) as [i|].
      * destruct (HikerSystem.offloadHiker _ _) as [hikers1|];
          [| discriminate].
        cbn [mbind option_bind] in Htap. by injection Htap as <-.
      * by injection Htap as <-.
Qed.

(** X23. The flow multiplier of a started game is a number between 1 and 3.
    The hue shift the palette derives from it lies between 0 and 5 and is
    5 from a flow of 2 on; the gain the audio derives from it for any
    harmonic is not negative and stays below the cap of 0.1, which is
    never reached, and it is 0 for a flow between 1.2 and 1.5. *)
Theorem flow_feedback_bounded g index :
  played g ->
  exists q shift gain,
    Game.flowMultiplier (Game.st g) = JS.Fin q
    /\ 1 <= q <= 3
    /\ Palette.setFlowShift (Game.flowMultiplier (Game.st g)) = JS.Fin shift
    /\ 0 <= shift <= 5
    /\ (2 <= q -> shift == 5)
    /\ AudioSystem.targetGain (Game.flowMultiplier (Game.st g)) index
       = JS.Fin gain
    /\ 0 <= gain < 0.1
    /\ (1.2 <= q <= 1.5 -> gain == 0).
Proof.
  intros Hplayed. destruct (played_flow g Hplayed) as (q & Hq & Hlo & Hhi).
  rewrite Hq. unfold Palette.setFlowShift, AudioSystem.targetGain.
  cbn [JS.sub_fin JS.mul_pos JS.Math_min JS.num_gt JS.num_lt].
  exists q, (Qmin 5 ((q - 1.0) * 5)).
  js_case (JS.gt q 1.5).
  - eexists. split; [reflexivity |]. split; [by split |].
    split; [reflexivity |].
    split; [split; [apply Q.min_glb; lra
                   | apply Q.le_min_l] |].
    split; [intros H2; apply Q.min_l; lra |].
    split; [reflexivity |].
    split; [| intros [_ H15]; lra].
    split; [apply Q.min_glb; lra |].
    eapply Qle_lt_trans; [apply Q.le_min_r | lra].
  - js_case (JS.lt q 1.2).
    + exists (if Nat.eqb index 0 then 0.05 else 0).
      split; [reflexivity |]. split; [by split |].
      split; [reflexivity |].
      split; [split; [apply Q.min_glb; lra | apply Q.le_min_l] |].
      split; [intros H2; lra |].
      split; [by destruct (Nat.eqb index 0) |].
      split; [destruct (Nat.eqb index 0); split; lra | intros [H12 _]; lra].
    + exists 0.
      split; [reflexivity |]. split; [by split |].
      split; [reflexivity |].
      split; [split; [apply Q.min_glb; lra | apply Q.le_min_l] |].
      split; [intros H2; lra |].
      split; [reflexivity |].
      split; [split; lra | reflexivity].
Qed.

Lemma flow_feedback_bounded_witness :
  exists shift,
    Palette.setFlowShift (Game.flowMultiplier (Game.st firstGame))
    = JS.Fin shift
    /\ 0 <= shift <= 5.
Proof.
  assert (Hplayed : played firstGame).
  { apply (played_start page 800 600); [lra | vm_compute; reflexivity]. }
  destruct (flow_feedback_bounded firstGame 0 Hplayed)
    as (q & shift & gain & _ & _ & Hshift & Hrange & _).
  exists shift. split; [exact Hshift | exact Hrange].
Defined.

(** ** The best score *)

Lemma endGameBest_max stored score :
  (Game.endGameBest stored score).2
  == Qmax (UISystem.loadBestScore stored) score
  /\ UISystem.loadBestScore (Game.endGameBest stored score).1
     == Qmax (UISystem.loadBestScore stored) score.
Proof.
  unfold Game.endGameBest, UISystem.saveBestScore.
  js_case (JS.gt score (UISystem.loadBestScore stored)); cbn.
  - rewrite Q.max_r by lra. by split.
  - rewrite Q.max_l by lra. by split.
Qed.

(** X24. When a game ends, the best score shown is the larger of the score and
    the stored best, and so is the best stored afterwards: over any series
    of games the stored best is the largest score so far and never goes
    down. *)
Theorem best_score_is_the_maximum stored scores score :
  (Game.endGameBest stored score).2
  == Qmax (UISystem.loadBestScore stored) score
  /\ UISystem.loadBestScore (gameOvers stored scores)
     == foldl Qmax (UISystem.loadBestScore stored) scores
  /\ UISystem.loadBestScore stored
     <= UISystem.loadBestScore (gameOvers stored scores)
  /\ Forall (fun sc => sc <= UISystem.loadBestScore (gameOvers stored scores))
            scores.
Proof.
  split; [apply endGameBest_max |].
  revert stored. induction scores as [|sc scores IH]; intros stored.
  - cbn. repeat split; [lra | constructor].
  - unfold gameOvers in *. cbn [foldl].
    destruct (endGameBest_max stored sc) as [_ Hmax].
    destruct (IH (Game.endGameBest stored sc).1) as (Heq & Hle & Hall).
    assert (Hfold : forall l a b, a == b -> foldl Qmax a l == foldl Qmax b l).
    { induction l as [|x l IHl]; intros a b Hab; [exact Hab |].
      cbn. apply IHl. by rewrite Hab. }
    split; [rewrite Heq; by apply Hfold |].
    pose proof (Q.le_max_l (UISystem.loadBestScore stored) sc).
    pose proof (Q.le_max_r (UISystem.loadBestScore stored) sc).
    split; [lra |]. constructor; [lra | exact Hall].
Qed.

(** ** How long an obstacle stays in the array *)

Lemma foldl_age_other deltaTime refs :
  forall (σo : list Obstacle.t) (ref : nat),
    ref ∉ refs ->
    foldl (fun σ r => alter (ObstacleSystem.age deltaTime) r σ) σo refs
      !! ref = σo !! ref.
Proof.
  induction refs as [|r rest IH]; intros σo ref Hnot; [done |].
  cbn [foldl]. apply not_elem_of_cons in Hnot as [Hne Hrest].
  rewrite IH by done. by apply list_lookup_alter_ne.
Qed.

Lemma foldl_age_once deltaTime refs :
  forall (σo : list Obstacle.t) (ref : nat) o,
    NoDup refs -> ref ∈ refs -> σo !! ref = Some o ->
    foldl (fun σ r => alter (ObstacleSystem.age deltaTime) r σ) σo refs
      !! ref = Some (ObstacleSystem.age deltaTime o).
Proof.
  induction refs as [|r rest IH]; intros σo ref o Hnodup Hin Ho.
  - by apply elem_of_nil in Hin.
  - apply NoDup_cons in Hnodup as [Hfresh Hnodup]. cbn [foldl].
    destruct (decide (r = ref)) as [-> | Hne].
    + rewrite foldl_age_other by done.
      by rewrite list_lookup_alter_eq, Ho.
    + apply elem_of_cons in Hin as [-> | Hin]; [done |].
      apply IH; [done | done |]. by rewrite list_lookup_alter_ne.
Qed.

Lemma elem_of_filter (f : nat -> bool) refs ref :
  ref ∈ List.filter f refs <-> ref ∈ refs /\ f ref = true.
Proof. rewrite !list_elem_of_In. apply filter_In. Qed.

Lemma update_membership σs σo this deltaTime terrain distance rand jitter
    ref o :
  NoDup (ObstacleSystem.obstacles this) ->
  Forall (fun r => (r < length σo)%nat) (ObstacleSystem.obstacles this) ->
  ref ∈ ObstacleSystem.obstacles this ->
  σo !! ref = Some o ->
  ref ∈ ObstacleSystem.obstacles
          (ObstacleSystem.update σs σo this deltaTime terrain distance rand
             jitter).2
  <-> ObstacleSystem.keep [ObstacleSystem.age deltaTime o]
        (Terrain.cameraX terrain) 0 = true.
Proof.
  intros Hnodup Hbound Hin Ho.
  assert (Hkeep : forall σo1 refs1,
             NoDup refs1 -> ref ∈ refs1 -> σo1 !! ref = Some o ->
             ref ∈ List.filter
                     (ObstacleSystem.keep
                        (foldl (fun σ r =>
                                  alter (ObstacleSystem.age deltaTime) r σ)
                               σo1 refs1)
                        (Terrain.cameraX terrain)) refs1
             <-> ObstacleSystem.keep [ObstacleSystem.age deltaTime o]
                   (Terrain.cameraX terrain) 0 = true).
  { intros σo1 refs1 Hnd Hin1 Ho1. rewrite elem_of_filter.
    unfold ObstacleSystem.keep at 1.
    rewrite (foldl_age_once _ _ _ _ _ Hnd Hin1 Ho1).
    unfold ObstacleSystem.keep. cbn [lookup list_lookup]. tauto. }
  unfold ObstacleSystem.update.
  destruct (JS.gt distance (ObstacleSystem.nextObstacleDistance this)).
  - destruct (spawnObstacle_found σs σo this terrain distance rand)
      as [-> | (r & segment & _ & _ & ->)].
    + cbn [snd ObstacleSystem.obstacles]. by apply Hkeep.
    + cbn [snd ObstacleSystem.obstacles ObstacleSystem.push].
      apply Hkeep.
      * apply NoDup_app. split; [done |]. split; [| apply NoDup_singleton].
        intros x Hx Hx'. apply list_elem_of_singleton in Hx'. subst x.
        rewrite Forall_forall in Hbound. specialize (Hbound _ Hx). lia.
      * apply elem_of_app. by left.
      * by apply lookup_app_l_Some.
  - cbn [snd ObstacleSystem.obstacles]. by apply Hkeep.
Qed.

Lemma update_array_fresh σs σo this deltaTime terrain distance rand jitter :
  NoDup (ObstacleSystem.obstacles this) ->
  Forall (fun r => (r < length σo)%nat) (ObstacleSystem.obstacles this) ->
  let r := ObstacleSystem.update σs σo this deltaTime terrain distance rand
                                 jitter in
  NoDup (ObstacleSystem.obstacles r.2)
  /\ Forall (fun ref => (ref < length r.1.2)%nat)
            (ObstacleSystem.obstacles r.2).
Proof.
  intros Hnodup Hbound.
  assert (Hlen : forall refs (σ : list Obstacle.t),
             length (foldl (fun σ r =>
                              alter (ObstacleSystem.age deltaTime) r σ)
                           σ refs) = length σ).
  { induction refs as [|r refs IH]; intros σ; [done |].
    cbn [foldl]. by rewrite IH, length_alter. }
  assert (Hstep : forall (σo1 : list Obstacle.t) refs1 cam,
             NoDup refs1 -> Forall (fun r => (r < length σo1)%nat) refs1 ->
             NoDup (List.filter
                      (ObstacleSystem.keep
                         (foldl (fun σ r =>
                                   alter (ObstacleSystem.age deltaTime) r σ)
                                σo1 refs1) cam) refs1)
             /\ Forall (fun ref =>
                          (ref < length
                                   (foldl (fun σ r =>
                                      alter (ObstacleSystem.age deltaTime) r σ)
                                      σo1 refs1))%nat)
                       (List.filter
                          (ObstacleSystem.keep
                             (foldl (fun σ r =>
                                alter (ObstacleSystem.age deltaTime) r σ)
                                σo1 refs1) cam) refs1)).
  { intros σo1 refs1 cam Hnd Hb. split.
    - apply NoDup_ListNoDup, List.NoDup_filter. by apply NoDup_ListNoDup.
    - rewrite Hlen. rewrite Forall_forall in *. intros x Hx.
      apply elem_of_filter in Hx as [Hx _]. by apply Hb. }
  unfold ObstacleSystem.update.
  destruct (JS.gt distance (ObstacleSystem.nextObstacleDistance this)).
  - destruct (spawnObstacle_found σs σo this terrain distance rand)
      as [-> | (r & segment & _ & _ & ->)].
    + cbn [fst snd ObstacleSystem.obstacles]. by apply Hstep.
    + cbn [fst snd ObstacleSystem.obstacles ObstacleSystem.push].
      apply Hstep.
      * apply NoDup_app. split; [done |]. split; [| apply NoDup_singleton].
        intros x Hx Hx'. apply list_elem_of_singleton in Hx'. subst x.
        rewrite Forall_forall in Hbound. specialize (Hbound _ Hx). lia.
      * apply Forall_app. split.
        -- eapply Forall_impl; [exact Hbound |]. intros x Hx.
           cbn beta in Hx. rewrite length_app. lia.
        -- apply Forall_singleton. rewrite length_app. cbn. lia.
  - cbn [fst snd ObstacleSystem.obstacles]. by apply Hstep.
Qed.

Lemma run_array_fresh n w :
  run n w ->
  NoDup (ObstacleSystem.obstacles (osys w))
  /\ Forall (fun ref => (ref < length (obss w))%nat)
            (ObstacleSystem.obstacles (osys w)).
Proof.
  induction 1 as [canvasWidth canvasHeight
                 | n w canvasWidth canvasHeight Hrun IH
                 | n w deltaTime distance herbieX Hrun IH
                 | n w deltaTime distance rand jitter Hrun IH
                 | n w ref now hit w' Hrun IH Htap].
  - rewrite startGame_eq. cbn. split; constructor.
  - rewrite startGame_eq. cbn. split; constructor.
  - rewrite terrainUpdate_eq. exact IH.
  - rewrite obstaclesUpdate_eq. cbn [osys obss].
    destruct IH as [Hnd Hb]. by apply update_array_fresh.
  - unfold tapObstacle in Htap.
    destruct (ObstacleSystem.clearObstacle (segs w) (obss w) (osys w) ref now)
      as [[hit' [[σs' σo'] this']]|] eqn:Hclear; [| discriminate].
    cbn [mbind option_bind] in Htap. injection Htap as <- <-.
    cbn [obss osys].
    unfold ObstacleSystem.clearObstacle in Hclear.
    destruct (obss w !! ref) as [o|]; [| discriminate].
    cbn [mbind option_bind] in Hclear.
    destruct (Obstacle.cleared o || Obstacle.clearing o);
      injection Hclear as <- <- <- <-; [exact IH |].
    cbn [ObstacleSystem.obstacles]. by rewrite length_insert.
Qed.

(** X25. In a run, an obstacle of the array stays in the array over an update
    exactly when it is still more than 200 ahead of the left of the camera
    and its clearing, if it was tapped, has not reached 1 with this update:
    nothing but a tap or the camera passing removes an obstacle. *)
Theorem obstacle_stays_until_cleared_or_passed n w deltaTime distance rand
    jitter ref obstacle :
  run n w ->
  ref ∈ ObstacleSystem.obstacles (osys w) ->
  obss w !! ref = Some obstacle ->
  ref ∈ ObstacleSystem.obstacles
          (osys (obstaclesUpdate w deltaTime distance rand jitter))
  <-> Terrain.cameraX (terr w) - 200 < Obstacle.x obstacle
      /\ (Obstacle.clearing obstacle = false
          \/ Obstacle.clearProgress obstacle + deltaTime * 2 < 1).
Proof.
  intros Hrun Hin Ho.
  destruct (run_array_fresh n w Hrun) as [Hnodup Hbound].
  pose proof (run_array_live n w Hrun) as Hlive.
  unfold array_live in Hlive. rewrite Forall_forall in Hlive.
  destruct (Hlive ref Hin) as (o' & Ho' & _ & Hcleared).
  rewrite Ho in Ho'. injection Ho' as <-.
  rewrite obstaclesUpdate_eq. cbn [osys].
  rewrite (update_membership _ _ _ _ _ _ _ _ ref obstacle Hnodup Hbound Hin
             Ho).
  unfold ObstacleSystem.keep, ObstacleSystem.age.
  cbn [lookup list_lookup Obstacle.cleared Obstacle.x].
  rewrite Hcleared, andb_true_iff, negb_true_iff, gt_true.
  destruct (Obstacle.clearing obstacle); cbn [andb].
  - js_case (JS.ge (Obstacle.clearProgress obstacle + deltaTime * 2) 1.0).
    + split; [by intros [? _] | intros [_ [? | ?]]; [done | lra]].
    + split; [intros [_ ?]; split; [done | right; lra] | by intros [? _]].
  - split; [intros [_ ?]; split; [done | by left] | by intros [? _]].
Qed.

(** The gap of [gapSpawned], untouched and ahead of the camera, stays. *)
Lemma obstacle_stays_until_cleared_or_passed_witness :
  0%nat ∈ ObstacleSystem.obstacles
            (osys (obstaclesUpdate gapSpawned 0.016 500 0.8 0.5)).
Proof.
  destruct (obss gapSpawned !! 0%nat) as [gap|] eqn:Hgap;
    [| vm_compute in Hgap; discriminate].
  apply (obstacle_stays_until_cleared_or_passed 0 gapSpawned 0.016 500 0.8
           0.5 0 gap).
  - apply run_obstacles, run_start.
  - vm_compute. apply elem_of_cons. by left.
  - exact Hgap.
  - assert (Hsame : Some gap = obss gapSpawned !! 0%nat) by by rewrite Hgap.
    vm_compute in Hsame. injection Hsame as ->.
    split; [vm_compute; reflexivity | by left].
Defined.

(** ** The score follows Herbie *)

Lemma tap_runStartX g canvasX canvasY now g' :
  Taps.handlePointerDown g canvasX canvasY now = Some g' ->
  Game.runStartX (Game.st g') = Game.runStartX (Game.st g).
Proof.
  unfold Taps.handlePointerDown, Taps.handleObstacleTap, Taps.handleHikerTap.
  intros Htap.
  destruct (ObstacleSystem.hitTest _ _ _ _) as [ref|].
  - destruct (ObstacleSystem.clearObstacle _ _ _ _ _)
      as [[success [[σs σo] obstacles1]]|]; [| discriminate].
    cbn [mbind option_bind] in Htap. by injection Htap as <-.
  - destruct (Taps.hitTestHikers _ _ _) as [i|].
    + destruct (HikerSystem.offloadHiker _ _) as [hikers1|]; [| discriminate].
      cbn [mbind option_bind] in Htap. by injection Htap as <-.
    + by injection Htap as <-.
Qed.

Lemma startGame_ahead this canvasWidth canvasHeight this' :
  Game.startGame this canvasWidth canvasHeight = Some this' ->
  exists herbie,
    HikerSystem.hikers (Game.hikers (Game.st this')) !! 0%nat = Some herbie
    /\ Game.runStartX (Game.st this') == 200
    /\ 200 <= Hiker.x herbie.
Proof.
  intros Hstart. rewrite (startGame_state _ _ _ _ Hstart).
  cbn [Game.hikers Game.runStartX HikerSystem.setHerbieLabel
       HikerSystem.hikers].
  eexists. split; [apply init_herbie |]. cbn [Hiker.x].
  change (Z.of_nat 0) with 0%Z.
  assert (Hx : 200 - inject_Z 0 * HikerSystem.spacing
                                    (Game.hikers (Game.st this)) == 200)
    by ring.
  rewrite Hx. split; [reflexivity | lra].
Qed.

Lemma played_ahead g :
  played g ->
  exists herbie,
    HikerSystem.hikers (Game.hikers (Game.st g)) !! 0%nat = Some herbie
    /\ Game.runStartX (Game.st g) == 200
    /\ 200 <= Hiker.x herbie.
Proof.
  induction 1 as [ui0 cw ch g Hcw Hstart
                 | g cw ch g' _ _ Hcw Hstart
                 | g elapsed rand jitter now g' Hplayed IH Hel Hframe
                 | g g' _ IH Hpause
                 | g g' _ IH Hresume
                 | g g' _ IH Htitle
                 | g cx cy now g' _ IH Hen Htap].
  - exact (startGame_ahead _ _ _ _ Hstart).
  - exact (startGame_ahead _ _ _ _ Hstart).
  - unfold Game.frame in Hframe.
    destruct (Game.tag_eqb (Game.gameState g) Game.playing).
    2: { by injection Hframe as <-. }
    destruct (update_shell _ _ _ _ _ _ Hframe) as (s1 & ended & Hs1 & _ & ->).
    cbn [Game.st].
    destruct (updateState_eq _ _ _ _ _ _ Hs1)
      as (hikers1 & herbie1 & flow & Hhup & Hherbie1 & _ & Hst).
    cbn zeta in Hst. rewrite Hst. cbn [Game.hikers Game.runStartX].
    destruct IH as (herbie & Hherbie & Hstart & Hx).
    destruct (played_inv g Hplayed) as [_ Hreach _ _ _].
    destruct (herbie_step _ _ _ _ _ _ (reachable_inv _ Hreach)
                (frame_step _ Hel) Hhup Hherbie)
      as (herbie1' & Hh1' & _ & Hfwd & _).
    rewrite Hherbie1 in Hh1'. injection Hh1' as <-.
    exists herbie1. split; [exact Hherbie1 |]. split; [exact Hstart | lra].
  - unfold Game.pauseGame in Hpause.
    destruct (negb _); [by injection Hpause as <- |].
    destruct (UISystem.showPause _); [| discriminate].
    cbn in Hpause. by injection Hpause as <-.
  - unfold Game.resumeGame in Hresume.
    destruct (negb _); [by injection Hresume as <- |].
    destruct (UISystem.hidePause _); [| discriminate].
    cbn in Hresume. by injection Hresume as <-.
  - unfold Game.showTitle in Htitle.
    destruct (UISystem.showTitle _); [| discriminate].
    cbn in Htitle. by injection Htitle as <-.
  - destruct IH as (herbie & Hherbie & Hstart & Hx).
    destruct (handlePointerDown_still _ _ _ _ _ Htap) as (Hsame & _).
    destruct (Forall2_lookup_l _ _ _ _ _ Hsame Hherbie)
      as (herbie' & Hherbie' & (Hx' & _)).
    exists herbie'. rewrite (tap_runStartX _ _ _ _ _ Htap), Hx'.
    by repeat split.
Qed.

Lemma played_distance g :
  played g ->
  exists herbie,
    HikerSystem.hikers (Game.hikers (Game.st g)) !! 0%nat = Some herbie
    /\ Game.distance (Game.st g) == Hiker.x herbie - 200.
Proof.
  intros Hplayed.
  destruct (played_ahead g Hplayed) as (herbie & Hherbie & Hstart & Hx).
  destruct (played_inv g Hplayed)
    as [_ _ _ _ (herbie' & first & Hherbie' & _ & _ & _ & _ & _ & _ & _
                 & Hdist & _)].
  rewrite Hherbie in Hherbie'. injection Hherbie' as <-.
  exists herbie. split; [exact Hherbie |].
  rewrite Hdist, Hstart. apply Q.max_r. lra.
Qed.

(** X26. In a started game Herbie, who starts at 200, is never behind that
    mark; the distance is how far he is past it and the score is a tenth
    of that. *)
Theorem score_follows_herbie g :
  played g ->
  exists herbie,
    HikerSystem.hikers (Game.hikers (Game.st g)) !! 0%nat = Some herbie
    /\ 200 <= Hiker.x herbie
    /\ Game.distance (Game.st g) == Hiker.x herbie - 200
    /\ Game.score (Game.st g) == (Hiker.x herbie - 200) / 10.
Proof.
  intros Hplayed.
  destruct (played_ahead g Hplayed) as (herbie & Hherbie & Hstart & Hx).
  destruct (played_inv g Hplayed)
    as [_ _ _ _ (herbie' & first & Hherbie' & _ & _ & _ & _ & _ & _ & _
                 & Hdist & Hscore)].
  rewrite Hherbie in Hherbie'. injection Hherbie' as <-.
  exists herbie. split; [exact Hherbie |]. split; [exact Hx |].
  assert (Hd : Game.distance (Game.st g) == Hiker.x herbie - 200).
  { rewrite Hdist, Hstart. apply Q.max_r. lra. }
  split; [exact Hd |]. by rewrite Hscore, Hd.
Qed.

Lemma score_follows_herbie_witness :
  exists herbie,
    HikerSystem.hikers (Game.hikers (Game.st firstGame)) !! 0%nat
    = Some herbie
    /\ Game.score (Game.st firstGame) == (Hiker.x herbie - 200) / 10.
Proof.
  destruct (score_follows_herbie firstGame)
    as (herbie & Hherbie & _ & _ & Hscore).
  - apply (played_start page 800 600); [lra | vm_compute; reflexivity].
  - exists herbie. split; [exact Hherbie | exact Hscore].
Defined.

(** ** A game that is only watched *)

Lemma watched_played g : watched g -> played g.
Proof.
  induction 1.
  - by eapply played_start.
  - by eapply played_restart.
  - by eapply played_frame.
  - by eapply played_pause.
  - by eapply played_resume.
  - by eapply played_title.
Qed.

Lemma watched_untapped g :
  watched g -> untapped (Game.hikers (Game.st g)).
Proof.
  induction 1 as [ui0 cw ch g Hcw Hstart
                 | g cw ch g' _ IH Hcw Hstart
                 | g elapsed rand jitter now g' _ IH Hel Hframe
                 | g g' _ IH Hpause
                 | g g' _ IH Hresume
                 | g g' _ IH Htitle].
  - rewrite (startGame_state _ _ _ _ Hstart). cbn [Game.hikers].
    by apply untapped_label, untapped_init.
  - rewrite (startGame_state _ _ _ _ Hstart). cbn [Game.hikers].
    destruct (untapped_formation _ IH) as [Hsp Hidx Hms _ _ _ _].
    by apply untapped_label, untapped_init.
  - unfold Game.frame in Hframe.
    destruct (Game.tag_eqb (Game.gameState g) Game.playing).
    2: { by injection Hframe as <-. }
    destruct (update_shell _ _ _ _ _ _ Hframe) as (s1 & ended & Hs1 & _ & ->).
    cbn [Game.st].
    destruct (updateState_eq _ _ _ _ _ _ Hs1)
      as (hikers1 & herbie1 & flow & Hhup & _ & _ & Hst).
    cbn zeta in Hst. rewrite Hst. cbn [Game.hikers].
    exact (untapped_update _ _ _ _ _ IH (frame_step _ Hel) Hhup).
  - unfold Game.pauseGame in Hpause.
    destruct (negb _); [by injection Hpause as <- |].
    destruct (UISystem.showPause _); [| discriminate].
    cbn in Hpause. by injection Hpause as <-.
  - unfold Game.resumeGame in Hresume.
    destruct (negb _); [by injection Hresume as <- |].
    destruct (UISystem.hidePause _); [| discriminate].
    cbn in Hresume. by injection Hresume as <-.
  - unfold Game.showTitle in Htitle.
    destruct (UISystem.showTitle _); [| discriminate].
    cbn in Htitle. by injection Htitle as <-.
Qed.

Lemma formation_flow this :
  formation this ->
  HikerSystem.isTooStretched this = false
  /\ exists q, HikerSystem.getFlowMultiplier this = Some (JS.Fin q)
                /\ q == 3.
Proof.
  intros [Hsp Hidx Hms Hcnt Hleader Hcalm Heven]. split.
  - apply not_true_iff_false. rewrite tooStretched_pairs.
    intros (j & a & b & Ha & Hb & Hgt).
    pose proof (evenly_lookup _ _ _ _ Heven Ha Hb). rewrite Hms in Hgt. lra.
  - destruct (HikerSystem.hikers this) as [|a rest] eqn:Hhs; [discriminate |].
    assert (Hrest : rest <> []) by (destruct rest; [discriminate | done]).
    destruct (flow_value this a rest Hhs Hrest)
      as (total & count & Htot & Hcnt' & Hpos & ->).
    rewrite Hsp. cbn [JS.Math_abs JS.div_fin]. unfold JS.div.
    change (Qeq_bool 60 0) with false. cbn iota.
    cbn [JS.fin_sub JS.Math_max JS.Math_min].
    eexists. split; [reflexivity |].
    assert (Havg : total / count == 60).
    { rewrite Htot, (evenly_sum _ Heven), spacings_length.
      cbn [length Nat.sub]. rewrite Nat.sub_0_r, <- Hcnt'. field. lra. }
    rewrite Havg. vm_compute. reflexivity.
Qed.

(** X27. In a game that is only watched, a frame gives Herbie the speed 1 and
    moves him by [currentSpeed * 100 * deltaTime]; the caravan is never too
    stretched and the flow multiplier stays at its top of 3 (bounded here
    with a margin of 0.001, which covers the rounding of the sums in a
    running game); the game is over after the frame exactly when the
    segment under Herbie has a gap. *)
Theorem watched_game_ends_at_a_gap g elapsed rand jitter now g' :
  watched g ->
  Game.gameState g = Game.playing ->
  0 < elapsed ->
  Game.frame g elapsed rand jitter now = Some g' ->
  exists herbie herbie' r seg q,
    HikerSystem.hikers (Game.hikers (Game.st g)) !! 0%nat = Some herbie
    /\ HikerSystem.hikers (Game.hikers (Game.st g')) !! 0%nat = Some herbie'
    /\ Hiker.currentSpeed herbie' == 1
    /\ Hiker.x herbie'
       == Hiker.x herbie
          + Hiker.currentSpeed herbie' * 100 * Qmin (elapsed / 1000) 0.1
    /\ HikerSystem.isTooStretched (Game.hikers (Game.st g')) = false
    /\ Game.flowMultiplier (Game.st g') = JS.Fin q /\ 2.999 <= q <= 3
    /\ Terrain.findSegment (Game.segmentStore (Game.st g'))
         (Terrain.segments (Game.terrain (Game.st g'))) (Hiker.x herbie')
       = Some r
    /\ Game.segmentStore (Game.st g') !! r = Some seg
    /\ Game.gameState g'
       = (if Segment.hasGap seg then Game.gameover else Game.playing).
Proof.
  intros Hwatched Htag Hel Hframe.
  pose proof (watched_played g Hwatched) as Hplayed.
  pose proof (watched_frame g elapsed rand jitter now g' Hwatched Hel Hframe)
    as Hwatched'.
  pose proof (watched_played g' Hwatched') as Hplayed'.
  destruct (formation_flow _ (untapped_formation _
                                (watched_untapped g' Hwatched')))
    as [Hstretch (q & Hflow & Hq)].
  destruct (played_distance g Hplayed) as (herbie & Hherbie & _).
  destruct (played_distance g' Hplayed') as (herbie' & Hherbie' & _).
  destruct (frame_result g elapsed rand jitter now Hplayed Htag Hel)
    as (s1 & herbie1 & r & seg & Hs1 & _ & Hherbie1 & Hfind & Hseg & _
        & Hframe').
  rewrite Hframe in Hframe'. injection Hframe' as Hg'.
  assert (Hst : Game.st g' = s1) by (rewrite Hg'; by destruct (_ || _)).
  rewrite Hst in *. rewrite Hherbie1 in Hherbie'. injection Hherbie' as <-.
  assert (Hmove : Hiker.currentSpeed herbie1 == 1
                  /\ Hiker.x herbie1
                     == Hiker.x herbie
                        + Hiker.currentSpeed herbie1 * 100
                          * Qmin (elapsed / 1000) 0.1).
  { destruct (updateState_eq _ _ _ _ _ _ Hs1)
      as (hikers1 & herbie2 & flow & Hhup & Hherbie2 & _ & Hs).
    cbn zeta in Hs. rewrite Hs in Hherbie1. cbn [Game.hikers] in Hherbie1.
    rewrite Hherbie2 in Hherbie1. injection Hherbie1 as ->.
    destruct (played_inv g Hplayed) as [_ Hreach _ _ _].
    destruct (herbie_step _ _ _ _ _ _ (reachable_inv _ Hreach)
                (frame_step _ Hel) Hhup Hherbie)
      as (herbie3 & Hh3 & Hwalk & _).
    rewrite Hherbie2 in Hh3. injection Hh3 as <-.
    rewrite Hwalk in Hherbie2.
    rewrite (walk_lookup_0 _ _ _ _ _ _ _ _ Hherbie) in Hherbie2.
    injection Hherbie2 as <-. rewrite step_x, step_currentSpeed.
    cbn [HikerSystem.pace snd].
    destruct (untapped_formation _ (watched_untapped g Hwatched))
      as [_ _ _ _ (leader & Hleader & Hbase) Hcalm _].
    rewrite Hherbie in Hleader. injection Hleader as <-.
    rewrite Forall_lookup in Hcalm.
    destruct (Hcalm _ _ Hherbie) as (Hboost & _).
    rewrite Hbase, Hboost. split; ring. }
  exists herbie, herbie1, r, seg, q.
  split; [exact Hherbie |]. split; [exact Hherbie1 |].
  split; [exact (proj1 Hmove) |]. split; [exact (proj2 Hmove) |].
  split; [exact Hstretch |].
  assert (Hfl : Game.flowMultiplier s1 = JS.Fin q).
  { destruct (updateState_eq _ _ _ _ _ _ Hs1)
      as (hikers1 & herbie2 & flow & _ & _ & Hflow1 & Hs).
    cbn zeta in Hs. rewrite Hs in Hflow |- *.
    cbn [Game.hikers Game.flowMultiplier] in *.
    rewrite Hflow in Hflow1. by injection Hflow1. }
  split; [exact Hfl |]. split; [split; lra |].
  split; [exact Hfind |]. split; [exact Hseg |].
  rewrite Hg', Hstretch, orb_false_r. by destruct (Segment.hasGap seg).
Qed.

Lemma watched_game_ends_at_a_gap_witness :
  exists g' herbie',
    Game.frame firstGame 16 0.5 0.5 16 = Some g'
    /\ HikerSystem.hikers (Game.hikers (Game.st g')) !! 0%nat = Some herbie'
    /\ Hiker.x herbie' == 200 + 1.6.
Proof.
  assert (Hwatched : watched firstGame).
  { apply (watched_start page 800 600); [lra | vm_compute; reflexivity]. }
  destruct (frame_result firstGame 16 0.5 0.5 16
              (watched_played _ Hwatched) eq_refl)
    as (s1 & herbie1 & r1 & seg1 & _ & _ & _ & _ & _ & _ & Hframe); [lra |].
  destruct (watched_game_ends_at_a_gap firstGame 16 0.5 0.5 16 _ Hwatched
              eq_refl ltac:(lra) Hframe)
    as (herbie & herbie' & r & seg & q & Hherbie & Hherbie' & Hspeed & Hmove
        & _).
  eexists _, herbie'. split; [exact Hframe |]. split; [exact Hherbie' |].
  rewrite Hmove, Hspeed.
  assert (Hfirst : Some herbie
                   = HikerSystem.hikers (Game.hikers (Game.st firstGame))
                       !! 0%nat) by by rewrite Hherbie.
  vm_compute in Hfirst. injection Hfirst as ->.
  vm_compute. reflexivity.
Defined.

(** * The gap flags in a started game *)





















